(** * Monte Carlo stock-price simulation: a shallow embedding of
    [monte_carlo_simulation.cpp] and the properties of its core.

    The C++ [double] is IEEE 754 binary64.  It is modelled by the standard
    library's [spec_float] with the operations [SFadd], [SFmul], ... taken at
    precision 53 and maximal exponent 1024, which is the specification the
    kernel's primitive floats are checked against.  The C++ [int] is a
    32-bit signed integer, modelled by [Z] together with explicit range
    checks; a computation that C++ leaves undefined (signed overflow, an
    out-of-range index, an out-of-range conversion) or that throws returns
    [None].

    Three things the program takes from its libraries are parameters of the
    development: [std::exp], the pair [std::mt19937] /
    [std::normal_distribution], and [std::sort].  Their contracts are
    stated as hypotheses where a property needs them, and reference
    instances show that the contracts can be met. *)

From Stdlib Require Import ZArith Lia Bool List.
From Stdlib Require Import SpecFloat.
From Stdlib Require PrimFloat FloatOps.
From stdpp Require Import base option list sorting strings.

Open Scope Z_scope.

(* ================================================================== *)
(** * Binary64 arithmetic *)
(* ================================================================== *)

Definition double : Type := spec_float.

Definition prec64 : Z := 53.
Definition emax64 : Z := 1024.

Definition fadd : double -> double -> double := SFadd prec64 emax64.
Definition fsub : double -> double -> double := SFsub prec64 emax64.
Definition fmul : double -> double -> double := SFmul prec64 emax64.
Definition fdiv : double -> double -> double := SFdiv prec64 emax64.
Definition fsqrt : double -> double := SFsqrt prec64 emax64.
(** [x < y], [x <= y] and [x == y] of C++: false as soon as an operand is
    a NaN. *)
Definition flt : double -> double -> bool := SFltb.
Definition fle : double -> double -> bool := SFleb.
Definition feq : double -> double -> bool := SFeqb.

(** The literals of the program, as the compiler rounds them. *)
Definition d_0_0 : double := S754_zero false.
Definition d_1_0 : double := S754_finite false 4503599627370496 (-52).
Definition d_0_5 : double := S754_finite false 4503599627370496 (-53).
Definition d_0_05 : double := S754_finite false 7205759403792794 (-57).
Definition d_0_95 : double := S754_finite false 8556839292003942 (-53).

Definition d_pinf : double := S754_infinity false.
Definition d_ninf : double := S754_infinity true.

Definition is_nan (x : double) : bool :=
  match x with S754_nan => true | _ => false end.

Definition is_zero (x : double) : bool :=
  match x with S754_zero _ => true | _ => false end.

(** Finite in the sense of [std::isfinite]: neither an infinity nor a NaN. *)
Definition is_finite (x : double) : bool :=
  match x with S754_zero _ | S754_finite _ _ _ => true | _ => false end.

(** A value the hardware can hold: its mantissa and exponent are in the
    canonical form of the format. *)
Definition is_binary64 (x : double) : bool := valid_binary prec64 emax64 x.

(* ================================================================== *)
(** * The 32-bit [int] and its conversions *)
(* ================================================================== *)

Definition INT_MAX : Z := 2147483647.
Definition INT_MIN : Z := -2147483648.

Definition in_int_range (n : Z) : bool := (INT_MIN <=? n) && (n <=? INT_MAX).

(** [a + b] on [int]: signed overflow is undefined behaviour. *)
Definition int_add (a b : Z) : option Z :=
  if in_int_range (a + b) then Some (a + b) else None.

(** Conversion [size_t -> int] of [int n = v.size()]: the value modulo
    2^32, read as a signed number. *)
Definition int_of_size (n : nat) : Z :=
  (Z.of_nat n + 2147483648) mod 4294967296 - 2147483648.

(** Conversion [int -> double]; exact, since every [int] has fewer than 53
    significant bits. *)
Definition double_of_int (n : Z) : double :=
  binary_normalize prec64 emax64 n 0 false.

(** [static_cast<int>(x)]: truncation toward zero; undefined when [x] is
    not finite or the truncated value is not an [int]. *)
Definition int_of_double (x : double) : option Z :=
  match x with
  | S754_zero _ => Some 0
  | S754_finite s m e =>
      let t := if 0 <=? e then Zpos m * 2 ^ e else Zpos m / 2 ^ (- e) in
      let v := if s then - t else t in
      if in_int_range v then Some v else None
  | _ => None
  end.

(** The index of a percentile, [static_cast<int>(p * num_paths)]. *)
Definition percentile_index (p : double) (num_paths : Z) : option Z :=
  int_of_double (fmul p (double_of_int num_paths)).

(* ================================================================== *)
(** * Vectors and counted loops *)
(* ================================================================== *)

(** [std::vector<T> v(n)] with every element equal to [x].  The [int]
    size is converted to [size_t]: a negative one becomes a size beyond
    [max_size()] and the constructor throws. *)
Definition vector_new {A : Type} (n : Z) (x : A) : option (list A) :=
  if 0 <=? n then Some (replicate (Z.to_nat n) x) else None.

(** [v[i]]: reading outside the vector is undefined. *)
Definition vector_get {A : Type} (v : list A) (i : Z) : option A :=
  if 0 <=? i then v !! Z.to_nat i else None.

(** [v[i] = x]: writing outside the vector is undefined. *)
Definition vector_set {A : Type} (v : list A) (i : Z) (x : A) : option (list A) :=
  if (0 <=? i) && (i <? Z.of_nat (length v))
  then Some (<[Z.to_nat i := x]> v) else None.

(** [for (int i = i0; cond(i); ++i) body], threading the state [St].
    [fuel] bounds the number of iterations; the increment is an [int]
    addition. *)
Fixpoint for_loop {St : Type} (fuel : nat) (cond : Z -> bool) (i : Z)
    (body : Z -> St -> option St) (s : St) : option St :=
  if cond i then
    match fuel with
    | O => None
    | S fuel' =>
        s' ← body i s;
        i' ← int_add i 1;
        for_loop fuel' cond i' body s'
    end
  else Some s.

(** [std::min_element]: the first smallest element under [<]. *)
Definition min_element (l : list double) : option double :=
  match l with
  | [] => None
  | x :: l' =>
      Some (fold_left (fun smallest y => if flt y smallest then y else smallest) l' x)
  end.

(** [std::max_element]: the first largest element under [<]. *)
Definition max_element (l : list double) : option double :=
  match l with
  | [] => None
  | x :: l' =>
      Some (fold_left (fun largest y => if flt largest y then y else largest) l' x)
  end.

(* ================================================================== *)
(** * The program *)
(* ================================================================== *)

Record SimulationParams : Type := {
  S0 : double;         (* initial stock price *)
  mu : double;         (* expected return (annualized) *)
  sigma : double;      (* volatility (annualized) *)
  T : double;          (* time period in years *)
  steps : Z;           (* number of time steps ([int]) *)
  num_paths : Z        (* number of simulation paths ([int]) *)
}.

(** The values [calculateStatistics] computes and prints. *)
Record Statistics : Type := {
  mean : double;
  std_dev : double;
  min_price : double;
  max_price : double;
  percentile_5 : double;
  percentile_95 : double
}.

(** What is inserted into an output stream with [<<], one item per
    insertion. *)
Inductive Token : Type :=
  | TStr (s : string)
  | TInt (n : Z)
  | TDouble (d : double)
  | TEndl.

(** What a run of [main] leaves behind. *)
Record MainResult : Type := {
  exit_code : Z;
  ensemble : list (list double);
  report : Statistics;
  stock_price_paths_csv : list Token;
  time_points_csv : list Token
}.

(** The functions the program takes from the C++ standard library.
    [std_exp] is [std::exp] on [double].  [Gen] is the state of the
    [std::mt19937] engine and [Dist] the state of a
    [std::normal_distribution<double>] object; [dist_init] is the
    distribution as constructed by [dist(0.0, 1.0)] and [dist_call] is
    [dist(gen)], which returns a sample and advances both states.
    [std_sort] is [std::sort] on a vector of [double] with the default
    [<]. *)
Class StdLib : Type := {
  Gen : Type;
  Dist : Type;
  std_exp : double -> double;
  dist_init : Dist;
  dist_call : Dist -> Gen -> double * Dist * Gen;
  std_sort : list double -> list double
}.

Section Program.

Context {L : StdLib}.

(** One iteration of the loop of [generatePath]. *)
Definition gbm_step (drift vol : double) (i : Z)
    (st : list double * Dist * Gen) : option (list double * Dist * Gen) :=
  let '(path, dist, gen) := st in
  let '(z, dist', gen') := dist_call dist gen in
  prev ← vector_get path (i - 1);
  path' ← vector_set path i (fmul prev (std_exp (fadd drift (fmul vol z))));
  Some (path', dist', gen').

Definition generatePath (params : SimulationParams) (gen : Gen)
    : option (list double * Gen) :=
  n ← int_add (steps params) 1;
  path ← vector_new n d_0_0;
  path ← vector_set path 0 (S0 params);
  let dt := fdiv (T params) (double_of_int (steps params)) in
  let drift :=
    fmul (fsub (mu params)
               (fmul (fmul d_0_5 (sigma params)) (sigma params))) dt in
  let vol := fmul (sigma params) (fsqrt dt) in
  st ← for_loop (Z.to_nat (steps params)) (fun i => i <=? steps params) 1
         (gbm_step drift vol) (path, dist_init, gen);
  Some (st.1.1, st.2).

(** [seed] is the engine as constructed by [std::mt19937 gen(rd())]. *)
Definition runMonteCarloSimulation (params : SimulationParams) (seed : Gen)
    : option (list (list double)) :=
  paths ← vector_new (num_paths params) [];
  st ← for_loop (Z.to_nat (num_paths params)) (fun i => i <? num_paths params) 0
         (fun i (st : list (list double) * Gen) =>
            r ← generatePath params st.2;
            paths' ← vector_set st.1 i r.1;
            Some (paths', r.2))
         (paths, seed);
  Some st.1.

Definition calculateStatistics (paths : list (list double))
    (params : SimulationParams) : option Statistics :=
  let num_paths := int_of_size (length paths) in
  let steps := steps params in
  final_prices ← mapM (fun path => vector_get path steps) paths;
  let sum := fold_left (fun sum price => fadd sum price) final_prices d_0_0 in
  let mean := fdiv sum (double_of_int num_paths) in
  let sum_squared_diff :=
    fold_left (fun acc price =>
                 fadd acc (fmul (fsub price mean) (fsub price mean)))
              final_prices d_0_0 in
  let std_dev := fsqrt (fdiv sum_squared_diff (double_of_int num_paths)) in
  min_price ← min_element final_prices;
  max_price ← max_element final_prices;
  let sorted_prices := std_sort final_prices in
  i5 ← percentile_index d_0_05 num_paths;
  percentile_5 ← vector_get sorted_prices i5;
  i95 ← percentile_index d_0_95 num_paths;
  percentile_95 ← vector_get sorted_prices i95;
  Some {| mean := mean; std_dev := std_dev;
          min_price := min_price; max_price := max_price;
          percentile_5 := percentile_5; percentile_95 := percentile_95 |}.

(** [double t = i * (params.T / params.steps)]. *)
Definition time_point (params : SimulationParams) (i : Z) : double :=
  fmul (double_of_int i) (fdiv (T params) (double_of_int (steps params))).

(** The two files, as the sequences of stream insertions that write
    them: [stock_price_paths.csv] and [time_points.csv]. *)
Definition saveResultsToCSV (paths : list (list double))
    (params : SimulationParams) : option (list Token * list Token) :=
  let n := Z.to_nat (steps params + 1) in
  let all_paths_file := [TStr "Path,"] in
  all_paths_file ←
    for_loop n (fun i => i <=? steps params) 0
      (fun i out =>
         let t := time_point params i in
         let out := out ++ [TDouble t] in
         Some (if i <? steps params then out ++ [TStr ","] else out))
      all_paths_file;
  let all_paths_file := all_paths_file ++ [TEndl] in
  all_paths_file ←
    for_loop (Z.to_nat (num_paths params)) (fun i => i <? num_paths params) 0
      (fun i out =>
         i1 ← int_add i 1;
         let out := out ++ [TInt i1; TStr ","] in
         out ← for_loop n (fun j => j <=? steps params) 0
                 (fun j out =>
                    path ← vector_get paths i;
                    price ← vector_get path j;
                    let out := out ++ [TDouble price] in
                    Some (if j <? steps params then out ++ [TStr ","] else out))
                 out;
         Some (out ++ [TEndl]))
      all_paths_file;
  time_file ←
    for_loop n (fun i => i <=? steps params) 0
      (fun i out =>
         let t := time_point params i in
         Some (out ++ [TDouble t; TEndl]))
      [];
  Some (all_paths_file, time_file).

(** [main], from the six values read from standard input on: the
    parameters go to the simulation as they were read.  The HTML page
    written last is a fixed template and is left out. *)
Definition main (input : SimulationParams) (seed : Gen) : option MainResult :=
  let params := input in
  paths ← runMonteCarloSimulation params seed;
  stats ← calculateStatistics paths params;
  files ← saveResultsToCSV paths params;
  Some {| exit_code := 0; ensemble := paths; report := stats;
          stock_price_paths_csv := files.1; time_points_csv := files.2 |}.

(** ** The recurrence the paths are compared with

    [draw_samples k d g] is the sequence of the next [k] samples of the
    source, with the states it is left in; [gbm_path x drift vol zs] is
    the sequence that starts at [x] and multiplies by
    [exp (drift + vol * z)] for each sample [z] in turn. *)
Fixpoint draw_samples (k : nat) (d : Dist) (g : Gen) : list double * Dist * Gen :=
  match k with
  | O => ([], d, g)
  | S k' =>
      let '(z, d', g') := dist_call d g in
      let '(zs, d'', g'') := draw_samples k' d' g' in
      (z :: zs, d'', g'')
  end.

Definition gbm_factor (drift vol z : double) : double :=
  std_exp (fadd drift (fmul vol z)).

Fixpoint gbm_path (x drift vol : double) (zs : list double) : list double :=
  match zs with
  | [] => [x]
  | z :: zs' => x :: gbm_path (fmul x (gbm_factor drift vol z)) drift vol zs'
  end.

(** The closed form [S0 * exp (mu * i * dt)] of the specification. *)
Definition closed_form (params : SimulationParams) (i : Z) : double :=
  let dt := fdiv (T params) (double_of_int (steps params)) in
  fmul (S0 params) (std_exp (fmul (fmul (mu params) (double_of_int i)) dt)).

End Program.

(* ================================================================== *)
(** * A reference library

    The properties below hold for every [std::exp], every random source
    and every [std::sort] that meet the stated contracts.  The instances
    here meet them; they serve to evaluate the program on concrete inputs. *)
(* ================================================================== *)

(** ** An exponential

    [exp_ref] evaluates the series of [exp] in fixed point with 128
    fractional bits after reducing the argument modulo [ln 2], and rounds
    the result to binary64.  The special values are those of the C
    standard (Annex F): [exp(+-0) = 1], [exp(-inf) = +0],
    [exp(+inf) = +inf], [exp(NaN) = NaN]. *)

Definition exp_scale : Z := 2 ^ 128.

(** [ln 2], scaled by [2 ^ 128] and truncated. *)
Definition exp_ln2 : Z := 235865763225513294137944142764154484399.

(** [x * 2 ^ 128], truncated toward zero. *)
Definition fixed_of_double (s : bool) (m : positive) (e : Z) : Z :=
  let v := if 0 <=? e + 128 then Zpos m * 2 ^ (e + 128)
           else Zpos m / 2 ^ (- (e + 128)) in
  if s then - v else v.

(** [acc + r^j/j! + r^(j+1)/(j+1)! + ...], [k] terms, where [term] is
    the previous term [r^(j-1)/(j-1)!]. *)
Fixpoint exp_series (k : nat) (j : Z) (r term acc : Z) : Z :=
  match k with
  | O => acc
  | S k' =>
      let term' := term * r / (j * exp_scale) in
      exp_series k' (j + 1) r term' (acc + term')
  end.

Definition exp_ref (x : double) : double :=
  match x with
  | S754_nan => S754_nan
  | S754_zero _ => d_1_0
  | S754_infinity s => if s then d_0_0 else d_pinf
  | S754_finite s m e =>
      if 11 <=? Zpos (digits2_pos m) + e
      then (if s then d_0_0 else d_pinf)        (* |x| >= 1024 *)
      else
        let X := fixed_of_double s m e in
        let k := X / exp_ln2 in
        let r := X mod exp_ln2 in
        binary_normalize prec64 emax64
          (exp_series 40 1 r exp_scale exp_scale) (k - 128) false
  end.

(** ** A random source

    A linear congruential engine that draws from a table of eight finite
    values; the distribution object has no state of its own. *)

Definition ref_samples : list double :=
  [ S754_finite true 6755399441055744 (-52);     (* -1.5 *)
    S754_finite false 4503599627370496 (-54);    (*  0.25 *)
    S754_zero false;                             (*  0 *)
    S754_finite false 4503599627370496 (-52);    (*  1 *)
    S754_finite true 4503599627370496 (-53);     (* -0.5 *)
    S754_finite false 4503599627370496 (-51);    (*  2 *)
    S754_finite true 4503599627370496 (-55);     (* -0.125 *)
    S754_finite false 6755399441055744 (-53) ].  (*  0.75 *)

Definition ref_dist_call (d : unit) (g : Z) : double * unit * Z :=
  let g' := (g * 1103515245 + 12345) mod 2147483648 in
  (nth (Z.to_nat (g' / 65536 mod 8)) ref_samples d_0_0, d, g').

(** ** A sort

    Merge sort under the order of [<=] on [double], extended so that a
    NaN comes after every other value. *)

Definition sort_le (x y : double) : Prop :=
  is_nan y || (negb (is_nan x) && fle x y) = true.

#[global] Instance sort_le_dec : RelDecision sort_le :=
  fun x y => bool_eq_dec (is_nan y || (negb (is_nan x) && fle x y)) true.

Definition sort_ref (l : list double) : list double := merge_sort sort_le l.

(** The reference library, and the program over it. *)
Definition ref_lib : StdLib :=
  {| Gen := Z; Dist := unit; std_exp := exp_ref;
     dist_init := tt; dist_call := ref_dist_call; std_sort := sort_ref |}.

Definition generatePath_ref := @generatePath ref_lib.
Definition runMonteCarloSimulation_ref := @runMonteCarloSimulation ref_lib.
Definition calculateStatistics_ref := @calculateStatistics ref_lib.
Definition main_ref := @main ref_lib.

(* ================================================================== *)
(** * Concrete inputs *)
(* ================================================================== *)

Definition d_100 : double := S754_finite false 7036874417766400 (-46).
Definition d_0_08 : double := S754_finite false 5764607523034235 (-56).
Definition d_0_1 : double := S754_finite false 7205759403792794 (-56).

(** An ordinary run: S0 = 100, mu = 0.08, sigma = 0.5, T = 1, three steps,
    four paths. *)
Definition p_example : SimulationParams :=
  {| S0 := d_100; mu := d_0_08; sigma := d_0_5; T := d_1_0;
     steps := 3; num_paths := 4 |}.

(** A steep decline: S0 = 100, mu = -1000, sigma = 0, T = 1, one step. *)
Definition p_decline : SimulationParams :=
  {| S0 := d_100; mu := double_of_int (-1000); sigma := d_0_0; T := d_1_0;
     steps := 1; num_paths := 1 |}.

(** Parameters for ensembles of one-element trajectories. *)
Definition p_terminal : SimulationParams :=
  {| S0 := d_100; mu := d_0_08; sigma := d_0_5; T := d_1_0;
     steps := 0; num_paths := 1 |}.

(** A flat run: S0 = 0.1, mu = 0, sigma = 0, T = 1, one step, three
    paths. *)
Definition p_flat : SimulationParams :=
  {| S0 := d_0_1; mu := d_0_0; sigma := d_0_0; T := d_1_0;
     steps := 1; num_paths := 3 |}.

(** Very large volatility and horizon: sigma = 2^600, T = 2^1000. *)
Definition p_huge : SimulationParams :=
  {| S0 := d_100; mu := d_0_08;
     sigma := S754_finite false 4503599627370496 548;
     T := S754_finite false 4503599627370496 948;
     steps := 1; num_paths := 3 |}.

(** [2^-600]. *)
Definition d_tiny : double := S754_finite false 4503599627370496 (-652).

(** An invalid parameter set: S0 = -1. *)
Definition p_negative : SimulationParams :=
  {| S0 := double_of_int (-1); mu := d_0_08; sigma := d_0_5; T := d_1_0;
     steps := 1; num_paths := 1 |}.

(** An invalid parameter set: no time steps. *)
Definition p_no_steps : SimulationParams :=
  {| S0 := d_100; mu := d_0_08; sigma := d_0_5; T := d_1_0;
     steps := 0; num_paths := 2 |}.

(** Deterministic compounding: S0 = 100, mu = 0.08, sigma = 0, T = 1, four
    steps. *)
Definition p_compound : SimulationParams :=
  {| S0 := d_100; mu := d_0_08; sigma := d_0_0; T := d_1_0;
     steps := 4; num_paths := 1 |}.

(** The smallest positive price and a large return: S0 = 2^-1074,
    mu = 709, sigma = 0, T = 2, two steps. *)
Definition p_overflow : SimulationParams :=
  {| S0 := S754_finite false 1 (-1074); mu := double_of_int 709;
     sigma := d_0_0; T := double_of_int 2; steps := 2; num_paths := 1 |}.

(** A collapse: S0 = 100, mu = -2^1023, sigma = 0, T = 2, one step. *)
Definition p_cliff : SimulationParams :=
  {| S0 := d_100; mu := S754_finite true 4503599627370496 971;
     sigma := d_0_0; T := double_of_int 2; steps := 1; num_paths := 1 |}.

(** The scenario of the specification: S0 = 100, mu = 0.08, sigma = 0,
    T = 1, one step, one path. *)
Definition p_scenario : SimulationParams :=
  {| S0 := d_100; mu := d_0_08; sigma := d_0_0; T := d_1_0;
     steps := 1; num_paths := 1 |}.

(** A collapse in two steps: S0 = 100, mu = -1000, sigma = 0, T = 2. *)
Definition p_collapse : SimulationParams :=
  {| S0 := d_100; mu := double_of_int (-1000); sigma := d_0_0;
     T := double_of_int 2; steps := 2; num_paths := 1 |}.

(** The ensemble of the ordinary run, from the engine state 42. *)
Definition ens_example : list (list double) :=
  Eval vm_compute in default [] (runMonteCarloSimulation_ref p_example 42).

(* ================================================================== *)
(** * Vocabulary of the properties *)
(* ================================================================== *)

(** The quantities [generatePath] computes before its loop. *)
Definition time_step (p : SimulationParams) : double :=
  fdiv (T p) (double_of_int (steps p)).
Definition drift_of (p : SimulationParams) : double :=
  fmul (fsub (mu p) (fmul (fmul d_0_5 (sigma p)) (sigma p))) (time_step p).
Definition vol_of (p : SimulationParams) : double :=
  fmul (sigma p) (fsqrt (time_step p)).

(** The parameter sets the specification calls valid. *)
Definition valid_params (p : SimulationParams) : bool :=
  flt d_0_0 (S0 p) && fle d_0_0 (sigma p) && flt d_0_0 (T p)
  && (1 <=? steps p) && (1 <=? num_paths p).

(** [x] is not a negative number: it is positive, a zero or a NaN. *)
Definition not_negative (x : double) : Prop := flt x d_0_0 = false.

(** A nonempty ensemble for [p]: at least one and at most [INT_MAX]
    trajectories, each of [steps + 1] prices. *)
Definition ensemble_for (p : SimulationParams) (paths : list (list double)) : Prop :=
  0 <= steps p /\
  1 <= Z.of_nat (length paths) <= INT_MAX /\
  Forall (fun path => length path = Z.to_nat (steps p + 1)) paths.

(** The terminal values of an ensemble. *)
Definition terminal_values (p : SimulationParams) (paths : list (list double))
    : option (list double) :=
  mapM (fun path => vector_get path (steps p)) paths.

(** The population standard deviation in the words of the specification:
    the square root of the mean of the squared deviations from the mean,
    every mean taken with the number of values as divisor. *)
Definition mean_of (xs : list double) : double :=
  fdiv (fold_left fadd xs d_0_0) (double_of_int (int_of_size (length xs))).

Definition population_std_dev (xs : list double) : double :=
  let m := mean_of xs in
  fsqrt (mean_of (map (fun x => fmul (fsub x m) (fsub x m)) xs)).

(** The sample standard deviation, with divisor [n - 1], for comparison. *)
Definition sample_std_dev (xs : list double) : double :=
  let m := mean_of xs in
  fsqrt (fdiv (fold_left fadd (map (fun x => fmul (fsub x m) (fsub x m)) xs) d_0_0)
              (double_of_int (int_of_size (length xs) - 1))).

(** [x] multiplied [k] times by [f], from the left. *)
Definition compound (x f : double) (k : nat) : double :=
  Nat.iter k (fun v => fmul v f) x.

(** The deterministic trajectory: [x], [x * f], [(x * f) * f], ... with
    [k] multiplications. *)
Fixpoint compound_path (x f : double) (k : nat) : list double :=
  match k with
  | O => [x]
  | S k' => x :: compound_path (fmul x f) f k'
  end.

(** The lines of a file: the insertions between two [std::endl]. *)
Fixpoint token_lines_aux (cur : list Token) (ts : list Token) : list (list Token) :=
  match ts with
  | [] => match cur with [] => [] | _ => [rev cur] end
  | TEndl :: ts' => rev cur :: token_lines_aux [] ts'
  | t :: ts' => token_lines_aux (t :: cur) ts'
  end.

Definition token_lines (ts : list Token) : list (list Token) :=
  token_lines_aux [] ts.

(** The numbers of a line, in order. *)
Definition line_doubles (line : list Token) : list double :=
  omap (fun t => match t with TDouble d => Some d | _ => None end) line.

(** The time points [i * (T / steps)] for [i] from 0 to [steps]. *)
Definition time_points (p : SimulationParams) : list double :=
  (fun i => fmul (double_of_int i) (time_step p)) <$> seqZ 0 (steps p + 1).

(** The state of the shifter of [binary_round_aux] after [j] right shifts
    of the mantissa [P]: the quotient, and the round and sticky bits that
    locate the remainder. *)
Definition shr_inv (P : Z) (j : nat) (r : shr_record) : Prop :=
  0 <= shr_m r /\
  exists t, 0 <= t /\ t < 2 ^ Z.of_nat j /\
    (shr_s r = false <-> t = 0) /\
    2 * P = shr_m r * 2 ^ (Z.of_nat j + 1)
            + (if shr_r r then 2 ^ Z.of_nat j else 0) + t.

(** A cell of the header row of [stock_price_paths.csv], with the comma
    that follows it, and a line of [time_points.csv]. *)
Definition header_cell (p : SimulationParams) (k : Z) : list Token :=
  TDouble (time_point p k) :: (if k <? steps p then [TStr ","] else []).

Definition time_line (p : SimulationParams) (k : Z) : list Token :=
  [TDouble (time_point p k); TEndl].

(** No value of the list is a NaN. *)
Definition no_nan (l : list double) : Prop :=
  Forall (fun x => is_nan x = false) l.

(** Every value of the list is finite. *)
Definition all_finite (l : list double) : Prop :=
  Forall (fun x => is_finite x = true) l.

(** The list is in ascending order under [<=]. *)
Definition ascending (l : list double) : Prop :=
  StronglySorted (fun x y => fle x y = true) l.

(** A rounded result carries the sign it was given and is never a NaN. *)
Definition has_sign (s : bool) (x : double) : Prop :=
  match x with
  | S754_zero s' | S754_infinity s' | S754_finite s' _ _ => s' = s
  | S754_nan => False
  end.


(** ** The ensemble, path by path *)

Section Ensemble.
Context {L : StdLib}.

(** The engine as a call of [generatePath] leaves it: [steps] samples
    further, drawn through a distribution object of the call's own. *)
Definition next_engine (p : SimulationParams) (g : Gen) : Gen :=
  (draw_samples (Z.to_nat (steps p)) dist_init g).2.

(** The trajectory a call of [generatePath] builds from the engine [g]. *)
Definition path_from (p : SimulationParams) (g : Gen) : list double :=
  gbm_path (S0 p) (drift_of p) (vol_of p)
    (draw_samples (Z.to_nat (steps p)) dist_init g).1.1.

(** [n] trajectories in a row, each from the engine the one before left. *)
Definition ensemble_from (p : SimulationParams) (n : nat) (seed : Gen)
    : list (list double) :=
  (fun k => path_from p (Nat.iter k (next_engine p) seed)) <$> seq 0 n.

End Ensemble.

(** A cell of a path row of [stock_price_paths.csv], with the comma that
    follows it; the row of the path of index [i]; and the rows of an
    ensemble. *)
Definition price_cell (p : SimulationParams) (j : nat) (x : double) : list Token :=
  TDouble x :: (if Z.of_nat j <? steps p then [TStr ","] else []).

Definition csv_row (p : SimulationParams) (i : nat) (path : list double)
    : list Token :=
  TInt (Z.of_nat i + 1) :: TStr ","
    :: concat (imap (price_cell p) (take (Z.to_nat (steps p + 1)) path)).

Definition csv_rows (p : SimulationParams) (paths : list (list double))
    : list (list Token) :=
  imap (csv_row p) (take (Z.to_nat (num_paths p)) paths).

(** The paths the export reads: the first [num_paths] of the ensemble,
    each with an element at every index up to [steps]. *)
Definition exportable (p : SimulationParams) (paths : list (list double)) : Prop :=
  forall i : nat, Z.of_nat i < num_paths p ->
    exists path, paths !! i = Some path /\ steps p < Z.of_nat (length path).

(* ================================================================== *)
(** * Tactics *)
(* ================================================================== *)

(** Case analysis on the comparisons of exponents and mantissas that
    [SFcompare] makes. *)
Ltac compare_cases :=
  repeat match goal with
  | H : context [Z.compare ?a ?b] |- _ => destruct (Z.compare_spec a b)
  | |- context [Z.compare ?a ?b] => destruct (Z.compare_spec a b)
  | H : context [Pos.compare_cont Eq ?a ?b] |- _ =>
      change (Pos.compare_cont Eq a b) with (Pos.compare a b) in *;
      destruct (Pos.compare_spec a b)
  | |- context [Pos.compare_cont Eq ?a ?b] =>
      change (Pos.compare_cont Eq a b) with (Pos.compare a b) in *;
      destruct (Pos.compare_spec a b)
  end.

Ltac order_cases :=
  unfold fle, flt, SFleb, SFltb, SFcompare in *;
  compare_cases; cbn in *; subst;
  try reflexivity; try discriminate; try lia; try congruence.

(* ================================================================== *)
(** * The literals *)
(* ================================================================== *)

(** The constants above are the binary64 values the decimal literals of
    the program and of the examples denote, as the kernel's primitive
    floats read them. *)
Module Literals.
Import PrimFloat.

#[warnings="-inexact-float"]
Example literals_of_the_program :
  FloatOps.Prim2SF 0.0%float = d_0_0 /\
  FloatOps.Prim2SF 1.0%float = d_1_0 /\
  FloatOps.Prim2SF 0.5%float = d_0_5 /\
  FloatOps.Prim2SF 0.05%float = d_0_05 /\
  FloatOps.Prim2SF 0.95%float = d_0_95.
Proof. repeat split; reflexivity. Qed.

#[warnings="-inexact-float"]
Example literals_of_the_examples :
  FloatOps.Prim2SF 100%float = d_100 /\
  FloatOps.Prim2SF 0.08%float = d_0_08 /\
  FloatOps.Prim2SF 0.1%float = d_0_1.
Proof. repeat split; reflexivity. Qed.

End Literals.

(* ================================================================== *)
(** * Rounding to nearest in binary64 *)
(* ================================================================== *)
Lemma iter_pos_nat {A} (f : A -> A) p x :
  SpecFloat.iter_pos f p x = Nat.iter (Pos.to_nat p) f x.
Proof.
  revert x. induction p as [p IH|p IH|]; intros x; cbn [SpecFloat.iter_pos].
  - rewrite !IH, Pos2Nat.inj_xI, Nat.iter_succ_r, <- Nat.iter_add.
    f_equal. lia.
  - rewrite !IH, Pos2Nat.inj_xO, <- Nat.iter_add. f_equal. lia.
  - reflexivity.
Qed.

Lemma shr_inv_0 P : 0 <= P -> shr_inv P 0 (Build_shr_record P false false).
Proof.
  intros HP. split; [exact HP|]. exists 0. simpl. repeat split; lia.
Qed.

Lemma shr_1_div2 m r s :
  0 <= m ->
  exists m', 0 <= m' /\ m = 2 * m' + (if shr_r (shr_1 (Build_shr_record m r s)) then 1 else 0)
   /\ shr_m (shr_1 (Build_shr_record m r s)) = m'
   /\ shr_s (shr_1 (Build_shr_record m r s)) = orb r s.
Proof.
  intros Hm. destruct m as [|[p|p|]|p]; simpl; try lia.
  - exists 0. repeat split; lia.
  - exists (Zpos p). repeat split; lia.
  - exists (Zpos p). repeat split; lia.
  - exists 0. repeat split; lia.
Qed.

Lemma shr_1_inv P j r : shr_inv P j r -> shr_inv P (S j) (shr_1 r).
Proof.
  intros [Hm (t & Ht0 & Ht & Hs & HP)].
  destruct r as [m rb sb]. cbn [shr_m shr_r shr_s] in *.
  destruct (shr_1_div2 m rb sb Hm) as (m' & Hm' & Hmm & Hq & Hss).
  assert (Hpow : 2 ^ (Z.of_nat (S j)) = 2 * 2 ^ Z.of_nat j).
  { rewrite Nat2Z.inj_succ, Z.pow_succ_r by lia. reflexivity. }
  assert (Hpow1 : 2 ^ (Z.of_nat j + 1) = 2 * 2 ^ Z.of_nat j).
  { rewrite Z.pow_add_r by lia. lia. }
  assert (Hpow2 : 2 ^ (Z.of_nat (S j) + 1) = 4 * 2 ^ Z.of_nat j).
  { rewrite Z.pow_add_r, Hpow by lia. lia. }
  assert (Hg : 0 < 2 ^ Z.of_nat j) by (apply Z.pow_pos_nonneg; lia).
  split; [rewrite Hq; exact Hm'|].
  exists ((if rb then 2 ^ Z.of_nat j else 0) + t).
  rewrite Hq, Hss, Hpow, Hpow2. rewrite Hpow1 in HP.
  split; [destruct rb; lia|].
  split; [destruct rb; lia|].
  split.
  - split.
    + intros Hor. apply orb_false_iff in Hor as [-> ->].
      destruct Hs as [Hs _]. specialize (Hs eq_refl). lia.
    + intros Hz. destruct rb; [lia|]. assert (Ht1 : t = 0) by lia.
      destruct Hs as [_ Hs]. rewrite (Hs Ht1). reflexivity.
  - destruct (shr_r (shr_1 {| shr_m := m; shr_r := rb; shr_s := sb |})); destruct rb; nia.
Qed.

Lemma shr_iter_inv P j :
  0 <= P -> shr_inv P j (Nat.iter j shr_1 (Build_shr_record P false false)).
Proof.
  intros HP. induction j as [|j IH]; [apply shr_inv_0; exact HP|].
  simpl. apply shr_1_inv, IH.
Qed.

(** Rounding the shifted mantissa to nearest: the result is within half a
    unit of the last kept place. *)
Lemma round_nearest_even_shr P j r :
  shr_inv P j r ->
  let m1 := round_nearest_even (shr_m r) (loc_of_shr_record r) in
  (m1 = shr_m r \/ m1 = shr_m r + 1) /\
  2 * Z.abs (m1 * 2 ^ Z.of_nat j - P) <= 2 ^ Z.of_nat j.
Proof.
  intros [Hm (t & Ht0 & Ht & Hs & HP)].
  destruct r as [m rb sb]. cbn [shr_m shr_r shr_s] in *.
  assert (Hpow1 : 2 ^ (Z.of_nat j + 1) = 2 * 2 ^ Z.of_nat j).
  { rewrite Z.pow_add_r by lia. lia. }
  rewrite Hpow1 in HP.
  assert (Hg : 0 < 2 ^ Z.of_nat j) by (apply Z.pow_pos_nonneg; lia).
  destruct rb, sb; simpl.
  - split; [right; reflexivity|]. 
    assert (t <> 0) by (intros ->; destruct Hs as [_ Hs]; specialize (Hs eq_refl); discriminate).
    lia.
  - assert (t = 0) by (apply Hs; reflexivity). subst t.
    destruct (Z.even m); split; auto; lia.
  - split; [left; reflexivity|]. lia.
  - assert (t = 0) by (apply Hs; reflexivity). subst t.
    split; [left; reflexivity|]. lia.
Qed.

Lemma digits2_pos_bounds p :
  2 ^ (Zpos (digits2_pos p) - 1) <= Zpos p < 2 ^ Zpos (digits2_pos p).
Proof.
  induction p as [p IH|p IH|]; cbn [digits2_pos].
  - rewrite Pos2Z.inj_succ.
    replace (Z.succ (Zpos (digits2_pos p)) - 1) with (Z.succ (Zpos (digits2_pos p) - 1)) by lia.
    rewrite !Z.pow_succ_r by lia. lia.
  - rewrite Pos2Z.inj_succ.
    replace (Z.succ (Zpos (digits2_pos p)) - 1) with (Z.succ (Zpos (digits2_pos p) - 1)) by lia.
    rewrite !Z.pow_succ_r by lia. lia.
  - simpl. lia.
Qed.

Lemma digits2_pos_unique p d :
  2 ^ (d - 1) <= Zpos p < 2 ^ d -> Zpos (digits2_pos p) = d.
Proof.
  intros [Hlo Hhi]. pose proof (digits2_pos_bounds p) as [Hlo' Hhi'].
  assert (0 < d).
  { destruct (Z.lt_trichotomy d 0) as [Hd|[Hd|Hd]]; [|subst d; simpl in Hhi; lia|lia].
    rewrite Z.pow_neg_r in Hhi by lia. lia. }
  destruct (Z.lt_trichotomy (Zpos (digits2_pos p)) d) as [Hlt|[Heq|Hgt]]; [|exact Heq|].
  - assert (2 ^ Zpos (digits2_pos p) <= 2 ^ (d - 1)) by (apply Z.pow_le_mono_r; lia). lia.
  - assert (2 ^ d <= 2 ^ (Zpos (digits2_pos p) - 1)) by (apply Z.pow_le_mono_r; lia). lia.
Qed.

Lemma shr_nat mrs e n :
  0 <= n -> shr mrs e n = (Nat.iter (Z.to_nat n) shr_1 mrs, e + n).
Proof.
  intros Hn. destruct n as [|p|p]; [|cbn [shr]|lia].
  - simpl. rewrite Z.add_0_r. reflexivity.
  - rewrite iter_pos_nat. reflexivity.
Qed.

Lemma fexp64_normal x : -1021 <= x -> fexp prec64 emax64 x = x - 53.
Proof. intros Hx. unfold fexp, emin, prec64, emax64. lia. Qed.

(** Rounding a positive mantissa of [53 + j] bits in the normal range: the
    result is the float [m1 * 2 ^ (e + j)] for the integer [m1] nearest to
    [P / 2 ^ j], renormalised when [m1] reaches [2 ^ 53]. *)
Lemma binary_round_aux_normal s (P : positive) (e j : Z) :
  Zpos (digits2_pos P) = 53 + j -> 0 <= j ->
  -1074 <= e + j -> e + j < 971 ->
  exists m1 : Z,
    2 * Z.abs (m1 * 2 ^ j - Zpos P) <= 2 ^ j /\
    2 ^ 52 <= m1 <= 2 ^ 53 /\
    ((m1 < 2 ^ 53 /\
      binary_round_aux prec64 emax64 s (Zpos P) e loc_Exact
      = S754_finite s (Z.to_pos m1) (e + j)) \/
     (m1 = 2 ^ 53 /\
      binary_round_aux prec64 emax64 s (Zpos P) e loc_Exact
      = S754_finite s (Z.to_pos (2 ^ 52)) (e + j + 1))).
Proof.
  intros Hd Hj Hlo Hhi.
  pose proof (digits2_pos_bounds P) as HP. rewrite Hd in HP.
  replace (53 + j - 1) with (52 + j) in HP by lia.
  rewrite !Z.pow_add_r in HP by lia.
  assert (HG : 0 < 2 ^ j) by (apply Z.pow_pos_nonneg; lia).
  unfold binary_round_aux, shr_fexp. cbn [Zdigits2 shr_record_of_loc].
  rewrite Hd, fexp64_normal by lia.
  replace (53 + j + e - 53 - e) with j by lia.
  rewrite shr_nat by lia.
  pose proof (shr_iter_inv (Zpos P) (Z.to_nat j) ltac:(lia)) as Hinv.
  set (r := Nat.iter (Z.to_nat j) shr_1 _) in *.
  pose proof (round_nearest_even_shr _ _ _ Hinv) as [_ Hnear].
  rewrite Z2Nat.id in Hnear by lia.
  set (m1 := round_nearest_even (shr_m r) (loc_of_shr_record r)) in *.
  assert (Hm1 : 2 ^ 52 <= m1 <= 2 ^ 53) by nia.
  exists m1. split; [exact Hnear|]. split; [exact Hm1|].
  destruct (Z.eq_dec m1 (2 ^ 53)) as [Heq|Hne].
  - right. split; [exact Heq|]. rewrite Heq.
    change (Zdigits2 (2 ^ 53)) with 54.
    rewrite fexp64_normal by lia.
    replace (54 + (e + j) - 53 - (e + j)) with 1 by lia.
    cbn [shr SpecFloat.iter_pos]. simpl shr_m.
    replace (e + j + 1 <=? emax64 - prec64) with true
      by (symmetry; apply Z.leb_le; unfold emax64, prec64; lia).
    reflexivity.
  - left. split; [lia|].
    destruct m1 as [|q|q]; try lia.
    assert (Hdq : Zpos (digits2_pos q) = 53) by (apply digits2_pos_unique; lia).
    cbn [Zdigits2]. rewrite Hdq, fexp64_normal by lia.
    replace (53 + (e + j) - 53 - (e + j)) with 0 by lia.
    cbn [shr shr_m].
    replace (e + j <=? emax64 - prec64) with true
      by (symmetry; apply Z.leb_le; unfold emax64, prec64; lia).
    reflexivity.
Qed.

Lemma pos_iter_xO p k : Zpos (Pos.iter xO p k) = Zpos p * 2 ^ Zpos k.
Proof.
  induction k as [|k IH] using Pos.peano_ind.
  - simpl. lia.
  - rewrite Pos.iter_succ, Pos2Z.inj_succ, Z.pow_succ_r by lia.
    rewrite Pos2Z.inj_xO, IH. lia.
Qed.

(** An [int] is converted without rounding: the mantissa is the integer
    shifted left to 53 bits. *)
Lemma double_of_int_pos (n : positive) :
  Zpos n <= INT_MAX ->
  let d := Zpos (digits2_pos n) in
  double_of_int (Zpos n) = S754_finite false (Z.to_pos (Zpos n * 2 ^ (53 - d))) (d - 53).
Proof.
  intros Hn d.
  pose proof (digits2_pos_bounds n) as Hb. fold d in Hb.
  assert (Hd : 1 <= d <= 31).
  { split; [unfold d; lia|].
    destruct (Z_le_gt_dec d 31) as [|Hgt]; [assumption|].
    assert (2 ^ 31 <= 2 ^ (d - 1)) by (apply Z.pow_le_mono_r; lia).
    unfold INT_MAX in Hn. lia. }
  unfold double_of_int, binary_normalize, binary_round.
  rewrite Z.add_0_r. fold d. rewrite fexp64_normal by lia.
  unfold shl_align. rewrite Z.sub_0_r.
  destruct (d - 53) as [|k|k] eqn:Hk; try lia.
  assert (Hmz : Zpos (Pos.iter xO n k) = Zpos n * 2 ^ (53 - d)).
  { rewrite pos_iter_xO. f_equal. f_equal. lia. }
  assert (H53 : 2 ^ (53 - d) * 2 ^ (d - 1) = 2 ^ 52).
  { rewrite <- Z.pow_add_r by lia. f_equal. lia. }
  assert (H53' : 2 ^ (53 - d) * 2 ^ d = 2 ^ 53).
  { rewrite <- Z.pow_add_r by lia. f_equal. lia. }
  assert (HA : 0 < 2 ^ (53 - d)) by (apply Z.pow_pos_nonneg; lia).
  assert (Hdig : Zpos (digits2_pos (Pos.iter xO n k)) = 53 + 0).
  { apply digits2_pos_unique. rewrite Hmz. nia. }
  destruct (binary_round_aux_normal false (Pos.iter xO n k) (Z.neg k) 0 Hdig)
    as (m1 & Hnear & Hm1 & [[Hlt Heq]|[Heq _]]); try lia.
  - rewrite Z.pow_0_r in Hnear. assert (m1 = Zpos (Pos.iter xO n k)) by lia. subst m1.
    rewrite Heq. rewrite Hmz. f_equal; lia.
  - rewrite Z.pow_0_r in Hnear. rewrite Hmz in Hnear. nia.
Qed.

(** The truncation of a positive float given by an integer mantissa [m1]
    and a negative exponent [e1], in either of its two normal forms. *)
Lemma int_of_double_trunc (m2 : positive) (e2 m1 e1 : Z) :
  e1 <= 0 -> e1 <= e2 -> Zpos m2 * 2 ^ (e2 - e1) = m1 ->
  in_int_range (m1 / 2 ^ (- e1)) = true ->
  int_of_double (S754_finite false m2 e2) = Some (m1 / 2 ^ (- e1)).
Proof.
  intros He1 He Hm Hr. unfold int_of_double.
  assert (Hv : (if 0 <=? e2 then Zpos m2 * 2 ^ e2 else Zpos m2 / 2 ^ (- e2))
               = m1 / 2 ^ (- e1)).
  { subst m1. destruct (Z.leb_spec 0 e2) as [H0|H0].
    - replace (e2 - e1) with (e2 + - e1) by lia.
      rewrite Z.pow_add_r, Z.mul_assoc by lia.
      rewrite Z.div_mul; [reflexivity|]. apply Z.pow_nonzero; lia.
    - replace (- e1) with ((e2 - e1) + - e2) by lia.
      rewrite (Z.pow_add_r 2 (e2 - e1) (- e2)) by lia.
      rewrite (Z.mul_comm (2 ^ (e2 - e1))).
      rewrite Z.div_mul_cancel_r; [reflexivity| |]; apply Z.pow_nonzero; lia. }
  rewrite Hv, Hr. reflexivity.
Qed.

(** [static_cast<int>(c * n)] for a positive constant [c = Mc * 2 ^ ec] and
    a positive [int] [n]: the product is rounded to nearest, then
    truncated.  [q] is the result as soon as the exact product lies in
    [[q, q + 1)] with half a unit of the rounded mantissa to spare. *)
Lemma fmul_const_int_index (Mc : positive) (ec n q : Z) :
  Zpos (digits2_pos Mc) = 53 -> -57 <= ec <= -53 ->
  1 <= n <= INT_MAX -> 0 <= q <= INT_MAX ->
  (forall A G : Z,
      2 ^ 22 <= A -> 2 ^ 52 <= n * A < 2 ^ 53 ->
      G = 2 ^ 52 \/ G = 2 ^ 53 ->
      2 ^ 52 * G <= Zpos Mc * (n * A) < 2 ^ 53 * G ->
      2 * q * (A * 2 ^ (- ec)) < 2 * (Zpos Mc * (n * A)) + G /\
      2 * (Zpos Mc * (n * A)) + G < 2 * (q + 1) * (A * 2 ^ (- ec))) ->
  int_of_double (fmul (S754_finite false Mc ec) (double_of_int n)) = Some q.
Proof.
  intros HMc Hec Hn Hq Harith.
  destruct n as [|np|np]; try lia.
  pose proof (double_of_int_pos np ltac:(lia)) as Hconv. cbv zeta in Hconv.
  pose proof (digits2_pos_bounds np) as Hb.
  set (d := Zpos (digits2_pos np)) in *.
  assert (Hd : 1 <= d <= 31).
  { split; [unfold d; lia|].
    destruct (Z_le_gt_dec d 31) as [|Hgt]; [assumption|].
    assert (2 ^ 31 <= 2 ^ (d - 1)) by (apply Z.pow_le_mono_r; lia).
    unfold INT_MAX in Hn. lia. }
  set (A := 2 ^ (53 - d)) in *.
  assert (HA : 2 ^ 22 <= A) by (apply Z.pow_le_mono_r; lia).
  assert (HnA : 2 ^ 52 <= Zpos np * A < 2 ^ 53).
  { assert (H1 : A * 2 ^ (d - 1) = 2 ^ 52)
      by (unfold A; rewrite <- Z.pow_add_r by lia; f_equal; lia).
    assert (H2 : A * 2 ^ d = 2 ^ 53)
      by (unfold A; rewrite <- Z.pow_add_r by lia; f_equal; lia).
    nia. }
  pose proof (digits2_pos_bounds Mc) as HbM. rewrite HMc in HbM.
  change (2 ^ (53 - 1)) with (2 ^ 52) in HbM.
  rewrite Hconv. unfold fmul. cbn [SFmul xorb].
  set (mn := Z.to_pos (Zpos np * A)).
  assert (Hmn : Zpos mn = Zpos np * A) by (unfold mn; rewrite Z2Pos.id; lia).
  set (P := (Mc * mn)%positive).
  assert (HP : Zpos P = Zpos Mc * (Zpos np * A)) by (unfold P; rewrite Pos2Z.inj_mul, Hmn; reflexivity).
  assert (HPb : 2 ^ 104 <= Zpos P < 2 ^ 106).
  { change (2 ^ 104) with (2 ^ 52 * 2 ^ 52). change (2 ^ 106) with (2 ^ 53 * 2 ^ 53).
    rewrite HP. nia. }
  pose proof (digits2_pos_bounds P) as HbP.
  set (j := Zpos (digits2_pos P) - 53).
  assert (Hj : j = 52 \/ j = 53).
  { destruct (Z_le_gt_dec j 51) as [Hl|Hg].
    - assert (2 ^ Zpos (digits2_pos P) <= 2 ^ 104) by (apply Z.pow_le_mono_r; lia). lia.
    - destruct (Z_le_gt_dec j 53) as [Hl'|Hg']; [lia|].
      assert (2 ^ 106 <= 2 ^ (Zpos (digits2_pos P) - 1)) by (apply Z.pow_le_mono_r; lia). lia. }
  assert (HdP : Zpos (digits2_pos P) = 53 + j) by (unfold j; lia).
  rewrite HdP in HbP. replace (53 + j - 1) with (52 + j) in HbP by lia.
  rewrite !Z.pow_add_r in HbP by lia.
  set (G := 2 ^ j) in *.
  assert (HG : G = 2 ^ 52 \/ G = 2 ^ 53) by (unfold G; destruct Hj as [-> | ->]; auto).
  specialize (Harith A G HA HnA HG ltac:(rewrite <- HP; lia)).
  rewrite <- HP in Harith. destruct Harith as [Hlow Hupp].
  set (e1 := ec + (d - 53) + j).
  assert (He1 : -57 <= e1 <= -22) by (unfold e1; lia).
  set (K := 2 ^ (- e1)).
  assert (HK : 0 < K) by (apply Z.pow_pos_nonneg; lia).
  assert (HKG : K * G = A * 2 ^ (- ec)).
  { unfold K, G, A. rewrite <- !Z.pow_add_r by lia. f_equal. unfold e1. lia. }
  assert (HGpos : 0 < G) by (destruct HG as [-> | ->]; lia).
  destruct (binary_round_aux_normal false P (ec + (d - 53)) j HdP)
    as (m1 & Hnear & Hm1 & Hres); try lia.
  fold G in Hnear. fold e1 in Hres.
  assert (Hdiv : m1 / K = q).
  { symmetry. apply (Z.div_unique m1 K q (m1 - K * q)); [|lia].
    left. rewrite <- HKG in Hlow, Hupp. nia. }
  assert (Hrange : in_int_range (m1 / 2 ^ (- e1)) = true).
  { fold K. rewrite Hdiv. unfold in_int_range, INT_MIN, INT_MAX in *.
    apply andb_true_intro; split; apply Z.leb_le; lia. }
  destruct Hres as [[Hlt ->]|[Heq ->]].
  - rewrite (int_of_double_trunc _ e1 m1 e1); try lia.
    + fold K. rewrite Hdiv. reflexivity.
    + rewrite Z.sub_diag, Z.pow_0_r, Z2Pos.id; lia.
    + exact Hrange.
  - rewrite (int_of_double_trunc _ (e1 + 1) m1 e1); try lia.
    + fold K. rewrite Hdiv. reflexivity.
    + rewrite Heq. replace (e1 + 1 - e1) with 1 by lia. reflexivity.
    + exact Hrange.
Qed.

Lemma index_0_05 n :
  1 <= n <= INT_MAX ->
  int_of_double (fmul d_0_05 (double_of_int n)) = Some (5 * n / 100).
Proof.
  intros Hn. unfold d_0_05.
  assert (Hq : 5 * n / 100 = n / 20).
  { replace (5 * n) with (n * 5) by lia. change 100 with (20 * 5).
    rewrite Z.div_mul_cancel_r; lia. }
  rewrite Hq.
  pose proof (Z.div_mod n 20 ltac:(lia)) as Hdm.
  pose proof (Z.mod_pos_bound n 20 ltac:(lia)) as Hmod.
  assert (Hr : 0 <= n / 20 <= INT_MAX).
  { unfold INT_MAX in *. lia. }
  apply fmul_const_int_index; [reflexivity|lia|exact Hn|exact Hr|].
  unfold INT_MAX in *.
  intros A G HA HnA HG HP.
  change (2 ^ (- -57)) with 144115188075855872.
  change (2 ^ 22) with 4194304 in HA.
  change (2 ^ 53) with 9007199254740992 in *.
  change (2 ^ 52) with 4503599627370496 in *.
  split; nia.
Qed.

Lemma index_0_95 n :
  1 <= n <= INT_MAX ->
  int_of_double (fmul d_0_95 (double_of_int n)) = Some (95 * n / 100).
Proof.
  intros Hn. unfold d_0_95.
  assert (Hq : 95 * n / 100 = 19 * n / 20).
  { replace (95 * n) with ((19 * n) * 5) by lia. change 100 with (20 * 5).
    rewrite Z.div_mul_cancel_r; lia. }
  rewrite Hq.
  pose proof (Z.div_mod (19 * n) 20 ltac:(lia)) as Hdm.
  pose proof (Z.mod_pos_bound (19 * n) 20 ltac:(lia)) as Hmod.
  assert (Hr : 0 <= 19 * n / 20 <= INT_MAX).
  { unfold INT_MAX in *. lia. }
  apply fmul_const_int_index; [reflexivity|lia|exact Hn|exact Hr|].
  unfold INT_MAX in *.
  intros A G HA HnA HG HP.
  change (2 ^ (- -53)) with 9007199254740992.
  change (2 ^ 22) with 4194304 in HA.
  change (2 ^ 53) with 9007199254740992 in *.
  change (2 ^ 52) with 4503599627370496 in *.
  split; nia.
Qed.

(* ================================================================== *)
(** * Vectors and loops *)
(* ================================================================== *)

Lemma int_add_Some a b :
  INT_MIN <= a + b <= INT_MAX -> int_add a b = Some (a + b).
Proof.
  intros H. unfold int_add, in_int_range.
  replace (INT_MIN <=? a + b) with true by (symmetry; apply Z.leb_le; lia).
  replace (a + b <=? INT_MAX) with true by (symmetry; apply Z.leb_le; lia).
  reflexivity.
Qed.

Lemma vector_get_nat {A} (v : list A) (i : nat) :
  vector_get v (Z.of_nat i) = v !! i.
Proof.
  unfold vector_get.
  replace (0 <=? Z.of_nat i) with true by (symmetry; apply Z.leb_le; lia).
  rewrite Nat2Z.id. reflexivity.
Qed.

Lemma vector_set_nat {A} (v : list A) (i : nat) (x : A) :
  (i < length v)%nat -> vector_set v (Z.of_nat i) x = Some (<[i := x]> v).
Proof.
  intros Hi. unfold vector_set.
  replace (0 <=? Z.of_nat i) with true by (symmetry; apply Z.leb_le; lia).
  replace (Z.of_nat i <? Z.of_nat (length v)) with true
    by (symmetry; apply Z.ltb_lt; lia).
  rewrite Nat2Z.id. reflexivity.
Qed.

(** The rule of the counted loop: an invariant that holds on entry and is
    kept by every iteration holds on exit, and the loop does exit. *)
Lemma for_loop_invariant {St : Type} (Inv : Z -> St -> Prop)
    (cond : Z -> bool) (body : Z -> St -> option St) (k : nat) (lo hi : Z) (s : St) :
  hi = lo + Z.of_nat k -> INT_MIN <= lo -> hi <= INT_MAX ->
  (forall i, lo <= i < hi -> cond i = true) -> cond hi = false ->
  Inv lo s ->
  (forall i s, lo <= i < hi -> Inv i s ->
     exists s', body i s = Some s' /\ Inv (i + 1) s') ->
  exists s', for_loop k cond lo body s = Some s' /\ Inv hi s'.
Proof.
  revert lo s. induction k as [|k IH]; intros lo s Hhi Hlo Hmax Hc Hend Hinv Hbody.
  - assert (E : hi = lo) by lia. clear Hhi. subst hi. simpl. rewrite Hend. eauto.
  - cbn [for_loop]. rewrite Hc by lia.
    destruct (Hbody lo s ltac:(lia) Hinv) as (s1 & -> & Hinv1).
    cbn [mbind option_bind]. rewrite int_add_Some by lia. cbn [mbind option_bind].
    apply IH; try lia; auto.
    + intros i Hi. apply Hc. lia.
    + intros i s2 Hi. apply Hbody. lia.
Qed.

Section Paths.
Context {L : StdLib}.

Lemma draw_samples_length k d g : length (draw_samples k d g).1.1 = k.
Proof.
  revert d g. induction k as [|k IH]; intros d g; [reflexivity|].
  simpl.
  destruct (dist_call d g) as [[z d'] g'].
  specialize (IH d' g'). destruct (draw_samples k d' g') as [[zs d''] g''].
  simpl in *. lia.
Qed.

Lemma gbm_path_length x drift vol zs :
  length (gbm_path x drift vol zs) = S (length zs).
Proof.
  revert x. induction zs as [|z zs IH]; intros x; simpl; [reflexivity|].
  rewrite IH. reflexivity.
Qed.

Lemma gbm_step_eq drift vol i path d g :
  gbm_step drift vol i (path, d, g)
  = (prev ← vector_get path (i - 1);
     path' ← vector_set path i
               (fmul prev (gbm_factor drift vol (dist_call d g).1.1));
     Some (path', (dist_call d g).1.2, (dist_call d g).2)).
Proof.
  unfold gbm_step, gbm_factor. destruct (dist_call d g) as [[z d'] g'].
  reflexivity.
Qed.

Lemma draw_samples_S k d g :
  draw_samples (S k) d g
  = ((dist_call d g).1.1
       :: (draw_samples k (dist_call d g).1.2 (dist_call d g).2).1.1,
     (draw_samples k (dist_call d g).1.2 (dist_call d g).2).1.2,
     (draw_samples k (dist_call d g).1.2 (dist_call d g).2).2).
Proof.
  cbn [draw_samples]. destruct (dist_call d g) as [[z d'] g']. cbn [fst snd].
  destruct (draw_samples k d' g') as [[zs d''] g'']. reflexivity.
Qed.

(** The loop of [generatePath], started at index [i] with the prices up
    to [i - 1] computed, fills the rest of the vector with the
    recurrence, drawing one sample per step. *)
Lemma gbm_loop k : forall (pre : list double) (x drift vol : double) (i hi : Z) d g,
  i = Z.of_nat (length pre) + 1 -> hi + 1 = i + Z.of_nat k -> hi < INT_MAX ->
  for_loop k (fun i => i <=? hi) i (gbm_step drift vol)
    (pre ++ x :: replicate k d_0_0, d, g)
  = Some (pre ++ gbm_path x drift vol (draw_samples k d g).1.1,
          (draw_samples k d g).1.2, (draw_samples k d g).2).
Proof.
  induction k as [|k IH]; intros pre x drift vol i hi d g Hi Hhi Hmax.
  - cbn [for_loop]. replace (i <=? hi) with false by (symmetry; apply Z.leb_gt; lia).
    reflexivity.
  - cbn [for_loop]. replace (i <=? hi) with true by (symmetry; apply Z.leb_le; lia).
    rewrite gbm_step_eq, draw_samples_S. cbn [fst snd gbm_path].
    replace (i - 1) with (Z.of_nat (length pre)) by lia.
    rewrite vector_get_nat, list_lookup_middle by reflexivity.
    cbn [mbind option_bind].
    replace i with (Z.of_nat (length pre + 1)) at 1 by lia.
    rewrite vector_set_nat by (rewrite length_app; simpl; lia).
    cbn [mbind option_bind].
    rewrite int_add_Some by (unfold INT_MIN, INT_MAX in *; lia).
    cbn [mbind option_bind].
    rewrite insert_app_r_alt by lia.
    replace (length pre + 1 - length pre)%nat with 1%nat by lia.
    cbn [insert list_insert replicate].
    specialize (IH (pre ++ [x])
                   (fmul x (gbm_factor drift vol (dist_call d g).1.1))
                   drift vol (i + 1) hi (dist_call d g).1.2 (dist_call d g).2).
    rewrite <- app_assoc in IH. cbn [app] in IH.
    rewrite IH; [|rewrite length_app; simpl; lia|lia|lia].
    rewrite <- app_assoc. reflexivity.
Qed.

(** [generatePath] returns the recurrence over the next [steps] samples
    and leaves the engine after them. *)
Lemma generatePath_eq (p : SimulationParams) (gen : Gen) :
  0 <= steps p < INT_MAX ->
  generatePath p gen
  = Some (gbm_path (S0 p) (drift_of p) (vol_of p)
            (draw_samples (Z.to_nat (steps p)) dist_init gen).1.1,
          (draw_samples (Z.to_nat (steps p)) dist_init gen).2).
Proof.
  intros Hs. unfold generatePath.
  rewrite int_add_Some by (unfold INT_MIN, INT_MAX in *; lia). cbn [mbind option_bind].
  unfold vector_new.
  replace (0 <=? steps p + 1) with true by (symmetry; apply Z.leb_le; lia).
  cbn [mbind option_bind].
  replace (Z.to_nat (steps p + 1)) with (S (Z.to_nat (steps p))) by lia.
  change 0 with (Z.of_nat 0) at 1.
  rewrite vector_set_nat by (simpl; lia). cbn [mbind option_bind insert list_insert replicate].
  fold (time_step p). fold (drift_of p). fold (vol_of p).
  pose proof (gbm_loop (Z.to_nat (steps p)) [] (S0 p) (drift_of p) (vol_of p)
                1 (steps p) dist_init gen) as Hloop.
  cbn [app length] in Hloop. rewrite Hloop by lia.
  reflexivity.
Qed.

End Paths.

(* ================================================================== *)
(** * Signs of the results of binary64 operations *)
(* ================================================================== *)

Lemma shr_1_nonneg r : 0 <= shr_m r -> 0 <= shr_m (shr_1 r).
Proof.
  destruct r as [m rb sb]. cbn [shr_m]. intros Hm.
  destruct (shr_1_div2 m rb sb Hm) as (m' & Hm' & _ & -> & _). exact Hm'.
Qed.

Lemma shr_nonneg r e n : 0 <= shr_m r -> 0 <= shr_m (shr r e n).1.
Proof.
  intros Hm. destruct n as [|q|q]; cbn [shr fst]; try exact Hm.
  rewrite iter_pos_nat. induction (Pos.to_nat q) as [|k IH]; [exact Hm|].
  cbn [Nat.iter]. apply shr_1_nonneg, IH.
Qed.

Lemma round_nearest_even_nonneg m l : 0 <= m -> 0 <= round_nearest_even m l.
Proof.
  intros Hm. destruct l as [|[| |]]; cbn [round_nearest_even]; try lia.
  destruct (Z.even m); lia.
Qed.

Lemma binary_round_aux_sign s m e l :
  0 <= m -> has_sign s (binary_round_aux prec64 emax64 s m e l).
Proof.
  intros Hm. unfold binary_round_aux, shr_fexp.
  set (n1 := fexp prec64 emax64 (Zdigits2 m + e) - e).
  pose proof (shr_nonneg (shr_record_of_loc m l) e n1) as H1.
  destruct (shr (shr_record_of_loc m l) e n1) as [mrs' e'] eqn:E1. cbn [fst] in H1.
  assert (H1' : 0 <= shr_m mrs').
  { apply H1. destruct l as [|[| |]]; exact Hm. }
  set (m1 := round_nearest_even (shr_m mrs') (loc_of_shr_record mrs')).
  assert (Hm1 : 0 <= m1) by (apply round_nearest_even_nonneg; exact H1').
  set (n2 := fexp prec64 emax64 (Zdigits2 m1 + e') - e').
  pose proof (shr_nonneg (shr_record_of_loc m1 loc_Exact) e' n2 Hm1) as H2.
  destruct (shr (shr_record_of_loc m1 loc_Exact) e' n2) as [mrs'' e''] eqn:E2.
  cbn [fst] in H2.
  destruct (shr_m mrs'') as [|q|q]; [reflexivity| |lia].
  destruct (e'' <=? emax64 - prec64); reflexivity.
Qed.

Lemma binary_normalize_sign m e :
  0 <= m -> has_sign false (binary_normalize prec64 emax64 m e false).
Proof.
  intros Hm. destruct m as [|q|q]; [reflexivity| |lia].
  cbn [binary_normalize]. unfold binary_round.
  destruct (shl_align q e _) as [mz ez]. apply binary_round_aux_sign. lia.
Qed.

Lemma not_negative_iff x :
  not_negative x <->
  match x with
  | S754_infinity true | S754_finite true _ _ => False
  | _ => True
  end.
Proof.
  unfold not_negative, flt, SFltb, d_0_0.
  destruct x as [[|]|[|]| |[|] m e]; cbn; split; intros; try easy.
Qed.

Lemma has_sign_not_negative x : has_sign false x -> not_negative x.
Proof.
  intros H. apply not_negative_iff. destruct x as [s|s| |s m e]; cbn in *; subst; easy.
Qed.

(** The product of two numbers that are not negative is not negative. *)
Lemma fmul_not_negative a b :
  not_negative a -> not_negative b -> not_negative (fmul a b).
Proof.
  rewrite !not_negative_iff. intros Ha Hb.
  destruct a as [sa|sa| |sa ma ea], b as [sb|sb| |sb mb eb];
    try destruct sa; try destruct sb; cbn in *; try easy.
  pose proof (binary_round_aux_sign false (Zpos (ma * mb)) (ea + eb) loc_Exact ltac:(lia)) as Hs.
  apply has_sign_not_negative in Hs. apply not_negative_iff in Hs. exact Hs.
Qed.

Section PathProperties.
Context {L : StdLib}.

Lemma gbm_path_head x drift vol zs : gbm_path x drift vol zs !! 0%nat = Some x.
Proof. destruct zs; reflexivity. Qed.

Lemma gbm_path_step zs : forall x drift vol (i : nat) prev z,
  gbm_path x drift vol zs !! i = Some prev -> zs !! i = Some z ->
  gbm_path x drift vol zs !! S i = Some (fmul prev (gbm_factor drift vol z)).
Proof.
  induction zs as [|z0 zs IH]; intros x drift vol i prev z Hp Hz; [discriminate|].
  destruct i as [|i]; cbn in *.
  - inversion Hp; inversion Hz; subst. apply gbm_path_head.
  - eapply IH; eassumption.
Qed.

Lemma gbm_path_not_negative zs : forall x drift vol,
  (forall y, not_negative (std_exp y)) -> not_negative x ->
  Forall not_negative (gbm_path x drift vol zs).
Proof.
  induction zs as [|z zs IH]; intros x drift vol Hexp Hx; cbn [gbm_path].
  - repeat constructor. exact Hx.
  - constructor; [exact Hx|]. apply IH; [exact Hexp|].
    apply fmul_not_negative; [exact Hx|apply Hexp].
Qed.

End PathProperties.

(* ================================================================== *)
(** * The path generator *)
(* ================================================================== *)

(** C1.  For parameters with [steps >= 1] (and [steps + 1] an [int], as the
    code computes it), [generatePath] returns a path that satisfies the
    log-Euler recurrence: with [dt = T / steps],
    [drift = (mu - 0.5 * sigma * sigma) * dt] and [vol = sigma * sqrt dt]
    computed once, the price at step [i] is the price at step [i - 1] times
    [exp (drift + vol * z_i)], where [z_i] is the [i]-th sample drawn from
    the source; exactly [steps] samples are drawn, one per step, and the
    engine is returned in the state after them. *)
Theorem generatePath_recurrence {L : StdLib} (p : SimulationParams) (gen : Gen) :
  1 <= steps p < INT_MAX ->
  let dt := fdiv (T p) (double_of_int (steps p)) in
  let drift := fmul (fsub (mu p) (fmul (fmul d_0_5 (sigma p)) (sigma p))) dt in
  let vol := fmul (sigma p) (fsqrt dt) in
  let draws := draw_samples (Z.to_nat (steps p)) dist_init gen in
  exists path : list double,
    generatePath p gen = Some (path, draws.2) /\
    length draws.1.1 = Z.to_nat (steps p) /\
    forall i : nat, (1 <= i <= Z.to_nat (steps p))%nat ->
      exists prev z : double,
        path !! (i - 1)%nat = Some prev /\
        draws.1.1 !! (i - 1)%nat = Some z /\
        path !! i = Some (fmul prev (std_exp (fadd drift (fmul vol z)))).
Proof.
  intros Hs dt drift vol draws.
  exists (gbm_path (S0 p) drift vol draws.1.1).
  split; [apply generatePath_eq; lia|].
  split; [apply draw_samples_length|].
  intros i Hi.
  pose proof (draw_samples_length (Z.to_nat (steps p)) dist_init gen) as Hlen.
  fold draws in Hlen.
  destruct (lookup_lt_is_Some_2 draws.1.1 (i - 1)%nat ltac:(lia)) as [z Hz].
  destruct (lookup_lt_is_Some_2 (gbm_path (S0 p) drift vol draws.1.1) (i - 1)%nat)
    as [prev Hprev].
  { rewrite gbm_path_length. lia. }
  exists prev, z. split; [exact Hprev|]. split; [exact Hz|].
  replace i with (S (i - 1)) at 1 by lia.
  apply (gbm_path_step _ _ _ _ _ _ _ Hprev Hz).
Qed.

Lemma generatePath_recurrence_witness :
  1 <= steps p_example < INT_MAX /\
  let dt := fdiv (T p_example) (double_of_int (steps p_example)) in
  let drift :=
    fmul (fsub (mu p_example)
               (fmul (fmul d_0_5 (sigma p_example)) (sigma p_example))) dt in
  let vol := fmul (sigma p_example) (fsqrt dt) in
  let draws := @draw_samples ref_lib (Z.to_nat (steps p_example)) tt 42 in
  exists path : list double,
    generatePath_ref p_example 42 = Some (path, draws.2) /\
    length draws.1.1 = Z.to_nat (steps p_example) /\
    forall i : nat, (1 <= i <= Z.to_nat (steps p_example))%nat ->
      exists prev z : double,
        path !! (i - 1)%nat = Some prev /\
        draws.1.1 !! (i - 1)%nat = Some z /\
        path !! i = Some (fmul prev (exp_ref (fadd drift (fmul vol z)))).
Proof.
  split; [cbn; unfold INT_MAX; lia|].
  apply (@generatePath_recurrence ref_lib p_example 42).
  cbn; unfold INT_MAX; lia.
Defined.

(** [exp_ref] never returns a negative number. *)
Lemma exp_series_nonneg k : forall j r term acc,
  0 < j -> 0 <= r -> 0 <= term -> 0 <= acc -> 0 <= exp_series k j r term acc.
Proof.
  induction k as [|k IH]; intros j r term acc Hj Hr Ht Ha; cbn [exp_series]; [exact Ha|].
  assert (Hs : 0 < exp_scale) by (unfold exp_scale; lia).
  assert (0 <= term * r / (j * exp_scale)) by (apply Z.div_pos; nia).
  apply IH; lia.
Qed.

Lemma exp_ref_not_negative x : not_negative (exp_ref x).
Proof.
  apply not_negative_iff.
  destruct x as [s|[|]| |s m e]; cbn [exp_ref]; try exact I.
  destruct (11 <=? Zpos (digits2_pos m) + e); [destruct s; exact I|].
  apply not_negative_iff, has_sign_not_negative, binary_normalize_sign.
  apply exp_series_nonneg; try lia.
  - apply Z.mod_pos_bound. unfold exp_ln2. lia.
  - unfold exp_scale. lia.
  - unfold exp_scale. lia.
Qed.

(** C2, as the code has it.  For parameters with [S0 > 0] and
    [steps >= 1], and an exponential that returns no negative number, the
    path returned by [generatePath] has [steps + 1] elements, the first is
    [S0], and no element is negative: each is positive, a zero or a NaN. *)
Theorem generatePath_not_negative {L : StdLib} (p : SimulationParams) (gen : Gen) :
  (forall x, not_negative (std_exp x)) ->
  flt d_0_0 (S0 p) = true ->
  1 <= steps p < INT_MAX ->
  exists (path : list double) (gen' : Gen),
    generatePath p gen = Some (path, gen') /\
    Z.of_nat (length path) = steps p + 1 /\
    path !! 0%nat = Some (S0 p) /\
    Forall not_negative path.
Proof.
  intros Hexp HS0 Hs.
  eexists _, _. split; [apply generatePath_eq; lia|].
  split; [rewrite gbm_path_length, draw_samples_length; lia|].
  split; [apply gbm_path_head|].
  apply gbm_path_not_negative; [exact Hexp|].
  apply not_negative_iff.
  destruct (S0 p) as [[|]|[|]| |[|] m e]; cbn in HS0; try discriminate; exact I.
Qed.

Lemma generatePath_not_negative_witness :
  exists (path : list double) (gen' : Z),
    generatePath_ref p_example 42 = Some (path, gen') /\
    Z.of_nat (length path) = steps p_example + 1 /\
    path !! 0%nat = Some (S0 p_example) /\
    Forall not_negative path.
Proof.
  apply (@generatePath_not_negative ref_lib p_example 42).
  - exact exp_ref_not_negative.
  - reflexivity.
  - cbn; unfold INT_MAX; lia.
Defined.

(** C2 as stated fails: with S0 = 100, mu = -1000, sigma = 0, T = 1 and one
    step, all valid, the factor [exp (-1000)] underflows to 0 and the price
    after the step is 0, which is not strictly positive. *)
Lemma generatePath_price_underflow :
  valid_params p_decline = true /\
  exists gen' : Z,
    generatePath_ref p_decline 42 = Some ([d_100; d_0_0], gen') /\
    flt d_0_0 d_0_0 = false.
Proof.
  split; [reflexivity|]. eexists. split; [vm_compute; reflexivity|reflexivity].
Qed.

(* ================================================================== *)
(** * The statistics *)
(* ================================================================== *)

Lemma int_of_size_small (n : nat) :
  Z.of_nat n <= INT_MAX -> int_of_size n = Z.of_nat n.
Proof.
  intros Hn. unfold int_of_size, INT_MAX in *.
  rewrite Z.mod_small by lia. lia.
Qed.

Lemma percentile_index_0_05 n :
  1 <= n <= INT_MAX -> percentile_index d_0_05 n = Some (5 * n / 100).
Proof. apply index_0_05. Qed.

Lemma percentile_index_0_95 n :
  1 <= n <= INT_MAX -> percentile_index d_0_95 n = Some (95 * n / 100).
Proof. apply index_0_95. Qed.

Lemma percentile_rank_bounds n :
  1 <= n -> 0 <= 5 * n / 100 <= 95 * n / 100 /\ 95 * n / 100 <= n - 1.
Proof.
  intros Hn. split; [split|].
  - apply Z.div_pos; lia.
  - apply Z.div_le_mono; lia.
  - apply Z.lt_succ_r. replace (Z.succ (n - 1)) with n by lia.
    apply Z.div_lt_upper_bound; lia.
Qed.

Lemma fold_left_map_r {A B C} (f : A -> C -> A) (g : B -> C) (l : list B) (a : A) :
  fold_left f (map g l) a = fold_left (fun acc x => f acc (g x)) l a.
Proof. revert a. induction l as [|x l IH]; intros a; cbn; [reflexivity|apply IH]. Qed.

Lemma terminal_values_Some p paths :
  ensemble_for p paths ->
  exists finals, terminal_values p paths = Some finals /\
                 length finals = length paths.
Proof.
  intros (Hs & _ & Hall).
  destruct (mapM_is_Some_2 (fun path => vector_get path (steps p)) paths) as [finals Hf].
  - eapply Forall_impl; [exact Hall|]. intros path Hlen. cbv beta in Hlen. unfold compose, vector_get. replace (0 <=? steps p) with true by (symmetry; apply Z.leb_le; lia).
    apply lookup_lt_is_Some_2. lia.
  - exists finals. split; [exact Hf|]. symmetry. eapply length_mapM, Hf.
Qed.

Section Statistics.
Context {L : StdLib}.

(** The contract of [std::sort] used throughout: it sorts in place, so
    the vector keeps its length. *)
Hypothesis std_sort_length : forall l, length (std_sort l) = length l.

(** What [calculateStatistics] computes on a nonempty ensemble, value by
    value. *)
Lemma calculateStatistics_eq p paths :
  ensemble_for p paths ->
  let n := Z.of_nat (length paths) in
  exists finals mn mx x5 x95,
    terminal_values p paths = Some finals /\
    length finals = length paths /\
    min_element finals = Some mn /\
    max_element finals = Some mx /\
    std_sort finals !! Z.to_nat (5 * n / 100) = Some x5 /\
    std_sort finals !! Z.to_nat (95 * n / 100) = Some x95 /\
    calculateStatistics paths p
    = Some {| mean := fdiv (fold_left fadd finals d_0_0) (double_of_int n);
              std_dev :=
                fsqrt (fdiv
                  (fold_left
                     (fun acc price =>
                        fadd acc
                          (fmul (fsub price (fdiv (fold_left fadd finals d_0_0) (double_of_int n)))
                                (fsub price (fdiv (fold_left fadd finals d_0_0) (double_of_int n)))))
                     finals d_0_0)
                  (double_of_int n));
              min_price := mn; max_price := mx;
              percentile_5 := x5; percentile_95 := x95 |}.
Proof.
  intros Hens n. pose proof Hens as (Hs & Hn & Hall).
  destruct (terminal_values_Some p paths Hens) as (finals & Hf & Hlen).
  assert (Hnn : n = Z.of_nat (length paths)) by reflexivity.
  clearbody n. rewrite <- Hnn in Hn.
  pose proof (percentile_rank_bounds n ltac:(lia)) as [[H5 H595] H95].
  assert (Hne : finals <> []) by (intros ->; simpl in Hlen; lia).
  destruct finals as [|x0 finals'] eqn:Efin; [congruence|]. rewrite <- Efin in *.
  assert (Hmin : exists mn, min_element finals = Some mn) by (rewrite Efin; cbn; eauto).
  assert (Hmax : exists mx, max_element finals = Some mx) by (rewrite Efin; cbn; eauto).
  destruct Hmin as [mn Hmin], Hmax as [mx Hmax].
  destruct (lookup_lt_is_Some_2 (std_sort finals) (Z.to_nat (5 * n / 100))) as [x5 Hx5].
  { rewrite std_sort_length, Hlen. lia. }
  destruct (lookup_lt_is_Some_2 (std_sort finals) (Z.to_nat (95 * n / 100))) as [x95 Hx95].
  { rewrite std_sort_length, Hlen. lia. }
  exists finals, mn, mx, x5, x95.
  repeat (split; [assumption|]).
  unfold calculateStatistics. unfold terminal_values in Hf. rewrite Hf.
  cbn [mbind option_bind]. rewrite int_of_size_small by lia. rewrite <- Hnn.
  rewrite Hmin, Hmax. cbn [mbind option_bind].
  rewrite percentile_index_0_05, percentile_index_0_95 by lia.
  cbn [mbind option_bind]. unfold vector_get.
  replace (0 <=? 5 * n / 100) with true by (symmetry; apply Z.leb_le; lia).
  replace (0 <=? 95 * n / 100) with true by (symmetry; apply Z.leb_le; lia).
  rewrite Hx5, Hx95. reflexivity.
Qed.

(** C4.  The standard deviation computed on a nonempty ensemble is the
    population standard deviation of the terminal values: the square
    root of the mean of the squared deviations from the mean, both means
    with the number of paths as divisor. *)
Theorem calculateStatistics_population_std_dev p paths :
  ensemble_for p paths ->
  exists finals st,
    terminal_values p paths = Some finals /\
    calculateStatistics paths p = Some st /\
    mean st = mean_of finals /\
    std_dev st = population_std_dev finals.
Proof.
  intros Hens. pose proof Hens as (_ & Hn & _).
  destruct (calculateStatistics_eq p paths Hens)
    as (finals & mn & mx & x5 & x95 & Hf & Hlen & _ & _ & _ & _ & Heq).
  eexists finals, _. split; [exact Hf|]. split; [exact Heq|].
  cbn [mean std_dev]. unfold population_std_dev, mean_of.
  rewrite length_map, Hlen, int_of_size_small by lia.
  rewrite fold_left_map_r. split; reflexivity.
Qed.

End Statistics.

(** C10.  For every [int] [num_paths >= 1], the two percentile indices
    [static_cast<int>(0.05 * num_paths)] and
    [static_cast<int>(0.95 * num_paths)] are defined and lie between 0 and
    [num_paths - 1]: the accesses to the sorted vector are in bounds. *)
Theorem percentile_indices_in_bounds (n : Z) :
  1 <= n <= INT_MAX ->
  exists i5 i95 : Z,
    percentile_index d_0_05 n = Some i5 /\
    percentile_index d_0_95 n = Some i95 /\
    0 <= i5 <= n - 1 /\ 0 <= i95 <= n - 1.
Proof.
  intros Hn. exists (5 * n / 100), (95 * n / 100).
  pose proof (percentile_rank_bounds n ltac:(lia)) as [[H5 H595] H95].
  split; [apply percentile_index_0_05; exact Hn|].
  split; [apply percentile_index_0_95; exact Hn|].
  lia.
Qed.

Lemma percentile_indices_in_bounds_witness :
  exists i5 i95 : Z,
    percentile_index d_0_05 100 = Some i5 /\
    percentile_index d_0_95 100 = Some i95 /\
    0 <= i5 <= 100 - 1 /\ 0 <= i95 <= 100 - 1.
Proof.
  apply (percentile_indices_in_bounds 100). unfold INT_MAX. lia.
Defined.

Lemma sort_ref_length l : length (sort_ref l) = length l.
Proof. apply Permutation_length, merge_sort_Permutation. Qed.

Lemma ensemble_for_example : ensemble_for p_example ens_example.
Proof.
  split; [cbn; lia|]. split; [cbn; unfold INT_MAX; lia|].
  repeat constructor.
Qed.

Lemma calculateStatistics_population_std_dev_witness :
  exists finals st,
    terminal_values p_example ens_example = Some finals /\
    calculateStatistics_ref ens_example p_example = Some st /\
    mean st = mean_of finals /\
    std_dev st = population_std_dev finals.
Proof.
  apply (@calculateStatistics_population_std_dev ref_lib sort_ref_length
           p_example ens_example ensemble_for_example).
Defined.

(** The divisor is the number of values, not one less: on the values 1 and
    3 the population formula gives 1, the sample formula [sqrt 2]. *)
Example std_dev_divisor :
  population_std_dev [d_1_0; double_of_int 3] = d_1_0 /\
  sample_std_dev [d_1_0; double_of_int 3]
  = S754_finite false 6369051672525773 (-52).
Proof. split; vm_compute; reflexivity. Qed.

(* ================================================================== *)
(** * The order of binary64 *)
(* ================================================================== *)

Lemma fle_refl x : is_nan x = false -> fle x x = true.
Proof.
  destruct x as [[|]|[|]| |[|] m e]; intros H; try discriminate H; try reflexivity;
    order_cases.
Qed.

Lemma flt_false_fle x y :
  is_nan x = false -> is_nan y = false -> flt y x = false -> fle x y = true.
Proof.
  destruct x as [[|]|[|]| |[|] mx ex], y as [[|]|[|]| |[|] my ey];
    intros Hx Hy H; try discriminate Hx; try discriminate Hy;
    try reflexivity; try discriminate H; order_cases.
Qed.

Lemma flt_fle x y : flt x y = true -> fle x y = true.
Proof.
  unfold flt, fle, SFltb, SFleb. destruct (SFcompare x y) as [[| |]|]; easy.
Qed.

Lemma fle_trans x y z : fle x y = true -> fle y z = true -> fle x z = true.
Proof.
  destruct x as [[|]|[|]| |[|] mx ex], y as [[|]|[|]| |[|] my ey],
           z as [[|]|[|]| |[|] mz ez];
    intros H1 H2; try discriminate H1; try discriminate H2; try reflexivity;
    order_cases.
Qed.

Lemma fle_not_nan x y : fle x y = true -> is_nan x = false /\ is_nan y = false.
Proof.
  destruct x as [[|]|[|]| |[|] mx ex], y as [[|]|[|]| |[|] my ey];
    intros H; try discriminate H; split; reflexivity.
Qed.

(* ================================================================== *)
(** * Percentiles, minimum and maximum *)
(* ================================================================== *)

Lemma min_element_spec x l m :
  no_nan (x :: l) -> min_element (x :: l) = Some m ->
  m ∈ x :: l /\ forall y, y ∈ x :: l -> fle m y = true.
Proof.
  cbn [min_element]. intros Hnan Hm. inversion Hm as [Hm']. clear Hm Hm'.
  revert x Hnan. induction l as [|y l IH]; intros x Hnan.
  - cbn. split; [left|]. intros z Hz. apply list_elem_of_singleton in Hz as ->.
    apply fle_refl. inversion Hnan; assumption.
  - cbn [fold_left].
    inversion Hnan as [|? ? Hx Hrest]; subst. inversion Hrest as [|? ? Hy Hl]; subst.
    set (a := if flt y x then y else x).
    assert (Ha : is_nan a = false) by (unfold a; destruct (flt y x); assumption).
    assert (Hax : fle a x = true).
    { unfold a. destruct (flt y x) eqn:E; [apply flt_fle; exact E|apply fle_refl; exact Hx]. }
    assert (Hay : fle a y = true).
    { unfold a. destruct (flt y x) eqn:E; [apply fle_refl; exact Hy|].
      apply flt_false_fle; assumption. }
    assert (Hin : a ∈ x :: y :: l).
    { unfold a. destruct (flt y x); [right; left|left]. }
    destruct (IH a) as [Hmem Hle]; [constructor; assumption|].
    split.
    + apply elem_of_cons in Hmem as [-> | Hmem]; [exact Hin|].
      right; right; exact Hmem.
    + intros z Hz. apply elem_of_cons in Hz as [-> | Hz].
      * eapply fle_trans; [apply Hle; left|exact Hax].
      * apply elem_of_cons in Hz as [-> | Hz].
        -- eapply fle_trans; [apply Hle; left|exact Hay].
        -- apply Hle. right. exact Hz.
Qed.

Lemma max_element_spec x l m :
  no_nan (x :: l) -> max_element (x :: l) = Some m ->
  m ∈ x :: l /\ forall y, y ∈ x :: l -> fle y m = true.
Proof.
  cbn [max_element]. intros Hnan Hm. inversion Hm as [Hm']. clear Hm Hm'.
  revert x Hnan. induction l as [|y l IH]; intros x Hnan.
  - cbn. split; [left|]. intros z Hz. apply list_elem_of_singleton in Hz as ->.
    apply fle_refl. inversion Hnan; assumption.
  - cbn [fold_left].
    inversion Hnan as [|? ? Hx Hrest]; subst. inversion Hrest as [|? ? Hy Hl]; subst.
    set (a := if flt x y then y else x).
    assert (Ha : is_nan a = false) by (unfold a; destruct (flt x y); assumption).
    assert (Hax : fle x a = true).
    { unfold a. destruct (flt x y) eqn:E; [apply flt_fle; exact E|apply fle_refl; exact Hx]. }
    assert (Hay : fle y a = true).
    { unfold a. destruct (flt x y) eqn:E; [apply fle_refl; exact Hy|].
      apply flt_false_fle; assumption. }
    assert (Hin : a ∈ x :: y :: l).
    { unfold a. destruct (flt x y); [right; left|left]. }
    destruct (IH a) as [Hmem Hle]; [constructor; assumption|].
    split.
    + apply elem_of_cons in Hmem as [-> | Hmem]; [exact Hin|].
      right; right; exact Hmem.
    + intros z Hz. apply elem_of_cons in Hz as [-> | Hz].
      * eapply fle_trans; [exact Hax|apply Hle; left].
      * apply elem_of_cons in Hz as [-> | Hz].
        -- eapply fle_trans; [exact Hay|apply Hle; left].
        -- apply Hle. right. exact Hz.
Qed.

Lemma ascending_lookup l : forall (i j : nat) a b,
  ascending l -> no_nan l -> (i <= j)%nat ->
  l !! i = Some a -> l !! j = Some b -> fle a b = true.
Proof.
  induction l as [|x l IH]; intros i j a b Hs Hn Hij Ha Hb; [discriminate|].
  apply StronglySorted_inv in Hs as [Hs Hall].
  inversion Hn as [|? ? Hx Hl]; subst.
  destruct i as [|i], j as [|j]; cbn in Ha, Hb; try lia.
  - inversion Ha; inversion Hb; subst. apply fle_refl. exact Hx.
  - inversion Ha; subst. rewrite Forall_forall in Hall. apply Hall.
    eapply list_elem_of_lookup_2, Hb.
  - eapply (IH i j); eauto. lia.
Qed.

Section Order.
Context {L : StdLib}.

(** The contract of [std::sort] on values that [<] orders: the result is
    a rearrangement of the input in ascending order.  (With a NaN among
    the values, [<] is not a strict weak ordering and the standard
    promises nothing.) *)
Hypothesis std_sort_length : forall l, length (std_sort l) = length l.
Hypothesis std_sort_perm : forall l, no_nan l -> std_sort l ≡ₚ l.
Hypothesis std_sort_ascending : forall l, no_nan l -> ascending (std_sort l).

(** C3.  On a nonempty ensemble of [n] paths, the 5th percentile is the
    element at position [floor (0.05 * n)] and the 95th the element at
    position [floor (0.95 * n)] of the sorted terminal values (a
    rearrangement of the terminal values in ascending order), taken as
    they are, with no interpolation; for [n = 100] these are the
    elements 5 and 95. *)
Theorem calculateStatistics_percentiles p paths :
  ensemble_for p paths ->
  let n := Z.of_nat (length paths) in
  exists finals sorted st,
    terminal_values p paths = Some finals /\
    sorted = std_sort finals /\
    (no_nan finals -> sorted ≡ₚ finals /\ ascending sorted) /\
    calculateStatistics paths p = Some st /\
    sorted !! Z.to_nat (5 * n / 100) = Some (percentile_5 st) /\
    sorted !! Z.to_nat (95 * n / 100) = Some (percentile_95 st) /\
    (n = 100 ->
     sorted !! 5%nat = Some (percentile_5 st) /\
     sorted !! 95%nat = Some (percentile_95 st)).
Proof.
  intros Hens n.
  destruct (calculateStatistics_eq std_sort_length p paths Hens)
    as (finals & mn & mx & x5 & x95 & Hf & _ & _ & _ & H5 & H95 & Heq).
  fold n in H5, H95.
  eexists finals, (std_sort finals), _. split; [exact Hf|]. split; [reflexivity|].
  split; [intros Hnan; split; [apply std_sort_perm|apply std_sort_ascending]; exact Hnan|].
  split; [exact Heq|].
  cbn [percentile_5 percentile_95].
  split; [exact H5|]. split; [exact H95|].
  intros Hn. rewrite Hn in H5, H95. split; [exact H5|exact H95].
Qed.

(** C6, as the code has it.  On a nonempty ensemble whose terminal
    values contain no NaN, the statistics satisfy
    [minimum <= percentile_5 <= percentile_95 <= maximum]. *)
Theorem calculateStatistics_order p paths finals :
  ensemble_for p paths ->
  terminal_values p paths = Some finals ->
  no_nan finals ->
  exists st,
    calculateStatistics paths p = Some st /\
    fle (min_price st) (percentile_5 st) = true /\
    fle (percentile_5 st) (percentile_95 st) = true /\
    fle (percentile_95 st) (max_price st) = true.
Proof.
  intros Hens Hf Hnan.
  destruct (calculateStatistics_eq std_sort_length p paths Hens)
    as (finals' & mn & mx & x5 & x95 & Hf' & Hlen & Hmin & Hmax & H5 & H95 & Heq).
  rewrite Hf in Hf'. inversion Hf'; subst finals'. clear Hf'.
  eexists. split; [exact Heq|]. cbn [min_price max_price percentile_5 percentile_95].
  pose proof Hens as (_ & Hn & _).
  pose proof (percentile_rank_bounds (Z.of_nat (length paths)) ltac:(lia)) as [[Hr5 Hr] Hr95].
  assert (Hin5 : x5 ∈ finals).
  { rewrite <- (std_sort_perm finals Hnan). eapply list_elem_of_lookup_2, H5. }
  assert (Hin95 : x95 ∈ finals).
  { rewrite <- (std_sort_perm finals Hnan). eapply list_elem_of_lookup_2, H95. }
  destruct finals as [|x0 rest]; [inversion Hin5|].
  destruct (min_element_spec _ _ _ Hnan Hmin) as [_ Hle_min].
  destruct (max_element_spec _ _ _ Hnan Hmax) as [_ Hle_max].
  split; [apply Hle_min; exact Hin5|].
  split; [|apply Hle_max; exact Hin95].
  eapply (ascending_lookup (std_sort (x0 :: rest))); try eassumption.
  - apply std_sort_ascending, Hnan.
  - unfold no_nan. rewrite (std_sort_perm _ Hnan). exact Hnan.
  - lia.
Qed.

End Order.

(** The reference sort meets the contract. *)
Lemma sort_le_trans : Transitive sort_le.
Proof.
  intros x y z. unfold sort_le. intros Hxy Hyz.
  destruct (is_nan z) eqn:Ez; [reflexivity|]. cbn in *.
  apply andb_true_iff in Hyz as [Hy Hyz]. apply negb_true_iff in Hy.
  rewrite Hy in Hxy. cbn in Hxy. apply andb_true_iff in Hxy as [Hx Hxy].
  rewrite Hx. cbn. eapply fle_trans; eassumption.
Qed.

Lemma sort_le_total : Total sort_le.
Proof.
  intros x y. unfold sort_le.
  destruct (is_nan y) eqn:Ey; [left; reflexivity|].
  destruct (is_nan x) eqn:Ex; [right; reflexivity|]. cbn.
  destruct (flt y x) eqn:E.
  - right. apply flt_fle, E.
  - left. apply flt_false_fle; assumption.
Qed.

Lemma sort_ref_perm l : sort_ref l ≡ₚ l.
Proof. apply merge_sort_Permutation. Qed.

Lemma sort_ref_ascending l : no_nan l -> ascending (sort_ref l).
Proof.
  intros Hnan.
  assert (Hs : StronglySorted sort_le (sort_ref l))
    by (apply StronglySorted_merge_sort; [apply sort_le_trans|apply sort_le_total]).
  assert (Hn : no_nan (sort_ref l)) by (unfold no_nan; rewrite sort_ref_perm; exact Hnan).
  unfold ascending. induction Hs as [|x k Hk IH Hall]; [constructor|].
  inversion Hn as [|? ? Hx Hk']; subst.
  constructor; [apply IH; exact Hk'|].
  rewrite Forall_forall in Hall, Hk' |- *.
  intros y Hy. specialize (Hall y Hy). specialize (Hk' y Hy).
  unfold sort_le in Hall. rewrite Hk', Hx in Hall. exact Hall.
Qed.

Lemma terminal_values_example :
  terminal_values p_example ens_example
  = Some [S754_finite false 6922000052252965 (-45);
          S754_finite false 6922000052252965 (-45);
          S754_finite false 5574476445503829 (-45);
          S754_finite false 6258842808713754 (-46)].
Proof. vm_compute. reflexivity. Qed.

Lemma calculateStatistics_percentiles_witness :
  let n := Z.of_nat (length ens_example) in
  exists finals sorted st,
    terminal_values p_example ens_example = Some finals /\
    sorted = sort_ref finals /\
    (no_nan finals -> sorted ≡ₚ finals /\ ascending sorted) /\
    calculateStatistics_ref ens_example p_example = Some st /\
    sorted !! Z.to_nat (5 * n / 100) = Some (percentile_5 st) /\
    sorted !! Z.to_nat (95 * n / 100) = Some (percentile_95 st) /\
    (n = 100 ->
     sorted !! 5%nat = Some (percentile_5 st) /\
     sorted !! 95%nat = Some (percentile_95 st)).
Proof.
  apply (@calculateStatistics_percentiles ref_lib sort_ref_length
           (fun l _ => sort_ref_perm l) sort_ref_ascending
           p_example ens_example ensemble_for_example).
Defined.

Lemma calculateStatistics_order_witness :
  exists st,
    calculateStatistics_ref ens_example p_example = Some st /\
    fle (min_price st) (percentile_5 st) = true /\
    fle (percentile_5 st) (percentile_95 st) = true /\
    fle (percentile_95 st) (max_price st) = true.
Proof.
  apply (@calculateStatistics_order ref_lib sort_ref_length
           (fun l _ => sort_ref_perm l) sort_ref_ascending
           p_example ens_example _ ensemble_for_example terminal_values_example).
  repeat constructor.
Defined.

(** C6 as stated fails when a terminal value is a NaN: no comparison with
    a NaN holds.  The program reaches such an ensemble from finite, valid
    parameters: with sigma = 2^600 and T = 2^1000 the drift is [-inf] and
    the volatility term [+inf], their sum a NaN. *)
Lemma calculateStatistics_order_nan :
  valid_params p_huge = true /\
  runMonteCarloSimulation_ref p_huge 42
  = Some [[d_100; S754_nan]; [d_100; S754_nan]; [d_100; S754_nan]] /\
  calculateStatistics_ref [[d_100; S754_nan]; [d_100; S754_nan]; [d_100; S754_nan]] p_huge
  = Some {| mean := S754_nan; std_dev := S754_nan;
            min_price := S754_nan; max_price := S754_nan;
            percentile_5 := S754_nan; percentile_95 := S754_nan |} /\
  fle S754_nan S754_nan = false.
Proof. repeat split; vm_compute; reflexivity. Qed.

(* ================================================================== *)
(** * The standard deviation *)
(* ================================================================== *)

Lemma has_sign_not_nan s x : has_sign s x -> is_nan x = false.
Proof. destruct x; cbn; easy. Qed.

Lemma binary_normalize_not_nan m e :
  is_nan (binary_normalize prec64 emax64 m e false) = false.
Proof.
  destruct m as [|q|q]; [reflexivity| |]; cbn [binary_normalize]; unfold binary_round;
    destruct (shl_align q e _) as [mz ez];
    eapply has_sign_not_nan, binary_round_aux_sign; lia.
Qed.

Lemma double_of_int_positive n :
  1 <= n <= INT_MAX -> exists m e, double_of_int n = S754_finite false m e.
Proof.
  intros Hn. destruct n as [|q|q]; try lia.
  rewrite double_of_int_pos by lia. eauto.
Qed.

Lemma fadd_not_nan a b :
  is_nan a = false -> is_finite b = true -> is_nan (fadd a b) = false.
Proof.
  destruct a as [sa|sa| |sa ma ea], b as [sb|sb| |sb mb eb];
    intros Ha Hb; try discriminate; try reflexivity.
  - destruct sa, sb; reflexivity.
  - apply binary_normalize_not_nan.
Qed.

Lemma fsub_not_nan a b :
  is_finite a = true -> is_nan b = false -> is_nan (fsub a b) = false.
Proof.
  destruct a as [sa|sa| |sa ma ea], b as [sb|sb| |sb mb eb];
    intros Ha Hb; try discriminate; try reflexivity.
  - destruct sa, sb; reflexivity.
  - apply binary_normalize_not_nan.
Qed.

Lemma fdiv_not_nan a m e :
  is_nan a = false -> is_nan (fdiv a (S754_finite false m e)) = false.
Proof.
  destruct a as [sa|sa| |sa ma ea]; intros Ha; try discriminate; try reflexivity.
  unfold fdiv. cbn [SFdiv]. unfold SFdiv_core_binary.
  set (m' := match _ with Z0 => _ | Zpos _ => _ | Zneg _ => _ end).
  assert (Hm' : 0 <= m').
  { unfold m'. destruct (_ - _ - _) as [|q|q]; try lia.
    rewrite Z.shiftl_mul_pow2 by lia. apply Z.mul_nonneg_nonneg; [lia|].
    apply Z.pow_nonneg. lia. }
  pose proof (Z.div_pos m' (Zpos m) Hm' ltac:(lia)) as Hq.
  unfold Z.div in Hq. destruct (Z.div_eucl m' (Zpos m)) as [q r]. cbn [fst] in Hq.
  eapply has_sign_not_nan, binary_round_aux_sign. exact Hq.
Qed.

Lemma fmul_square_sign d : is_nan d = false -> has_sign false (fmul d d).
Proof.
  destruct d as [s|s| |s m e]; intros Hd; try discriminate; cbn.
  - apply xorb_nilpotent.
  - apply xorb_nilpotent.
  - rewrite xorb_nilpotent. apply binary_round_aux_sign. lia.
Qed.

Lemma fadd_sign a b : has_sign false a -> has_sign false b -> has_sign false (fadd a b).
Proof.
  destruct a as [sa|sa| |sa ma ea], b as [sb|sb| |sb mb eb];
    cbn [has_sign]; intros Ha Hb; subst; try contradiction; try reflexivity.
  unfold fadd. cbn [SFadd cond_Zopp]. apply binary_normalize_sign. lia.
Qed.

Lemma fdiv_sign a m e :
  has_sign false a -> has_sign false (fdiv a (S754_finite false m e)).
Proof.
  destruct a as [sa|sa| |sa ma ea]; cbn [has_sign]; intros Ha; subst;
    try contradiction; try reflexivity.
  unfold fdiv. cbn [SFdiv xorb]. unfold SFdiv_core_binary.
  set (m' := match _ with Z0 => _ | Zpos _ => _ | Zneg _ => _ end).
  assert (Hm' : 0 <= m').
  { unfold m'. destruct (_ - _ - _) as [|q|q]; try lia.
    rewrite Z.shiftl_mul_pow2 by lia. apply Z.mul_nonneg_nonneg; [lia|].
    apply Z.pow_nonneg. lia. }
  pose proof (Z.div_pos m' (Zpos m) Hm' ltac:(lia)) as Hq.
  unfold Z.div in Hq. destruct (Z.div_eucl m' (Zpos m)) as [q r]. cbn [fst] in Hq.
  apply binary_round_aux_sign. exact Hq.
Qed.

Lemma fsqrt_sign a : has_sign false a -> has_sign false (fsqrt a).
Proof.
  destruct a as [sa|sa| |sa ma ea]; cbn [has_sign]; intros Ha; subst;
    try contradiction; try reflexivity.
  unfold fsqrt. cbn [SFsqrt]. unfold SFsqrt_core_binary.
  set (m' := match _ with Z0 => _ | Zpos _ => _ | Zneg _ => _ end).
  assert (Hm' : 0 <= m').
  { unfold m'. destruct (_ - _) as [|q|q]; try lia.
    rewrite Z.shiftl_mul_pow2 by lia. apply Z.mul_nonneg_nonneg; [lia|].
    apply Z.pow_nonneg. lia. }
  pose proof (Z.sqrtrem_spec m' Hm') as Hs.
  destruct (Z.sqrtrem m') as [q r].
  apply binary_round_aux_sign. lia.
Qed.

Lemma has_sign_fle_zero x : has_sign false x -> fle d_0_0 x = true.
Proof. destruct x as [s|s| |s m e]; cbn [has_sign]; intros H; subst; easy. Qed.

Lemma fsub_diag x : is_finite x = true -> fsub x x = d_0_0.
Proof.
  destruct x as [[|]|s| |s m e]; intros H; try discriminate; try reflexivity.
  unfold fsub. cbn [SFsub]. rewrite Z.sub_diag. reflexivity.
Qed.

Lemma fold_sum_not_nan l : forall acc,
  all_finite l -> is_nan acc = false -> is_nan (fold_left fadd l acc) = false.
Proof.
  induction l as [|x l IH]; intros acc Hl Hacc; [exact Hacc|].
  inversion Hl; subst. cbn [fold_left]. apply IH; [assumption|].
  apply fadd_not_nan; assumption.
Qed.

Lemma fold_squares_sign (m : double) l : forall acc,
  all_finite l -> is_nan m = false -> has_sign false acc ->
  has_sign false
    (fold_left (fun acc price => fadd acc (fmul (fsub price m) (fsub price m))) l acc).
Proof.
  induction l as [|x l IH]; intros acc Hl Hm Hacc; [exact Hacc|].
  inversion Hl; subst. cbn [fold_left]. apply IH; [assumption|assumption|].
  apply fadd_sign; [exact Hacc|]. apply fmul_square_sign, fsub_not_nan; assumption.
Qed.

Lemma fold_squares_zero (m : double) l :
  is_finite m = true -> Forall (fun x => x = m) l ->
  fold_left (fun acc price => fadd acc (fmul (fsub price m) (fsub price m))) l d_0_0
  = d_0_0.
Proof.
  intros Hm. induction l as [|x l IH]; intros Hl; [reflexivity|].
  inversion Hl; subst. cbn [fold_left]. rewrite fsub_diag by exact Hm.
  change (fadd d_0_0 (fmul d_0_0 d_0_0)) with d_0_0. apply IH. assumption.
Qed.

Section Deviation.
Context {L : StdLib}.
Hypothesis std_sort_length : forall l, length (std_sort l) = length l.

(** C8, as the code has it.  On a nonempty ensemble with finite terminal
    values the standard deviation is [>= 0]; and it is 0 when every
    terminal value equals the computed mean. *)
Theorem calculateStatistics_std_dev_sign p paths finals :
  ensemble_for p paths ->
  terminal_values p paths = Some finals ->
  all_finite finals ->
  exists st,
    calculateStatistics paths p = Some st /\
    fle d_0_0 (std_dev st) = true /\
    (Forall (fun x => x = mean st) finals -> std_dev st = d_0_0).
Proof.
  intros Hens Hf Hfin.
  destruct (calculateStatistics_eq std_sort_length p paths Hens)
    as (finals' & mn & mx & x5 & x95 & Hf' & Hlen & _ & _ & _ & _ & Heq).
  rewrite Hf in Hf'. inversion Hf'; subst finals'. clear Hf'.
  pose proof Hens as (_ & Hn & _).
  destruct (double_of_int_positive (Z.of_nat (length paths)) Hn) as (mN & eN & HN).
  eexists. split; [exact Heq|]. cbn [std_dev mean]. rewrite HN.
  set (m := fdiv (fold_left fadd finals d_0_0) (S754_finite false mN eN)).
  assert (Hm : is_nan m = false).
  { apply fdiv_not_nan, fold_sum_not_nan; [exact Hfin|reflexivity]. }
  split.
  - apply has_sign_fle_zero, fsqrt_sign, fdiv_sign, fold_squares_sign;
      [exact Hfin|exact Hm|reflexivity].
  - intros Hall.
    assert (Hmf : is_finite m = true).
    { destruct finals as [|x0 rest]; [simpl in Hlen; lia|].
      apply Forall_inv in Hall. apply Forall_inv in Hfin.
      rewrite <- Hall. exact Hfin. }
    rewrite fold_squares_zero by assumption. reflexivity.
Qed.

End Deviation.

Lemma calculateStatistics_std_dev_sign_witness :
  exists st,
    calculateStatistics_ref ens_example p_example = Some st /\
    fle d_0_0 (std_dev st) = true /\
    (Forall (fun x => x = mean st)
       [S754_finite false 6922000052252965 (-45);
        S754_finite false 6922000052252965 (-45);
        S754_finite false 5574476445503829 (-45);
        S754_finite false 6258842808713754 (-46)] -> std_dev st = d_0_0).
Proof.
  apply (@calculateStatistics_std_dev_sign ref_lib sort_ref_length
           p_example ens_example _ ensemble_for_example terminal_values_example).
  repeat constructor.
Defined.

(** C8 as stated fails in both directions.  Three paths that all end at
    0.1 (S0 = 0.1, mu = 0, sigma = 0) have the computed mean
    [(0.1 + 0.1 + 0.1) / 3], one unit in the last place above 0.1, and a
    standard deviation of [2^-56], not 0.  The two terminal values 0 and
    [2^-600] differ, and their squared deviations underflow: the standard
    deviation is 0. *)
Lemma calculateStatistics_std_dev_rounding :
  (runMonteCarloSimulation_ref p_flat 42
   = Some [[d_0_1; d_0_1]; [d_0_1; d_0_1]; [d_0_1; d_0_1]] /\
   exists st,
     calculateStatistics_ref [[d_0_1; d_0_1]; [d_0_1; d_0_1]; [d_0_1; d_0_1]] p_flat
     = Some st /\
     mean st = S754_finite false 7205759403792795 (-56) /\
     std_dev st = S754_finite false 4503599627370496 (-108) /\
     feq (std_dev st) d_0_0 = false) /\
  (exists st,
     calculateStatistics_ref [[d_0_0]; [d_tiny]] p_terminal = Some st /\
     std_dev st = d_0_0 /\ feq d_0_0 d_tiny = false).
Proof.
  split; [split; [vm_compute; reflexivity|]|];
    eexists; (split; [vm_compute; reflexivity|]); repeat split.
Qed.

(* ================================================================== *)
(** * The exported files *)
(* ================================================================== *)

Lemma seqZ_snoc (i : Z) : 0 <= i -> seqZ 0 (i + 1) = seqZ 0 i ++ [i].
Proof.
  intros Hi. rewrite seqZ_app by lia. rewrite Z.add_0_l.
  rewrite (seqZ_cons i 1) by lia. reflexivity.
Qed.

Lemma token_lines_aux_endl cur l rest :
  TEndl ∉ l ->
  token_lines_aux cur (l ++ TEndl :: rest) = (rev cur ++ l) :: token_lines_aux [] rest.
Proof.
  revert cur. induction l as [|t l IH]; intros cur Hl; cbn.
  - rewrite app_nil_r. reflexivity.
  - apply not_elem_of_cons in Hl as [Ht Hl].
    destruct t; try congruence; rewrite IH by exact Hl; cbn;
      rewrite <- app_assoc; reflexivity.
Qed.

Lemma token_lines_time p ks :
  token_lines (flat_map (time_line p) ks) = (fun k => [TDouble (time_point p k)]) <$> ks.
Proof.
  unfold token_lines. induction ks as [|k ks IH]; [reflexivity|].
  cbn. rewrite IH. reflexivity.
Qed.

Lemma header_cells_no_endl p ks : TEndl ∉ flat_map (header_cell p) ks.
Proof.
  induction ks as [|k ks IH]; cbn; [apply not_elem_of_nil|].
  unfold header_cell at 1. destruct (k <? steps p); cbn;
    repeat (apply not_elem_of_cons; split; [discriminate|]); exact IH.
Qed.

Lemma line_doubles_header p ks :
  line_doubles (TStr "Path," :: flat_map (header_cell p) ks) = time_point p <$> ks.
Proof.
  unfold line_doubles. cbn. induction ks as [|k ks IH]; [reflexivity|].
  cbn. destruct (k <? steps p); cbn; rewrite IH; reflexivity.
Qed.

(** The three loops of [saveResultsToCSV]. *)
Lemma save_header_loop p :
  0 <= steps p < INT_MAX ->
  for_loop (Z.to_nat (steps p + 1)) (fun i => i <=? steps p) 0
    (fun i out =>
       Some (if i <? steps p
             then (out ++ [TDouble (time_point p i)]) ++ [TStr ","]
             else out ++ [TDouble (time_point p i)]))
    [TStr "Path,"]
  = Some (TStr "Path," :: flat_map (header_cell p) (seqZ 0 (steps p + 1))).
Proof.
  intros Hs.
  destruct (for_loop_invariant
              (fun i out => 0 <= i /\ out = TStr "Path," :: flat_map (header_cell p) (seqZ 0 i))
              (fun i => i <=? steps p)
              (fun i out =>
       Some (if i <? steps p
             then (out ++ [TDouble (time_point p i)]) ++ [TStr ","]
             else out ++ [TDouble (time_point p i)]))
              (Z.to_nat (steps p + 1)) 0 (steps p + 1) [TStr "Path,"])
    as (out & Hout & _ & Heq); try (unfold INT_MIN, INT_MAX in *; lia).
  - split; [lia|reflexivity].
  - intros i s Hi [Hi0 ->]. eexists. split; [reflexivity|]. split; [lia|].
    rewrite seqZ_snoc, flat_map_app by lia. cbn [flat_map]. rewrite app_nil_r.
    unfold header_cell. destruct (i <? steps p);
      rewrite <- ?app_assoc; reflexivity.
  - rewrite Hout, Heq. reflexivity.
Qed.

Lemma save_time_loop p :
  0 <= steps p < INT_MAX ->
  for_loop (Z.to_nat (steps p + 1)) (fun i => i <=? steps p) 0
    (fun i out => Some (out ++ [TDouble (time_point p i); TEndl])) []
  = Some (flat_map (time_line p) (seqZ 0 (steps p + 1))).
Proof.
  intros Hs.
  destruct (for_loop_invariant
              (fun i out => 0 <= i /\ out = flat_map (time_line p) (seqZ 0 i))
              (fun i => i <=? steps p)
              (fun i out => Some (out ++ [TDouble (time_point p i); TEndl]))
              (Z.to_nat (steps p + 1)) 0 (steps p + 1) [])
    as (out & Hout & _ & Heq); try (unfold INT_MIN, INT_MAX in *; lia).
  - split; [lia|reflexivity].
  - intros i s Hi [Hi0 ->]. eexists. split; [reflexivity|]. split; [lia|].
    rewrite seqZ_snoc, flat_map_app by lia. cbn [flat_map]. rewrite app_nil_r.
    reflexivity.
  - rewrite Hout, Heq. reflexivity.
Qed.

Lemma save_row_loop p (paths : list (list double)) (i : Z) (out : list Token) :
  0 <= steps p < INT_MAX ->
  (exists path, vector_get paths i = Some path /\
                length path = Z.to_nat (steps p + 1)) ->
  exists out',
    for_loop (Z.to_nat (steps p + 1)) (fun j => j <=? steps p) 0
      (fun j out =>
         path ← vector_get paths i;
         price ← vector_get path j;
         Some (if j <? steps p
               then (out ++ [TDouble price]) ++ [TStr ","]
               else out ++ [TDouble price]))
      out
    = Some out' /\ out `prefix_of` out'.
Proof.
  intros Hs (path & Hpath & Hlen).
  destruct (for_loop_invariant
              (fun (_ : Z) out' => out `prefix_of` out')
              (fun j => j <=? steps p)
              (fun j out =>
         path ← vector_get paths i;
         price ← vector_get path j;
         Some (if j <? steps p
               then (out ++ [TDouble price]) ++ [TStr ","]
               else out ++ [TDouble price]))
              (Z.to_nat (steps p + 1)) 0 (steps p + 1) out)
    as (out' & Hout & Hpre); try (unfold INT_MIN, INT_MAX in *; lia).
  - reflexivity.
  - intros j s Hj Hpre. rewrite Hpath. cbn [mbind option_bind].
    destruct (lookup_lt_is_Some_2 path (Z.to_nat j) ltac:(lia)) as [price Hprice].
    unfold vector_get at 1.
    replace (0 <=? j) with true by (symmetry; apply Z.leb_le; lia).
    rewrite Hprice. cbn [mbind option_bind]. eexists. split; [reflexivity|].
    destruct (j <? steps p); repeat apply prefix_app_r; exact Hpre.
  - eauto.
Qed.

(** C9.  For parameters with [steps >= 1] (and [steps + 1] an [int]) and
    the ensemble of the run, [saveResultsToCSV] writes a time-points file
    of exactly [steps + 1] lines, the [i]-th holding [i * (T / steps)]
    for [i] from 0 to [steps], and these are, position by position, the
    time values of the header row of the paths file. *)
Theorem saveResultsToCSV_time_points p paths :
  1 <= steps p < INT_MAX ->
  ensemble_for p paths ->
  num_paths p = Z.of_nat (length paths) ->
  exists paths_file time_file header rows,
    saveResultsToCSV paths p = Some (paths_file, time_file) /\
    token_lines time_file = (fun t => [TDouble t]) <$> time_points p /\
    Z.of_nat (length (token_lines time_file)) = steps p + 1 /\
    token_lines paths_file = header :: rows /\
    line_doubles header = time_points p /\
    line_doubles header = concat (line_doubles <$> token_lines time_file).
Proof.
  intros Hs (Hs0 & Hn & Hall) Hnum.
  unfold saveResultsToCSV. cbv zeta. rewrite save_header_loop by lia.
  cbn [mbind option_bind].
  set (hdr := TStr "Path," :: flat_map (header_cell p) (seqZ 0 (steps p + 1))).
  destruct (for_loop_invariant
              (fun (_ : Z) out => (hdr ++ [TEndl]) `prefix_of` out)
              (fun i => i <? num_paths p)
              (fun i out =>
                 i1 ← int_add i 1;
                 out ← for_loop (Z.to_nat (steps p + 1)) (fun j => j <=? steps p) 0
                         (fun j out =>
                            path ← vector_get paths i;
                            price ← vector_get path j;
                            Some (if j <? steps p
                                  then (out ++ [TDouble price]) ++ [TStr ","]
                                  else out ++ [TDouble price]))
                         (out ++ [TInt i1; TStr ","]);
                 Some (out ++ [TEndl]))
              (Z.to_nat (num_paths p)) 0 (num_paths p) (hdr ++ [TEndl]))
    as (paths_file & Hfile & [rest Hrest]); try (unfold INT_MIN, INT_MAX in *; lia).
  - reflexivity.
  - intros i s Hi Hpre.
    rewrite int_add_Some by (unfold INT_MIN, INT_MAX in *; lia).
    cbn [mbind option_bind].
    destruct (save_row_loop p paths i (s ++ [TInt (i + 1); TStr ","]) ltac:(lia))
      as (out' & Hout' & Hpre').
    { destruct (lookup_lt_is_Some_2 paths (Z.to_nat i) ltac:(lia)) as [path Hpath].
      exists path. split.
      - unfold vector_get. replace (0 <=? i) with true by (symmetry; apply Z.leb_le; lia).
        exact Hpath.
      - rewrite Forall_forall in Hall. apply Hall.
        eapply list_elem_of_lookup_2, Hpath. }
    rewrite Hout'. cbn [mbind option_bind].
    eexists. split; [reflexivity|].
    apply prefix_app_r. etransitivity; [|exact Hpre'].
    apply prefix_app_r. exact Hpre.
  - rewrite Hfile. cbn [mbind option_bind].
    rewrite save_time_loop by lia. cbn [mbind option_bind].
    exists paths_file, (flat_map (time_line p) (seqZ 0 (steps p + 1))), hdr,
           (token_lines rest).
    split; [reflexivity|].
    assert (Htl : token_lines (flat_map (time_line p) (seqZ 0 (steps p + 1)))
                  = (fun t => [TDouble t]) <$> time_points p).
    { rewrite token_lines_time. unfold time_points. rewrite <- list_fmap_compose.
      reflexivity. }
    split; [exact Htl|].
    split; [rewrite Htl, length_fmap; unfold time_points;
            rewrite length_fmap, length_seqZ; lia|].
    split.
    { rewrite Hrest, <- app_assoc. cbn [app]. unfold token_lines.
      rewrite token_lines_aux_endl; [reflexivity|].
      unfold hdr. apply not_elem_of_cons. split; [discriminate|].
      apply header_cells_no_endl. }
    assert (Hhd : line_doubles hdr = time_points p).
    { unfold hdr. rewrite line_doubles_header. reflexivity. }
    split; [exact Hhd|].
    rewrite Hhd, Htl. clear. induction (time_points p) as [|t l IH]; [reflexivity|].
    cbn. f_equal. exact IH.
Qed.

Lemma saveResultsToCSV_time_points_witness :
  exists paths_file time_file header rows,
    saveResultsToCSV ens_example p_example = Some (paths_file, time_file) /\
    token_lines time_file = (fun t => [TDouble t]) <$> time_points p_example /\
    Z.of_nat (length (token_lines time_file)) = steps p_example + 1 /\
    token_lines paths_file = header :: rows /\
    line_doubles header = time_points p_example /\
    line_doubles header = concat (line_doubles <$> token_lines time_file).
Proof.
  apply (saveResultsToCSV_time_points p_example ens_example).
  - cbn. unfold INT_MAX. lia.
  - exact ensemble_for_example.
  - reflexivity.
Defined.

(* ================================================================== *)
(** * The entry point *)
(* ================================================================== *)

(** C5, as the code has it.  [main] validates nothing: whatever the six
    values read, the simulation is the first thing run on them, unchanged.
    If it is undefined so is the run; otherwise a run that completes
    returns 0 and reports that very ensemble, and a run that does not
    complete failed in the statistics or in the export, after the
    simulation. *)
Theorem main_runs_simulation_unvalidated {L : StdLib}
    (input : SimulationParams) (seed : Gen) :
  match runMonteCarloSimulation input seed with
  | None => main input seed = None
  | Some paths =>
      match main input seed with
      | Some r =>
          ensemble r = paths /\ exit_code r = 0 /\
          calculateStatistics paths input = Some (report r) /\
          saveResultsToCSV paths input
          = Some (stock_price_paths_csv r, time_points_csv r)
      | None =>
          calculateStatistics paths input = None \/
          saveResultsToCSV paths input = None
      end
  end.
Proof.
  unfold main. destruct (runMonteCarloSimulation input seed) as [paths|];
    cbn [mbind option_bind]; [|reflexivity].
  destruct (calculateStatistics paths input) as [stats|];
    cbn [mbind option_bind]; [|left; reflexivity].
  destruct (saveResultsToCSV paths input) as [[f1 f2]|];
    cbn [mbind option_bind]; [|right; reflexivity].
  cbn. repeat split.
Qed.

(** C5 as stated fails: with S0 = -1, and with no time steps, the
    parameters are invalid and the program runs the simulation and
    completes. *)
Lemma main_accepts_invalid_parameters :
  (valid_params p_negative = false /\
   fle (S0 p_negative) d_0_0 = true /\
   runMonteCarloSimulation_ref p_negative 42
   = Some [[S754_finite true 4503599627370496 (-52);
            S754_finite true 4878691234316221 (-52)]] /\
   exists r, main_ref p_negative 42 = Some r /\
             exit_code r = 0 /\
             ensemble r = [[S754_finite true 4503599627370496 (-52);
                            S754_finite true 4878691234316221 (-52)]]) /\
  (valid_params p_no_steps = false /\
   steps p_no_steps < 1 /\
   exists r, main_ref p_no_steps 42 = Some r /\
             exit_code r = 0 /\
             ensemble r = [[d_100]; [d_100]]).
Proof.
  split; [split; [reflexivity|split; [reflexivity|split; [vm_compute; reflexivity|]]]
         |split; [reflexivity|split; [cbn; lia|]]];
    eexists; (split; [vm_compute; reflexivity|]); split; reflexivity.
Qed.

(* ================================================================== *)
(** * Results that stay finite *)
(* ================================================================== *)

Lemma shr_m_shr_1 r : 0 <= shr_m r -> shr_m (shr_1 r) = shr_m r / 2.
Proof.
  destruct r as [m rb sb]. cbn [shr_m]. intros Hm.
  destruct (shr_1_div2 m rb sb Hm) as (m' & Hm' & Heq & -> & _).
  apply (Z.div_unique m 2 m' (m - 2 * m')); [|lia].
  left. destruct (shr_r _); lia.
Qed.

Lemma shr_m_iter n : forall r,
  0 <= shr_m r -> shr_m (Nat.iter n shr_1 r) = shr_m r / 2 ^ Z.of_nat n.
Proof.
  induction n as [|n IH]; intros r Hr.
  - cbn. rewrite Z.div_1_r. reflexivity.
  - change (Nat.iter (S n) shr_1 r) with (shr_1 (Nat.iter n shr_1 r)).
    rewrite shr_m_shr_1.
    + rewrite IH by exact Hr. rewrite Z.div_div by (try apply Z.pow_pos_nonneg; lia).
      f_equal. rewrite Nat2Z.inj_succ, Z.pow_succ_r by lia. lia.
    + rewrite IH by exact Hr. apply Z.div_pos; [exact Hr|apply Z.pow_pos_nonneg; lia].
Qed.

Lemma shr_cases mrs e n :
  0 <= shr_m mrs ->
  (n <= 0 /\ shr mrs e n = (mrs, e)) \/
  (0 < n /\ (shr mrs e n).2 = e + n /\ shr_m (shr mrs e n).1 = shr_m mrs / 2 ^ n).
Proof.
  intros Hm. destruct n as [|q|q].
  - left. split; [lia|reflexivity].
  - right. split; [lia|]. rewrite shr_nat by lia. cbn [fst snd].
    split; [reflexivity|]. rewrite shr_m_iter by exact Hm.
    rewrite Z2Nat.id by lia. reflexivity.
  - left. split; [lia|reflexivity].
Qed.

Lemma round_nearest_even_bounds m l :
  m <= round_nearest_even m l <= m + 1.
Proof.
  destruct l as [|[| |]]; cbn [round_nearest_even]; try lia.
  destruct (Z.even m); lia.
Qed.

Lemma Zdigits2_pow m : 0 <= m -> m < 2 ^ Zdigits2 m.
Proof.
  intros Hm. destruct m as [|q|q]; [cbn; lia| |lia].
  apply (digits2_pos_bounds q).
Qed.

Lemma Zdigits2_le m c : 0 <= c -> 0 <= m < 2 ^ c -> Zdigits2 m <= c.
Proof.
  intros Hc [Hm Hlt]. destruct m as [|q|q]; [cbn; lia| |lia].
  cbn [Zdigits2]. pose proof (digits2_pos_bounds q) as [Hlo _].
  destruct (Z_le_gt_dec (Zpos (digits2_pos q)) c) as [|Hgt]; [assumption|].
  assert (2 ^ c <= 2 ^ (Zpos (digits2_pos q) - 1)) by (apply Z.pow_le_mono_r; lia).
  lia.
Qed.

Lemma shr_record_of_loc_m m l : shr_m (shr_record_of_loc m l) = m.
Proof. destruct l as [|[| |]]; reflexivity. Qed.

(** After the shift of [binary_round_aux] the mantissa has at most 53 bits
    and the exponent is the larger of the given one and the one the
    format assigns to the magnitude. *)
Lemma shr_fexp_bounds m e l :
  0 <= m ->
  0 <= shr_m (shr_fexp prec64 emax64 m e l).1 < 2 ^ 53 /\
  -1074 <= (shr_fexp prec64 emax64 m e l).2 /\
  (shr_fexp prec64 emax64 m e l).2
  = Z.max e (fexp prec64 emax64 (Zdigits2 m + e)).
Proof.
  intros Hm. unfold shr_fexp.
  set (D := Zdigits2 m + e).
  assert (Hf : fexp prec64 emax64 D = Z.max (D - 53) (-1074))
    by (unfold fexp, emin, prec64, emax64; lia).
  pose proof (Zdigits2_pow m Hm) as Hpow.
  assert (Hdig : 0 <= Zdigits2 m) by (destruct m; cbn; lia).
  destruct (shr_cases (shr_record_of_loc m l) e (fexp prec64 emax64 D - e))
    as [[Hn ->]|(Hn & -> & ->)]; rewrite ?shr_record_of_loc_m; try exact Hm;
    cbn [fst snd]; rewrite ?shr_record_of_loc_m.
  - assert (Zdigits2 m <= 53) by (subst D; lia).
    assert (2 ^ Zdigits2 m <= 2 ^ 53) by (apply Z.pow_le_mono_r; lia).
    lia.
  - set (n := fexp prec64 emax64 D - e) in *.
    assert (Hn2 : 0 < 2 ^ n) by (apply Z.pow_pos_nonneg; lia).
    split; [split|].
    + apply Z.div_pos; lia.
    + apply Z.div_lt_upper_bound; [exact Hn2|].
      destruct (Z_le_gt_dec (Zdigits2 m) (53 + n)) as [Hle|Hgt]; [|subst n D; lia].
      assert (2 ^ Zdigits2 m <= 2 ^ (n + 53)) by (apply Z.pow_le_mono_r; lia).
      rewrite Z.pow_add_r in * by lia. lia.
    + lia.
Qed.

(** The shape of a rounded result: a finite one has a mantissa of at most
    53 bits and an exponent of at most 971; and the result is finite when
    the exponent the format assigns leaves room for one carry. *)
Lemma binary_round_aux_shape s m e l :
  0 <= m ->
  (Z.max e (fexp prec64 emax64 (Zdigits2 m + e)) <= 970 ->
   is_finite (binary_round_aux prec64 emax64 s m e l) = true) /\
  match binary_round_aux prec64 emax64 s m e l with
  | S754_finite _ m' e' => Zpos m' < 2 ^ 53 /\ e' <= 971
  | _ => True
  end.
Proof.
  intros Hm. unfold binary_round_aux.
  pose proof (shr_fexp_bounds m e l Hm) as (Hm1 & He1 & HE1).
  destruct (shr_fexp prec64 emax64 m e l) as [mrs' e']. cbn [fst snd] in *.
  pose proof (round_nearest_even_bounds (shr_m mrs') (loc_of_shr_record mrs')) as Hr.
  set (m1 := round_nearest_even (shr_m mrs') (loc_of_shr_record mrs')) in *.
  pose proof (shr_fexp_bounds m1 e' loc_Exact ltac:(lia)) as (Hm2 & He2 & HE2).
  assert (Hd1 : Zdigits2 m1 <= 54).
  { apply Zdigits2_le; [lia|]. change (2 ^ 54) with (2 * 2 ^ 53). lia. }
  assert (Hf : fexp prec64 emax64 (Zdigits2 m1 + e') <= e' + 1)
    by (unfold fexp, emin, prec64, emax64; lia).
  destruct (shr_fexp prec64 emax64 m1 e' loc_Exact) as [mrs'' e'']. cbn [fst snd] in *.
  destruct (shr_m mrs'') as [|q|q] eqn:Eq; try lia.
  - split; [reflexivity|exact I].
  - destruct (e'' <=? emax64 - prec64) eqn:Ele.
    + split; [reflexivity|]. apply Z.leb_le in Ele. unfold emax64, prec64 in Ele.
      split; lia.
    + split; [|exact I]. intros HE. apply Z.leb_gt in Ele.
      unfold emax64, prec64 in Ele. lia.
Qed.

(** A mantissa of 54 bits whose last bit is 0 is rounded exactly. *)
Lemma binary_round_aux_even s (m : positive) e :
  Zpos (digits2_pos m) = 53 -> -1075 <= e <= 970 ->
  binary_round_aux prec64 emax64 s (Zpos m~0) e loc_Exact = S754_finite s m (e + 1).
Proof.
  intros Hd He. unfold binary_round_aux, shr_fexp.
  cbn [Zdigits2 digits2_pos shr_record_of_loc]. rewrite Pos2Z.inj_succ, Hd.
  rewrite fexp64_normal by lia.
  replace (Z.succ 53 + e - 53 - e) with 1 by lia.
  cbn [shr SpecFloat.iter_pos shr_1 shr_m shr_r shr_s orb loc_of_shr_record
       round_nearest_even Zdigits2].
  rewrite Hd, fexp64_normal by lia.
  replace (53 + (e + 1) - 53 - (e + 1)) with 0 by lia.
  cbn [shr shr_record_of_loc shr_m].
  replace (e + 1 <=? emax64 - prec64) with true
    by (symmetry; apply Z.leb_le; unfold emax64, prec64; lia).
  reflexivity.
Qed.

(** A value of the format that is not negative, not infinite and not a
    NaN: the time horizons the property below speaks of. *)
Lemma is_binary64_finite m e :
  is_binary64 (S754_finite false m e) = true ->
  Zpos (digits2_pos m) <= 53 /\ Zpos (digits2_pos m) + e <= 1024 /\ e <= 971 /\
  (Zpos (digits2_pos m) + e = 1024 -> Zpos (digits2_pos m) = 53 /\ e = 971).
Proof.
  unfold is_binary64, valid_binary, bounded, canonical_mantissa.
  intros H. apply andb_true_iff in H as [Hc Hb].
  apply Z.eqb_eq in Hc. apply Z.leb_le in Hb.
  unfold fexp, emin, prec64, emax64 in *. lia.
Qed.

(** The square root of a finite number is finite. *)
Lemma fsqrt_finite x :
  match x with
  | S754_zero _ => True
  | S754_finite false m e => Zpos m < 2 ^ 53 /\ e <= 971
  | _ => False
  end ->
  is_finite (fsqrt x) = true.
Proof.
  destruct x as [s|s| |[|] m e]; try contradiction; [reflexivity|].
  intros [Hm He]. unfold fsqrt. cbn [SFsqrt]. unfold SFsqrt_core_binary.
  set (d := Zdigits2 (Zpos m)).
  assert (Hd : 1 <= d <= 53).
  { split; [unfold d; cbn; lia|]. apply Zdigits2_le; lia. }
  set (e' := Z.min (fexp prec64 emax64 (Z.div2 (d + e + 1))) (Z.div2 e)).
  assert (He' : 2 * e' <= e).
  { unfold e'. rewrite !Z.div2_div.
    pose proof (Z.mul_div_le e 2 ltac:(lia)). lia. }
  assert (He'u : e' <= 485).
  { unfold e'. rewrite !Z.div2_div.
    assert (e / 2 <= 971 / 2) by (apply Z.div_le_mono; lia).
    change (971 / 2) with 485 in *. lia. }
  set (sh := e - 2 * e') in *.
  set (m' := match sh with Z0 => Zpos m | Zpos _ => Z.shiftl (Zpos m) sh | Zneg _ => 0 end).
  assert (Hm' : 0 <= m' < 2 ^ (d + sh)).
  { pose proof (Zdigits2_pow (Zpos m) ltac:(lia)) as Hp. fold d in Hp.
    assert (Hsh : 0 <= sh) by (unfold sh; lia).
    assert (m' = Zpos m * 2 ^ sh).
    { unfold m'. destruct sh as [|q|q] eqn:E; try lia.
      rewrite Z.shiftl_mul_pow2 by lia. reflexivity. }
    assert (0 < 2 ^ sh) by (apply Z.pow_pos_nonneg; lia).
    rewrite Z.pow_add_r by lia. nia. }
  pose proof (Z.sqrtrem_spec m' ltac:(lia)) as Hs.
  destruct (Z.sqrtrem m') as [q r]. destruct Hs as [Hq Hr].
  assert (Hq0 : 0 <= q) by lia.
  set (c := (d + sh + 1) / 2).
  assert (Hc : d + sh <= 2 * c).
  { unfold c. pose proof (Z.div_mod (d + sh + 1) 2 ltac:(lia)).
    pose proof (Z.mod_pos_bound (d + sh + 1) 2 ltac:(lia)). lia. }
  assert (Hc0 : 0 <= c) by (unfold sh in *; lia).
  assert (Hqc : q < 2 ^ c).
  { destruct (Z_lt_ge_dec q (2 ^ c)) as [|Hge]; [assumption|].
    assert (2 ^ (d + sh) <= 2 ^ (2 * c)) by (apply Z.pow_le_mono_r; lia).
    replace (2 * c) with (c + c) in * by lia.
    rewrite (Z.pow_add_r 2 c c) in * by lia.
    assert (0 < 2 ^ c) by (apply Z.pow_pos_nonneg; lia). nia. }
  pose proof (Zdigits2_le q c Hc0 ltac:(lia)) as Hdq.
  assert (Hsum : c + e' = (d + e + 1) / 2).
  { unfold c, sh. replace (d + (e - 2 * e') + 1) with (d + e + 1 + (- e') * 2) by lia.
    rewrite Z.div_add by lia. lia. }
  assert (Hbig : (d + e + 1) / 2 <= 512).
  { assert ((d + e + 1) / 2 <= 1025 / 2) by (apply Z.div_le_mono; lia).
    change (1025 / 2) with 512 in *. lia. }
  apply (binary_round_aux_shape false q e'); [exact Hq0|].
  unfold fexp, emin, prec64, emax64. lia.
Qed.

(** The quotient of two positive finite numbers does not overflow when
    its magnitude leaves room for one carry. *)
Lemma fdiv_finite_below (m1 : positive) (e1 : Z) (m2 : positive) (d : Z) :
  Zpos (digits2_pos m1) + e1 - d <= 1022 ->
  2 ^ 52 <= Zpos m2 < 2 ^ 53 ->
  match fdiv (S754_finite false m1 e1) (S754_finite false m2 (d - 53)) with
  | S754_zero _ => True
  | S754_finite false m e => Zpos m < 2 ^ 53 /\ e <= 971
  | _ => False
  end.
Proof.
  intros Hmag Hm2. set (d1 := Zpos (digits2_pos m1)) in *.
  assert (Hd1lo : 1 <= d1) by (unfold d1; lia).
  unfold fdiv. cbn [SFdiv xorb].
  assert (Hd2 : Zdigits2 (Zpos m2) = 53).
  { cbn [Zdigits2]. apply digits2_pos_unique. exact Hm2. }
  unfold SFdiv_core_binary. rewrite Hd2. cbn [Zdigits2]. fold d1.
  set (ez := Z.min (fexp prec64 emax64 (d1 + e1 - (53 + (d - 53)))) (e1 - (d - 53))).
  assert (Hez : ez <= 970 /\ ez <= e1 - (d - 53)).
  { unfold ez, fexp, emin, prec64, emax64. lia. }
  set (sh := e1 - (d - 53) - ez) in *.
  set (m' := match sh with Z0 => Zpos m1 | Zpos _ => Z.shiftl (Zpos m1) sh | Zneg _ => 0 end).
  assert (Hm' : 0 <= m' < 2 ^ (d1 + sh)).
  { pose proof (digits2_pos_bounds m1) as [_ Hp]. fold d1 in Hp.
    assert (Hsh : 0 <= sh) by (unfold sh; lia).
    assert (m' = Zpos m1 * 2 ^ sh).
    { unfold m'. destruct sh as [|q|q] eqn:E; try lia.
      rewrite Z.shiftl_mul_pow2 by lia. reflexivity. }
    assert (0 < 2 ^ sh) by (apply Z.pow_pos_nonneg; lia).
    rewrite Z.pow_add_r by lia. nia. }
  pose proof (Z.div_pos m' (Zpos m2) ltac:(lia) ltac:(lia)) as Hq0.
  pose proof (Z.mul_div_le m' (Zpos m2) ltac:(lia)) as Hqm.
  unfold Z.div in Hq0, Hqm.
  destruct (Z.div_eucl m' (Zpos m2)) as [q r]. cbn [fst] in Hq0, Hqm.
  assert (Hdq : Zdigits2 q + ez <= Z.max ez (d1 + e1 - d + 1)).
  { destruct (Z_le_gt_dec 52 (d1 + sh)) as [Hge|Hlt].
    - assert (Hq : q < 2 ^ (d1 + sh - 52)).
      { assert (Hsplit : 2 ^ (d1 + sh) = 2 ^ (d1 + sh - 52) * 2 ^ 52)
          by (rewrite <- Z.pow_add_r by lia; f_equal; lia).
        assert (0 < 2 ^ (d1 + sh - 52)) by (apply Z.pow_pos_nonneg; lia). nia. }
      pose proof (Zdigits2_le q (d1 + sh - 52) ltac:(lia) ltac:(lia)).
      unfold sh in *. lia.
    - assert (q = 0).
      { assert (2 ^ (d1 + sh) <= 2 ^ 52) by (apply Z.pow_le_mono_r; unfold sh in *; lia).
        nia. }
      subst q. cbn [Zdigits2]. lia. }
  pose proof (binary_round_aux_sign false q ez (new_location (Zpos m2) r) Hq0) as Hsign.
  destruct (binary_round_aux_shape false q ez (new_location (Zpos m2) r) Hq0)
    as [Hfinite Hshape].
  assert (HE : Z.max ez (fexp prec64 emax64 (Zdigits2 q + ez)) <= 970).
  { unfold fexp, emin, prec64, emax64. lia. }
  specialize (Hfinite HE).
  destruct (binary_round_aux prec64 emax64 false q ez (new_location (Zpos m2) r))
    as [s|s| |s m e]; cbn in Hsign, Hfinite; try discriminate; try exact I.
  subst s. exact Hshape.
Qed.

(** A finite, non-negative value of the format divided by a positive
    [int] is a zero or a positive finite number: the quotient is at most
    the dividend, so it does not overflow. *)
Lemma fdiv_int_finite (x : double) (n : Z) :
  is_binary64 x = true -> is_finite x = true -> not_negative x ->
  1 <= n <= INT_MAX ->
  match fdiv x (double_of_int n) with
  | S754_zero _ => True
  | S754_finite false m e => Zpos m < 2 ^ 53 /\ e <= 971
  | _ => False
  end.
Proof.
  intros Hval Hfin Hnn Hn.
  destruct n as [|np|np]; try lia.
  pose proof (double_of_int_pos np ltac:(lia)) as Hconv. cbv zeta in Hconv.
  pose proof (digits2_pos_bounds np) as Hb.
  set (d := Zpos (digits2_pos np)) in *.
  assert (Hd : 1 <= d <= 31).
  { split; [unfold d; lia|].
    destruct (Z_le_gt_dec d 31) as [|Hgt]; [assumption|].
    assert (2 ^ 31 <= 2 ^ (d - 1)) by (apply Z.pow_le_mono_r; lia).
    unfold INT_MAX in Hn. lia. }
  apply not_negative_iff in Hnn.
  destruct x as [s|s| |[|] m1 e1]; try discriminate Hfin; try contradiction.
  { rewrite Hconv. exact I. }
  destruct (is_binary64_finite m1 e1 Hval) as (Hd1 & Hde1 & He1 & Hcorner).
  set (d1 := Zpos (digits2_pos m1)) in *.
  destruct (Z_le_gt_dec (d1 + e1 - d) 1022) as [Hmag|Hmag].
  - (* the magnitude of the quotient leaves room for a carry *)
    rewrite Hconv. apply fdiv_finite_below; [exact Hmag|].
    rewrite Z2Pos.id.
    + assert (H1 : 2 ^ (53 - d) * 2 ^ (d - 1) = 2 ^ 52)
        by (rewrite <- Z.pow_add_r by lia; f_equal; lia).
      assert (H2 : 2 ^ (53 - d) * 2 ^ d = 2 ^ 53)
        by (rewrite <- Z.pow_add_r by lia; f_equal; lia).
      assert (0 < 2 ^ (53 - d)) by (apply Z.pow_pos_nonneg; lia). nia.
    + assert (0 < 2 ^ (53 - d)) by (apply Z.pow_pos_nonneg; lia). nia.
  - (* the quotient by 1 of a number of the top binade *)
    assert (Hdone : d = 1) by lia.
    destruct (Hcorner ltac:(lia)) as [Hd53 He971].
    assert (Hnp : np = 1%positive).
    { rewrite Hdone in Hb. change (2 ^ (1 - 1)) with 1 in Hb. change (2 ^ 1) with 2 in Hb.
      lia. }
    subst np. clear Hconv. change (double_of_int 1) with d_1_0.
    unfold fdiv, d_1_0. cbn [SFdiv xorb]. unfold SFdiv_core_binary.
    cbn [Zdigits2]. fold d1. rewrite Hd53, He971.
    change (Z.min (fexp prec64 emax64 (53 + 971 - (Zpos (digits2_pos 4503599627370496) + -52)))
                  (971 - -52)) with 970.
    change (971 - -52 - 970) with 53.
    rewrite Z.shiftl_mul_pow2 by lia.
    assert (Hq : Zpos m1 * 2 ^ 53 = Zpos m1~0 * 4503599627370496) by lia.
    rewrite Hq.
    pose proof (Z.div_mul (Zpos m1~0) 4503599627370496 ltac:(lia)) as Hdiv.
    pose proof (Z.mod_mul (Zpos m1~0) 4503599627370496 ltac:(lia)) as Hmod.
    unfold Z.div, Z.modulo in Hdiv, Hmod.
    destruct (Z.div_eucl (Zpos m1~0 * 4503599627370496) 4503599627370496) as [q r].
    cbn [fst snd] in Hdiv, Hmod. subst q r.
    change (new_location 4503599627370496 0) with loc_Exact.
    rewrite binary_round_aux_even by (fold d1; lia).
    split; [|lia].
    pose proof (digits2_pos_bounds m1) as Hbm. fold d1 in Hbm. rewrite Hd53 in Hbm. lia.
Qed.
(* ================================================================== *)
(** * Zero volatility *)
(* ================================================================== *)

Lemma feq_zero x : feq x d_0_0 = true -> exists s, x = S754_zero s.
Proof.
  destruct x as [s|[|]| |[|] m e]; intros H; try discriminate H. eauto.
Qed.

Lemma fsub_zero_r x : fsub x d_0_0 = x.
Proof. destruct x as [[|]|[|]| |s m e]; reflexivity. Qed.

Lemma fmul_zero_finite s x :
  is_finite x = true -> exists s', fmul (S754_zero s) x = S754_zero s'.
Proof.
  destruct x as [sx|sx| |sx m e]; intros H; try discriminate H; cbn; eauto.
Qed.

Lemma fadd_zero_r x s :
  fadd x (S754_zero s) = x \/
  exists s1 s2, x = S754_zero s1 /\ fadd x (S754_zero s) = S754_zero s2.
Proof.
  destruct x as [sx|sx| |sx m e]; cbn; auto.
  right. destruct sx, s; cbn; eauto.
Qed.

Lemma compound_path_lookup k : forall x f (i : nat),
  (i <= k)%nat -> compound_path x f k !! i = Some (compound x f i).
Proof.
  induction k as [|k IH]; intros x f i Hi.
  - assert (i = 0%nat) as -> by lia. reflexivity.
  - destruct i as [|i]; [reflexivity|]. cbn [compound_path lookup list_lookup].
    rewrite IH by lia. f_equal. unfold compound.
    rewrite Nat.iter_succ_r. reflexivity.
Qed.

Lemma flt_zero_not_negative x : flt d_0_0 x = true -> not_negative x.
Proof.
  intros H. apply not_negative_iff.
  destruct x as [[|]|[|]| |[|] m e]; try discriminate H; exact I.
Qed.

(** For a finite time horizon that is not negative, the time step
    [T / steps] has a finite square root. *)
Lemma time_step_sqrt_finite p :
  is_binary64 (T p) = true -> is_finite (T p) = true -> not_negative (T p) ->
  1 <= steps p <= INT_MAX ->
  is_finite (fsqrt (time_step p)) = true.
Proof.
  intros Hval Hfin Hnn Hs. apply fsqrt_finite. unfold time_step.
  apply fdiv_int_finite; assumption.
Qed.

Section ZeroVolatility.
Context {L : StdLib}.

(** The contracts of [std::exp] and of the distribution that the
    property needs: [exp(-0) = exp(+0)] (both are 1 by Annex F of the C
    standard), and every sample is finite. *)
Hypothesis exp_zero_sign : std_exp (S754_zero true) = std_exp (S754_zero false).
Hypothesis samples_finite : forall d g, is_finite (dist_call d g).1.1 = true.

Lemma draw_samples_finite k : forall d g, all_finite (draw_samples k d g).1.1.
Proof.
  induction k as [|k IH]; intros d g; [constructor|].
  rewrite draw_samples_S. cbn [fst]. constructor; [apply samples_finite|apply IH].
Qed.

Lemma std_exp_zero s : std_exp (S754_zero s) = std_exp d_0_0.
Proof. destruct s; [exact exp_zero_sign|reflexivity]. Qed.

Lemma gbm_factor_zero_vol drift s z :
  is_finite z = true ->
  gbm_factor drift (S754_zero s) z = std_exp drift.
Proof.
  intros Hz. unfold gbm_factor.
  destruct (fmul_zero_finite s z Hz) as [s' ->].
  destruct (fadd_zero_r drift s') as [-> | (s1 & s2 & -> & ->)]; [reflexivity|].
  rewrite !std_exp_zero. reflexivity.
Qed.

Lemma gbm_path_zero_vol zs : forall x drift s,
  all_finite zs ->
  gbm_path x drift (S754_zero s) zs = compound_path x (std_exp drift) (length zs).
Proof.
  induction zs as [|z zs IH]; intros x drift s Hz; [reflexivity|].
  inversion Hz; subst. cbn [gbm_path compound_path length].
  rewrite gbm_factor_zero_vol by assumption. rewrite IH by assumption. reflexivity.
Qed.

(** C7, as the code has it.  For [sigma = 0], a finite time horizon
    [T > 0] and [steps >= 1], the path does not depend on the random
    source: it starts at [S0] and every price is the previous one times
    the single factor [exp (mu * dt)], so the price at step [i] is [S0]
    multiplied [i] times by that factor. *)
Theorem generatePath_zero_volatility (p : SimulationParams) (gen : Gen) :
  feq (sigma p) d_0_0 = true ->
  is_binary64 (T p) = true -> is_finite (T p) = true -> flt d_0_0 (T p) = true ->
  1 <= steps p < INT_MAX ->
  let factor := std_exp (fmul (mu p) (time_step p)) in
  exists gen',
    generatePath p gen
    = Some (compound_path (S0 p) factor (Z.to_nat (steps p)), gen') /\
    forall i : nat, (i <= Z.to_nat (steps p))%nat ->
      compound_path (S0 p) factor (Z.to_nat (steps p)) !! i
      = Some (compound (S0 p) factor i).
Proof.
  intros Hsig HTval HTfin HTpos Hs factor.
  destruct (feq_zero _ Hsig) as [s Hs0].
  assert (Hdrift : drift_of p = fmul (mu p) (time_step p)).
  { unfold drift_of. rewrite Hs0.
    replace (fmul (fmul d_0_5 (S754_zero s)) (S754_zero s)) with d_0_0
      by (destruct s; reflexivity).
    rewrite fsub_zero_r. reflexivity. }
  assert (Hsqrt : is_finite (fsqrt (time_step p)) = true).
  { apply time_step_sqrt_finite; try assumption; [|lia].
    apply flt_zero_not_negative. exact HTpos. }
  destruct (fmul_zero_finite s _ Hsqrt) as [s' Hvol].
  assert (Hvol' : vol_of p = S754_zero s') by (unfold vol_of; rewrite Hs0; exact Hvol).
  eexists. split; [|intros i Hi; apply compound_path_lookup; exact Hi].
  rewrite generatePath_eq by lia. rewrite Hvol', Hdrift.
  rewrite gbm_path_zero_vol by apply draw_samples_finite.
  rewrite draw_samples_length. reflexivity.
Qed.

End ZeroVolatility.

Lemma ref_samples_finite d g : is_finite (ref_dist_call d g).1.1 = true.
Proof.
  unfold ref_dist_call. cbn [fst].
  set (k := Z.to_nat _).
  do 8 (destruct k as [|k]; [reflexivity|]). destruct k; reflexivity.
Qed.

Lemma generatePath_zero_volatility_witness :
  let factor := exp_ref (fmul (mu p_compound) (time_step p_compound)) in
  exists gen',
    generatePath_ref p_compound 42
    = Some (compound_path (S0 p_compound) factor (Z.to_nat (steps p_compound)), gen') /\
    forall i : nat, (i <= Z.to_nat (steps p_compound))%nat ->
      compound_path (S0 p_compound) factor (Z.to_nat (steps p_compound)) !! i
      = Some (compound (S0 p_compound) factor i).
Proof.
  apply (@generatePath_zero_volatility ref_lib eq_refl ref_samples_finite p_compound 42).
  - reflexivity.
  - reflexivity.
  - reflexivity.
  - reflexivity.
  - cbn. unfold INT_MAX. lia.
Defined.

(** C7 as stated fails on the closed form: with S0 = 100, mu = 0.08,
    sigma = 0, T = 1 and four steps, the price at step 2 is
    [(100 * exp 0.02) * exp 0.02], which is one unit in the last place
    below [100 * exp (0.08 * 2 * 0.25)]; the prices at steps 3 and 4
    differ from the closed form as well. *)
Lemma generatePath_closed_form_rounding :
  valid_params p_compound = true /\
  feq (sigma p_compound) d_0_0 = true /\
  (exists gen',
     generatePath_ref p_compound 42
     = Some ([d_100;
              S754_finite false 7179028710605278 (-46);
              S754_finite false 7324054710650057 (-46);
              S754_finite false 7472010430234461 (-46);
              S754_finite false 7622955053619093 (-46)], gen')) /\
  @closed_form ref_lib p_compound 2 = S754_finite false 7324054710650058 (-46) /\
  @closed_form ref_lib p_compound 3 = S754_finite false 7472010430234462 (-46) /\
  @closed_form ref_lib p_compound 4 = S754_finite false 7622955053619095 (-46).
Proof.
  split; [reflexivity|]. split; [reflexivity|].
  split; [eexists; vm_compute; reflexivity|].
  repeat split; vm_compute; reflexivity.
Qed.

(** The same gap without a word on the accuracy of [exp]: from the
    smallest positive S0 with mu = 709, T = 2 and two steps, the price at
    step 2 is finite, [(2^-1074 * exp 709) * exp 709], while the closed
    form [2^-1074 * exp 1418] is infinite. *)
Example generatePath_closed_form_overflow :
  valid_params p_overflow = true /\
  (exists gen',
     generatePath_ref p_overflow 42
     = Some ([S754_finite false 1 (-1074);
              S754_finite false 8235536102055067 (-104);
              S754_finite false 7529982736037818 919], gen')) /\
  @closed_form ref_lib p_overflow 2 = d_pinf.
Proof.
  split; [reflexivity|]. split; [eexists|]; vm_compute; reflexivity.
Qed.

(** The underflow of C2 without a word on the accuracy of [exp]: with
    mu = -2^1023 and T = 2 the drift overflows to [-inf], and
    [exp(-inf) = +0] for every conforming [exp]; the price after the step is
    0 whatever the sample. *)
Lemma generatePath_price_zero_any_exp {L : StdLib} (gen : Gen) :
  std_exp d_ninf = d_0_0 ->
  (forall d g, is_finite (dist_call d g).1.1 = true) ->
  valid_params p_cliff = true /\
  exists gen', generatePath p_cliff gen = Some ([d_100; d_0_0], gen').
Proof.
  intros Hexp Hfin. split; [reflexivity|].
  rewrite generatePath_eq by (cbn; unfold INT_MAX; lia).
  eexists. f_equal. f_equal.
  change (Z.to_nat (steps p_cliff)) with 1%nat.
  rewrite draw_samples_S. cbn [draw_samples fst snd gbm_path].
  assert (Hd : drift_of p_cliff = d_ninf) by (vm_compute; reflexivity).
  assert (Hv : vol_of p_cliff = d_0_0) by (vm_compute; reflexivity).
  rewrite Hd, Hv. unfold gbm_factor.
  destruct (fmul_zero_finite false _ (Hfin dist_init gen)) as [s' Hz].
  unfold d_0_0 at 1. rewrite Hz.
  change (fadd d_ninf (S754_zero s')) with d_ninf. rewrite Hexp. reflexivity.
Qed.

(* ================================================================== *)
(** * The scenarios of the specification *)
(* ================================================================== *)

(** S0 = 100, mu = 0.08, sigma = 0, T = 1, one step, one path: the single
    trajectory is [100, 100 * exp 0.08], about [100.00, 108.33]; and with
    one path the mean, the minimum, the maximum and both percentiles are
    that terminal value, the standard deviation 0. *)
Example scenario_single_path :
  exists r,
    main_ref p_scenario 42 = Some r /\
    ensemble r = [[d_100; S754_finite false 7622955053619095 (-46)]] /\
    report r = {| mean := S754_finite false 7622955053619095 (-46);
                  std_dev := d_0_0;
                  min_price := S754_finite false 7622955053619095 (-46);
                  max_price := S754_finite false 7622955053619095 (-46);
                  percentile_5 := S754_finite false 7622955053619095 (-46);
                  percentile_95 := S754_finite false 7622955053619095 (-46) |}.
Proof. eexists. split; [vm_compute; reflexivity|]. split; reflexivity. Qed.

(** An infinite terminal value makes the mean infinite and the standard
    deviation a NaN. *)
Example std_dev_of_infinity :
  exists st,
    calculateStatistics_ref [[d_pinf]] p_terminal = Some st /\
    mean st = d_pinf /\ std_dev st = S754_nan.
Proof. eexists. split; [vm_compute; reflexivity|]. split; reflexivity. Qed.

Section Defined.
Context {L : StdLib}.

Lemma generatePath_Some_steps p gen r :
  generatePath p gen = Some r -> 0 <= steps p < INT_MAX.
Proof.
  unfold generatePath, int_add, vector_new, vector_set, in_int_range.
  destruct (INT_MIN <=? steps p + 1) eqn:E1;
    destruct (steps p + 1 <=? INT_MAX) eqn:E2; cbn; try discriminate.
  destruct (0 <=? steps p + 1) eqn:E3; cbn; try discriminate.
  rewrite length_replicate.
  destruct (0 <? Z.of_nat (Z.to_nat (steps p + 1))) eqn:E4; cbn; try discriminate.
  intros _. apply Z.leb_le in E2, E3. apply Z.ltb_lt in E4.
  unfold INT_MIN, INT_MAX in *. lia.
Qed.

Lemma generatePath_path_from p gen :
  0 <= steps p < INT_MAX ->
  generatePath p gen = Some (path_from p gen, next_engine p gen).
Proof. apply generatePath_eq. Qed.

End Defined.

(** X1.  [generatePath] has a defined result exactly when
    [0 <= steps < INT_MAX]. *)
Theorem generatePath_defined_iff {L : StdLib} (p : SimulationParams) (gen : Gen) :
  is_Some (generatePath p gen) <-> 0 <= steps p < INT_MAX.
Proof.
  split.
  - intros [r Hr]. eapply generatePath_Some_steps, Hr.
  - intros Hs. rewrite generatePath_eq by exact Hs. eauto.
Qed.

(* ================================================================== *)
(** * Prices that never recover *)
(* ================================================================== *)

Lemma fmul_nan_l y : fmul S754_nan y = S754_nan.
Proof. reflexivity. Qed.

Lemma fmul_zero_or_nan x y :
  is_zero x || is_nan x = true -> is_zero (fmul x y) || is_nan (fmul x y) = true.
Proof. destruct x, y; cbn; congruence. Qed.

Lemma fmul_not_finite x y :
  is_finite x = false -> is_finite (fmul x y) = false.
Proof. destruct x, y; cbn; congruence. Qed.

Section Absorbing.
Context {L : StdLib}.

Lemma gbm_path_suffix zs : forall x drift vol (i : nat) xi,
  gbm_path x drift vol zs !! i = Some xi ->
  drop i (gbm_path x drift vol zs) = gbm_path xi drift vol (drop i zs).
Proof.
  induction zs as [|z zs IH]; intros x drift vol i xi Hi.
  - destruct i as [|i]; cbn in Hi; [|discriminate].
    inversion Hi; subst. reflexivity.
  - destruct i as [|i]; cbn in Hi.
    + inversion Hi; subst. reflexivity.
    + cbn [gbm_path drop]. apply IH. exact Hi.
Qed.

(** A class of prices that multiplication never leaves holds the whole
    trajectory once it holds its first price. *)
Lemma gbm_path_closed (P : double -> bool) zs :
  (forall x y, P x = true -> P (fmul x y) = true) ->
  forall x drift vol, P x = true ->
    Forall (fun y => P y = true) (gbm_path x drift vol zs).
Proof.
  intros HP. induction zs as [|z zs IH]; intros x drift vol Hx; cbn [gbm_path].
  - constructor; [exact Hx|constructor].
  - constructor; [exact Hx|]. apply IH, HP, Hx.
Qed.

Lemma gbm_path_closed_lookup (P : double -> bool) zs x drift vol (i j : nat) a b :
  (forall x y, P x = true -> P (fmul x y) = true) ->
  (i <= j)%nat ->
  gbm_path x drift vol zs !! i = Some a ->
  gbm_path x drift vol zs !! j = Some b ->
  P a = true -> P b = true.
Proof.
  intros HP Hij Ha Hb HPa.
  pose proof (gbm_path_suffix zs x drift vol i a Ha) as Hdrop.
  pose proof (gbm_path_closed P (drop i zs) HP a drift vol HPa) as Hall.
  rewrite <- Hdrop in Hall. rewrite Forall_forall in Hall. apply Hall.
  apply list_elem_of_lookup. exists (j - i)%nat.
  rewrite lookup_drop. replace (i + (j - i))%nat with j by lia. exact Hb.
Qed.

End Absorbing.

(** X2.  Along a trajectory NaN, zero and infinity are never left: after a
    NaN price every later price is a NaN, after a zero price every later
    price is a zero or a NaN, and after a price that is not finite no
    later price is finite. *)
Theorem generatePath_absorbing {L : StdLib} (p : SimulationParams) (gen g' : Gen)
    (path : list double) (i j : nat) (x y : double) :
  generatePath p gen = Some (path, g') ->
  (i <= j)%nat ->
  path !! i = Some x -> path !! j = Some y ->
  (is_nan x = true -> is_nan y = true) /\
  (is_zero x = true -> is_zero y || is_nan y = true) /\
  (is_finite x = false -> is_finite y = false).
Proof.
  intros Hgen Hij Hx Hy.
  pose proof (generatePath_Some_steps p gen _ Hgen) as Hs.
  rewrite generatePath_eq in Hgen by exact Hs.
  inversion Hgen as [[Hpath Hg]]. clear Hgen Hg. rewrite <- Hpath in Hx, Hy.
  split; [|split].
  - intros Hn.
    eapply (gbm_path_closed_lookup is_nan); [|exact Hij|exact Hx|exact Hy|exact Hn].
    intros a b Ha. destruct a; try discriminate. reflexivity.
  - intros Hz.
    eapply (gbm_path_closed_lookup (fun v => is_zero v || is_nan v));
      [apply fmul_zero_or_nan|exact Hij|exact Hx|exact Hy|].
    cbv beta. rewrite Hz. reflexivity.
  - intros Hf.
    assert (H : negb (is_finite y) = true).
    { eapply (gbm_path_closed_lookup (fun v => negb (is_finite v)));
        [|exact Hij|exact Hx|exact Hy|].
      - intros a b Ha. rewrite fmul_not_finite; [reflexivity|].
        destruct (is_finite a); [discriminate|reflexivity].
      - cbv beta. rewrite Hf. reflexivity. }
    destruct (is_finite y); [discriminate|reflexivity].
Qed.

Lemma generatePath_absorbing_witness :
  (is_nan d_0_0 = true -> is_nan d_0_0 = true) /\
  (is_zero d_0_0 = true -> is_zero d_0_0 || is_nan d_0_0 = true) /\
  (is_finite d_0_0 = false -> is_finite d_0_0 = false).
Proof.
  apply (@generatePath_absorbing ref_lib p_collapse 42 1116302264
           [d_100; d_0_0; d_0_0] 1 2 d_0_0 d_0_0).
  - vm_compute. reflexivity.
  - lia.
  - reflexivity.
  - reflexivity.
Defined.

(* ================================================================== *)
(** * The ensemble *)
(* ================================================================== *)

Lemma vector_set_Some {A} (v : list A) (i : Z) (x : A) :
  0 <= i < Z.of_nat (length v) ->
  vector_set v i x = Some (<[Z.to_nat i := x]> v).
Proof.
  intros Hi. rewrite <- (Z2Nat.id i) at 1 by lia. apply vector_set_nat. lia.
Qed.

Lemma vector_get_Some {A} (v : list A) (i : Z) :
  0 <= i -> vector_get v i = v !! Z.to_nat i.
Proof.
  intros Hi. rewrite <- (Z2Nat.id i) at 1 by lia. apply vector_get_nat.
Qed.

Section EnsembleProperties.
Context {L : StdLib}.

Lemma ensemble_from_S p n seed :
  ensemble_from p (S n) seed
  = ensemble_from p n seed ++ [path_from p (Nat.iter n (next_engine p) seed)].
Proof. unfold ensemble_from. rewrite seq_S, fmap_app. reflexivity. Qed.

Lemma ensemble_from_length p n seed : length (ensemble_from p n seed) = n.
Proof. unfold ensemble_from. rewrite length_fmap, length_seq. reflexivity. Qed.

Lemma ensemble_from_lookup p n seed (k : nat) :
  (k < n)%nat ->
  ensemble_from p n seed !! k = Some (path_from p (Nat.iter k (next_engine p) seed)).
Proof.
  intros Hk. unfold ensemble_from. rewrite list_lookup_fmap, lookup_seq_lt by exact Hk.
  reflexivity.
Qed.

Lemma ensemble_from_prefix p n m seed :
  (n <= m)%nat -> ensemble_from p n seed `prefix_of` ensemble_from p m seed.
Proof.
  intros Hnm. exists ((fun k => path_from p (Nat.iter k (next_engine p) seed))
                        <$> seq n (m - n)).
  unfold ensemble_from. rewrite <- fmap_app, <- seq_app. f_equal. f_equal. lia.
Qed.

Lemma path_from_length p g : length (path_from p g) = S (Z.to_nat (steps p)).
Proof. unfold path_from. rewrite gbm_path_length, draw_samples_length. reflexivity. Qed.

Lemma path_from_head p g : path_from p g !! 0%nat = Some (S0 p).
Proof. unfold path_from. apply gbm_path_head. Qed.

(** The loop of [runMonteCarloSimulation] fills the vector with the
    trajectories of consecutive calls of [generatePath], each started
    from the engine the call before left. *)
Lemma runMonteCarloSimulation_eq p seed :
  0 <= steps p < INT_MAX -> 0 <= num_paths p <= INT_MAX ->
  runMonteCarloSimulation p seed
  = Some (ensemble_from p (Z.to_nat (num_paths p)) seed).
Proof.
  intros Hs Hn. unfold runMonteCarloSimulation, vector_new.
  replace (0 <=? num_paths p) with true by (symmetry; apply Z.leb_le; lia).
  cbn [mbind option_bind].
  destruct (for_loop_invariant
              (fun i (st : list (list double) * Gen) =>
                 0 <= i /\
                 st = (ensemble_from p (Z.to_nat i) seed
                         ++ replicate (Z.to_nat (num_paths p - i)) [],
                       Nat.iter (Z.to_nat i) (next_engine p) seed))
              (fun i => i <? num_paths p)
              (fun i (st : list (list double) * Gen) =>
                 r ← generatePath p st.2;
                 paths' ← vector_set st.1 i r.1;
                 Some (paths', r.2))
              (Z.to_nat (num_paths p)) 0 (num_paths p)
              (replicate (Z.to_nat (num_paths p)) [], seed))
    as (st & Hst & _ & Heq); try (unfold INT_MIN, INT_MAX in *; lia).
  - split; [lia|]. rewrite Z.sub_0_r. reflexivity.
  - intros i st Hi [Hi0 ->]. cbn [fst snd].
    rewrite generatePath_path_from by exact Hs. cbn [mbind option_bind fst snd].
    rewrite vector_set_Some
      by (rewrite length_app, ensemble_from_length, length_replicate; lia).
    cbn [mbind option_bind]. eexists. split; [reflexivity|]. split; [lia|].
    f_equal.
    + replace (Z.to_nat (i + 1)) with (S (Z.to_nat i)) by lia.
      rewrite ensemble_from_S, <- app_assoc.
      rewrite insert_app_r_alt by (rewrite ensemble_from_length; lia).
      rewrite ensemble_from_length, Nat.sub_diag.
      replace (Z.to_nat (num_paths p - i))
        with (S (Z.to_nat (num_paths p - (i + 1)))) by lia.
      reflexivity.
    + replace (Z.to_nat (i + 1)) with (S (Z.to_nat i)) by lia. reflexivity.
  - rewrite Hst, Heq. cbn [mbind option_bind fst].
    rewrite Z.sub_diag. cbn [Z.to_nat replicate]. rewrite app_nil_r. reflexivity.
Qed.

(** With no path asked for, the simulation returns the empty ensemble
    whatever the other parameters. *)
Lemma runMonteCarloSimulation_empty p seed :
  num_paths p = 0 -> runMonteCarloSimulation p seed = Some [].
Proof.
  intros Hn. unfold runMonteCarloSimulation, vector_new. rewrite Hn. reflexivity.
Qed.

Lemma runMonteCarloSimulation_Some_inv p seed paths :
  runMonteCarloSimulation p seed = Some paths ->
  0 <= num_paths p /\ (num_paths p = 0 \/ 0 <= steps p < INT_MAX).
Proof.
  unfold runMonteCarloSimulation, vector_new.
  destruct (0 <=? num_paths p) eqn:E; cbn [mbind option_bind]; [|discriminate].
  apply Z.leb_le in E. intros H. split; [exact E|].
  destruct (Z.eq_dec (num_paths p) 0) as [E0|E0]; [left; exact E0|right].
  destruct (Z.to_nat (num_paths p)) as [|k] eqn:Ek; [lia|].
  cbn [for_loop] in H.
  replace (0 <? num_paths p) with true in H by (symmetry; apply Z.ltb_lt; lia).
  cbn [fst snd] in H.
  destruct (generatePath p seed) as [r|] eqn:Hgen; [|discriminate].
  eapply generatePath_Some_steps, Hgen.
Qed.

End EnsembleProperties.

(** X3.  [runMonteCarloSimulation] has a defined result exactly when
    [num_paths] is not negative and, if a path is asked for,
    [0 <= steps < INT_MAX]. *)
Theorem runMonteCarloSimulation_defined_iff {L : StdLib}
    (p : SimulationParams) (seed : Gen) :
  num_paths p <= INT_MAX ->
  is_Some (runMonteCarloSimulation p seed) <->
  0 <= num_paths p /\ (num_paths p = 0 \/ 0 <= steps p < INT_MAX).
Proof.
  intros Hmax. split.
  - intros [paths H]. eapply runMonteCarloSimulation_Some_inv, H.
  - intros [Hn [H0|Hs]].
    + rewrite runMonteCarloSimulation_empty by exact H0. eauto.
    + rewrite runMonteCarloSimulation_eq by (try exact Hs; lia). eauto.
Qed.

Lemma runMonteCarloSimulation_defined_iff_witness :
  is_Some (runMonteCarloSimulation_ref p_example 42) <->
  0 <= num_paths p_example /\
  (num_paths p_example = 0 \/ 0 <= steps p_example < INT_MAX).
Proof.
  apply (@runMonteCarloSimulation_defined_iff ref_lib p_example 42).
  cbn. unfold INT_MAX. lia.
Defined.

(** X4.  The ensemble has [num_paths] trajectories, each of [steps + 1]
    prices and each starting at [S0]. *)
Theorem runMonteCarloSimulation_shape {L : StdLib}
    (p : SimulationParams) (seed : Gen) :
  0 <= steps p < INT_MAX -> 0 <= num_paths p <= INT_MAX ->
  exists paths,
    runMonteCarloSimulation p seed = Some paths /\
    Z.of_nat (length paths) = num_paths p /\
    Forall (fun path => Z.of_nat (length path) = steps p + 1 /\
                        path !! 0%nat = Some (S0 p)) paths.
Proof.
  intros Hs Hn. rewrite runMonteCarloSimulation_eq by assumption.
  eexists. split; [reflexivity|]. rewrite ensemble_from_length. split; [lia|].
  unfold ensemble_from. rewrite Forall_fmap. apply Forall_forall. intros k _.
  cbn. rewrite path_from_length, path_from_head. split; [lia|reflexivity].
Qed.

Lemma runMonteCarloSimulation_shape_witness :
  exists paths,
    runMonteCarloSimulation_ref p_example 42 = Some paths /\
    Z.of_nat (length paths) = num_paths p_example /\
    Forall (fun path => Z.of_nat (length path) = steps p_example + 1 /\
                        path !! 0%nat = Some (S0 p_example)) paths.
Proof.
  apply (@runMonteCarloSimulation_shape ref_lib p_example 42);
    cbn; unfold INT_MAX; lia.
Defined.

(** X5.  The paths of the ensemble are consecutive calls of [generatePath] on
    one engine: the first call starts from the seeded engine and every
    later one from the engine the call before it left. *)
Theorem runMonteCarloSimulation_chain {L : StdLib}
    (p : SimulationParams) (seed : Gen) :
  0 <= steps p < INT_MAX -> 0 <= num_paths p <= INT_MAX ->
  exists (paths : list (list double)) (gens : list Gen),
    runMonteCarloSimulation p seed = Some paths /\
    length gens = S (length paths) /\
    gens !! 0%nat = Some seed /\
    forall (k : nat) path, paths !! k = Some path ->
      exists g g', gens !! k = Some g /\ gens !! S k = Some g' /\
                   generatePath p g = Some (path, g').
Proof.
  intros Hs Hn. rewrite runMonteCarloSimulation_eq by assumption.
  set (n := Z.to_nat (num_paths p)).
  exists (ensemble_from p n seed),
         ((fun k => Nat.iter k (next_engine p) seed) <$> seq 0 (S n)).
  split; [reflexivity|].
  split; [rewrite length_fmap, length_seq, ensemble_from_length; reflexivity|].
  split; [reflexivity|].
  intros k path Hk.
  assert (Hlt : (k < n)%nat).
  { apply lookup_lt_Some in Hk. rewrite ensemble_from_length in Hk. exact Hk. }
  rewrite ensemble_from_lookup in Hk by exact Hlt. inversion Hk; subst path.
  exists (Nat.iter k (next_engine p) seed), (Nat.iter (S k) (next_engine p) seed).
  rewrite !list_lookup_fmap, !lookup_seq_lt by lia.
  split; [reflexivity|]. split; [reflexivity|].
  apply generatePath_path_from, Hs.
Qed.

Lemma runMonteCarloSimulation_chain_witness :
  exists (paths : list (list double)) (gens : list Z),
    runMonteCarloSimulation_ref p_example 42 = Some paths /\
    length gens = S (length paths) /\
    gens !! 0%nat = Some 42 /\
    forall (k : nat) path, paths !! k = Some path ->
      exists g g', gens !! k = Some g /\ gens !! S k = Some g' /\
                   generatePath_ref p_example g = Some (path, g').
Proof.
  apply (@runMonteCarloSimulation_chain ref_lib p_example 42);
    cbn; unfold INT_MAX; lia.
Defined.

(** X6.  Asking for more paths extends the ensemble: with the same seed and
    the other parameters unchanged, the ensemble of a run is the
    beginning of the ensemble of a run with more paths. *)
Theorem runMonteCarloSimulation_prefix {L : StdLib}
    (p : SimulationParams) (more : Z) (seed : Gen) :
  0 <= steps p < INT_MAX -> 0 <= num_paths p <= more -> more <= INT_MAX ->
  exists few many,
    runMonteCarloSimulation p seed = Some few /\
    runMonteCarloSimulation
      {| S0 := S0 p; mu := mu p; sigma := sigma p; T := T p;
         steps := steps p; num_paths := more |} seed = Some many /\
    few `prefix_of` many.
Proof.
  intros Hs Hn Hmore.
  rewrite !runMonteCarloSimulation_eq by (cbn [steps num_paths]; lia).
  eexists _, _. split; [reflexivity|]. split; [reflexivity|].
  cbn [num_paths].
  apply (ensemble_from_prefix p (Z.to_nat (num_paths p)) (Z.to_nat more) seed). lia.
Qed.

Lemma runMonteCarloSimulation_prefix_witness :
  exists few many,
    runMonteCarloSimulation_ref p_example 42 = Some few /\
    runMonteCarloSimulation_ref
      {| S0 := S0 p_example; mu := mu p_example; sigma := sigma p_example;
         T := T p_example; steps := steps p_example; num_paths := 6 |} 42
    = Some many /\
    few `prefix_of` many.
Proof.
  apply (@runMonteCarloSimulation_prefix ref_lib p_example 6 42);
    cbn; unfold INT_MAX; lia.
Defined.

(* ================================================================== *)
(** * Zero volatility: the ensemble *)
(* ================================================================== *)

Section ZeroVolatilityEnsemble.
Context {L : StdLib}.
Hypothesis exp_zero_sign : std_exp (S754_zero true) = std_exp (S754_zero false).
Hypothesis samples_finite : forall d g, is_finite (dist_call d g).1.1 = true.

Lemma path_from_zero_volatility p g :
  feq (sigma p) d_0_0 = true ->
  is_binary64 (T p) = true -> is_finite (T p) = true -> flt d_0_0 (T p) = true ->
  1 <= steps p <= INT_MAX ->
  path_from p g
  = compound_path (S0 p) (std_exp (fmul (mu p) (time_step p))) (Z.to_nat (steps p)).
Proof.
  intros Hsig HTval HTfin HTpos Hs.
  destruct (feq_zero _ Hsig) as [s Hs0].
  assert (Hdrift : drift_of p = fmul (mu p) (time_step p)).
  { unfold drift_of. rewrite Hs0.
    replace (fmul (fmul d_0_5 (S754_zero s)) (S754_zero s)) with d_0_0
      by (destruct s; reflexivity).
    rewrite fsub_zero_r. reflexivity. }
  assert (Hsqrt : is_finite (fsqrt (time_step p)) = true).
  { apply time_step_sqrt_finite; try assumption.
    apply flt_zero_not_negative. exact HTpos. }
  destruct (fmul_zero_finite s _ Hsqrt) as [s' Hvol].
  assert (Hvol' : vol_of p = S754_zero s') by (unfold vol_of; rewrite Hs0; exact Hvol).
  unfold path_from. rewrite Hvol', Hdrift.
  rewrite (gbm_path_zero_vol exp_zero_sign)
    by apply (draw_samples_finite samples_finite).
  rewrite draw_samples_length. reflexivity.
Qed.

(** X7.  With [sigma = 0] the ensemble is [num_paths] copies of one
    trajectory, the same whatever the seed. *)
Theorem runMonteCarloSimulation_zero_volatility p seed seed' :
  feq (sigma p) d_0_0 = true ->
  is_binary64 (T p) = true -> is_finite (T p) = true -> flt d_0_0 (T p) = true ->
  1 <= steps p < INT_MAX -> 0 <= num_paths p <= INT_MAX ->
  runMonteCarloSimulation p seed
  = Some (replicate (Z.to_nat (num_paths p))
            (compound_path (S0 p) (std_exp (fmul (mu p) (time_step p)))
               (Z.to_nat (steps p)))) /\
  runMonteCarloSimulation p seed' = runMonteCarloSimulation p seed.
Proof.
  intros Hsig HTval HTfin HTpos Hs Hn.
  assert (Hens : forall g,
            ensemble_from p (Z.to_nat (num_paths p)) g
            = replicate (Z.to_nat (num_paths p))
                (compound_path (S0 p) (std_exp (fmul (mu p) (time_step p)))
                   (Z.to_nat (steps p)))).
  { intros g. apply list_eq. intros i.
    destruct (Nat.lt_ge_cases i (Z.to_nat (num_paths p))) as [Hi|Hi].
    - rewrite ensemble_from_lookup, lookup_replicate_2 by exact Hi.
      rewrite path_from_zero_volatility by (try assumption; lia). reflexivity.
    - rewrite !lookup_ge_None_2;
        [reflexivity|rewrite length_replicate|rewrite ensemble_from_length]; exact Hi. }
  rewrite !runMonteCarloSimulation_eq by (try assumption; lia).
  rewrite !Hens. split; reflexivity.
Qed.

End ZeroVolatilityEnsemble.

Lemma runMonteCarloSimulation_zero_volatility_witness :
  runMonteCarloSimulation_ref p_compound 42
  = Some (replicate (Z.to_nat (num_paths p_compound))
            (compound_path (S0 p_compound)
               (exp_ref (fmul (mu p_compound) (time_step p_compound)))
               (Z.to_nat (steps p_compound)))) /\
  runMonteCarloSimulation_ref p_compound 7 = runMonteCarloSimulation_ref p_compound 42.
Proof.
  apply (@runMonteCarloSimulation_zero_volatility ref_lib eq_refl ref_samples_finite
           p_compound 42 7); try reflexivity; cbn; unfold INT_MAX; lia.
Defined.

(* ================================================================== *)
(** * Statistics: where they are defined and what they depend on *)
(* ================================================================== *)

Lemma terminal_values_Some_inv p paths finals :
  terminal_values p paths = Some finals ->
  length finals = length paths /\
  Forall (fun path => 0 <= steps p < Z.of_nat (length path)) paths.
Proof.
  unfold terminal_values. intros Hf. split; [symmetry; eapply length_mapM, Hf|].
  apply mapM_Some_1 in Hf. apply Forall_forall. intros path Hin.
  apply list_elem_of_lookup in Hin as [i Hi].
  destruct (Forall2_lookup_l _ _ _ _ _ Hf Hi) as (y & _ & Hy).
  unfold vector_get in Hy. destruct (0 <=? steps p) eqn:E; [|discriminate].
  apply Z.leb_le in E. apply lookup_lt_Some in Hy. lia.
Qed.

Lemma terminal_values_is_Some p paths :
  Forall (fun path => 0 <= steps p < Z.of_nat (length path)) paths ->
  is_Some (terminal_values p paths).
Proof.
  intros Hall. apply mapM_is_Some_2.
  eapply Forall_impl; [exact Hall|]. intros path Hlen. cbv beta in Hlen.
  unfold compose. rewrite vector_get_Some by lia. apply lookup_lt_is_Some_2. lia.
Qed.

Section StatisticsDefined.
Context {L : StdLib}.
Hypothesis std_sort_length : forall l, length (std_sort l) = length l.

Lemma calculateStatistics_is_Some p paths finals :
  terminal_values p paths = Some finals ->
  1 <= Z.of_nat (length paths) <= INT_MAX ->
  is_Some (calculateStatistics paths p).
Proof.
  intros Hf Hn.
  destruct (terminal_values_Some_inv p paths finals Hf) as [Hlen _].
  set (n := Z.of_nat (length paths)) in *.
  pose proof (percentile_rank_bounds n ltac:(lia)) as [[H5 H595] H95].
  assert (Hmin : exists mn, min_element finals = Some mn)
    by (destruct finals; [simpl in Hlen; lia|cbn; eauto]).
  assert (Hmax : exists mx, max_element finals = Some mx)
    by (destruct finals; [simpl in Hlen; lia|cbn; eauto]).
  destruct Hmin as [mn Hmin], Hmax as [mx Hmax].
  destruct (lookup_lt_is_Some_2 (std_sort finals) (Z.to_nat (5 * n / 100))) as [x5 Hx5].
  { rewrite std_sort_length, Hlen. lia. }
  destruct (lookup_lt_is_Some_2 (std_sort finals) (Z.to_nat (95 * n / 100))) as [x95 Hx95].
  { rewrite std_sort_length, Hlen. lia. }
  unfold calculateStatistics. unfold terminal_values in Hf. rewrite Hf.
  cbn [mbind option_bind]. rewrite int_of_size_small by lia. fold n.
  rewrite Hmin, Hmax. cbn [mbind option_bind].
  rewrite percentile_index_0_05, percentile_index_0_95 by lia.
  cbn [mbind option_bind]. rewrite !vector_get_Some by lia.
  rewrite Hx5, Hx95. cbn [mbind option_bind]. eauto.
Qed.

Lemma calculateStatistics_Some_inv p paths st :
  calculateStatistics paths p = Some st ->
  paths <> [] /\
  Forall (fun path => 0 <= steps p < Z.of_nat (length path)) paths.
Proof.
  unfold calculateStatistics.
  destruct (mapM (fun path => vector_get path (steps p)) paths) as [finals|] eqn:Hf;
    cbn [mbind option_bind]; [|discriminate].
  destruct (terminal_values_Some_inv p paths finals Hf) as [Hlen Hall].
  destruct finals as [|x finals]; cbn [min_element mbind option_bind]; [discriminate|].
  intros _. split; [|exact Hall]. intros ->. discriminate Hlen.
Qed.

End StatisticsDefined.

(** X8.  [calculateStatistics] has a defined result exactly when the ensemble
    is not empty and every path has an element at index [steps]. *)
Theorem calculateStatistics_defined_iff {L : StdLib}
    (p : SimulationParams) (paths : list (list double)) :
  (forall l, length (std_sort l) = length l) ->
  Z.of_nat (length paths) <= INT_MAX ->
  is_Some (calculateStatistics paths p) <->
  paths <> [] /\
  Forall (fun path => 0 <= steps p < Z.of_nat (length path)) paths.
Proof.
  intros Hsort Hmax. split.
  - intros [st Hst]. eapply calculateStatistics_Some_inv, Hst.
  - intros [Hne Hall].
    destruct (terminal_values_is_Some p paths Hall) as [finals Hf].
    eapply calculateStatistics_is_Some; [exact Hsort|exact Hf|].
    destruct paths; [congruence|]. cbn [length] in *. lia.
Qed.

Lemma calculateStatistics_defined_iff_witness :
  is_Some (calculateStatistics_ref ens_example p_example) <->
  ens_example <> [] /\
  Forall (fun path => 0 <= steps p_example < Z.of_nat (length path)) ens_example.
Proof.
  apply (@calculateStatistics_defined_iff ref_lib p_example ens_example).
  - exact sort_ref_length.
  - cbn. unfold INT_MAX. lia.
Defined.

(** X9.  The statistics depend on the ensemble only through the terminal
    values of its paths, and on the parameters only through [steps]. *)
Theorem calculateStatistics_terminal_only {L : StdLib}
    (p q : SimulationParams) (paths paths' : list (list double)) :
  terminal_values p paths = terminal_values q paths' ->
  calculateStatistics paths p = calculateStatistics paths' q.
Proof.
  intros H. unfold calculateStatistics. unfold terminal_values in H.
  destruct (mapM (fun path => vector_get path (steps p)) paths) as [finals|] eqn:Hf;
    rewrite <- H; [|reflexivity].
  assert (Hlen : length paths = length paths').
  { symmetry in H.
    pose proof (length_mapM _ _ _ Hf). pose proof (length_mapM _ _ _ H). congruence. }
  rewrite Hlen. reflexivity.
Qed.

Lemma calculateStatistics_terminal_only_witness :
  calculateStatistics_ref ens_example p_example
  = calculateStatistics_ref ((fun path => <[1%nat := d_0_0]> path) <$> ens_example)
      p_example.
Proof.
  apply (@calculateStatistics_terminal_only ref_lib p_example p_example).
  vm_compute. reflexivity.
Defined.

(* ================================================================== *)
(** * Statistics of values that are not finite *)
(* ================================================================== *)

(** A class of values that the sum, the quotient by the number of
    paths, the deviation from a mean of the class, the square and the
    square root never leave. *)
Section Propagation.
Variable P : double -> bool.
Hypothesis P_fadd_l : forall a b, P a = true -> P (fadd a b) = true.
Hypothesis P_fadd_r : forall a b, P b = true -> P (fadd a b) = true.
Hypothesis P_fsub_r : forall a b, P b = true -> P (fsub a b) = true.
Hypothesis P_fmul : forall a, P a = true -> P (fmul a a) = true.

Lemma fold_sum_class l : forall acc,
  P acc = true \/ Exists (fun x => P x = true) l ->
  P (fold_left fadd l acc) = true.
Proof.
  induction l as [|x l IH]; intros acc H; cbn [fold_left].
  - destruct H as [H|H]; [exact H|inversion H].
  - apply IH. destruct H as [H|H].
    + left. apply P_fadd_l, H.
    + inversion H; subst; [left; apply P_fadd_r; assumption|right; assumption].
Qed.

Lemma fold_squares_class (m : double) l :
  P m = true -> forall acc, P acc = true \/ l <> [] ->
  P (fold_left (fun acc price => fadd acc (fmul (fsub price m) (fsub price m))) l acc)
  = true.
Proof.
  intros Hm. induction l as [|x l IH]; intros acc H; cbn [fold_left].
  - destruct H as [H|H]; [exact H|congruence].
  - apply IH. left. apply P_fadd_r, P_fmul, P_fsub_r, Hm.
Qed.

End Propagation.

Lemma fadd_nan_l a b : is_nan a = true -> is_nan (fadd a b) = true.
Proof. destruct a; try discriminate. reflexivity. Qed.

Lemma fadd_nan_r a b : is_nan b = true -> is_nan (fadd a b) = true.
Proof. destruct b; try discriminate. destruct a; reflexivity. Qed.

Lemma fsub_nan_r a b : is_nan b = true -> is_nan (fsub a b) = true.
Proof. destruct b; try discriminate. destruct a; reflexivity. Qed.

Lemma fmul_nan a : is_nan a = true -> is_nan (fmul a a) = true.
Proof. destruct a; try discriminate. reflexivity. Qed.

Lemma fdiv_nan a b : is_nan a = true -> is_nan (fdiv a b) = true.
Proof. destruct a; try discriminate. reflexivity. Qed.

Lemma fsqrt_nan a : is_nan a = true -> is_nan (fsqrt a) = true.
Proof. destruct a; try discriminate. reflexivity. Qed.

Lemma fadd_not_finite_l a b : is_finite a = false -> is_finite (fadd a b) = false.
Proof. destruct a as [|[|]| |]; try discriminate; destruct b as [|[|]| |]; reflexivity. Qed.

Lemma fadd_not_finite_r a b : is_finite b = false -> is_finite (fadd a b) = false.
Proof. destruct b as [|[|]| |]; try discriminate; destruct a as [|[|]| |]; reflexivity. Qed.

Lemma fsub_not_finite_r a b : is_finite b = false -> is_finite (fsub a b) = false.
Proof. destruct b as [|[|]| |]; try discriminate; destruct a as [|[|]| |]; reflexivity. Qed.

Lemma fdiv_not_finite a m e :
  is_finite a = false -> is_finite (fdiv a (S754_finite false m e)) = false.
Proof. destruct a; try discriminate; reflexivity. Qed.

Lemma fsqrt_not_finite a : is_finite a = false -> is_finite (fsqrt a) = false.
Proof. destruct a as [|[|]| |]; try discriminate; reflexivity. Qed.

Lemma negb_true_false b : negb b = true <-> b = false.
Proof. destruct b; cbn; split; congruence. Qed.

Section NotFinite.
Context {L : StdLib}.
Hypothesis std_sort_length : forall l, length (std_sort l) = length l.

(** X10.  One terminal value that is a NaN makes the mean and the standard
    deviation NaN; one terminal value that is not finite leaves neither
    of them finite. *)
Theorem calculateStatistics_not_finite p paths finals :
  ensemble_for p paths ->
  terminal_values p paths = Some finals ->
  exists st,
    calculateStatistics paths p = Some st /\
    (Exists (fun x => is_nan x = true) finals ->
     is_nan (mean st) = true /\ is_nan (std_dev st) = true) /\
    (Exists (fun x => is_finite x = false) finals ->
     is_finite (mean st) = false /\ is_finite (std_dev st) = false).
Proof.
  intros Hens Hf.
  destruct (calculateStatistics_eq std_sort_length p paths Hens)
    as (finals' & mn & mx & x5 & x95 & Hf' & Hlen & _ & _ & _ & _ & Heq).
  rewrite Hf in Hf'. inversion Hf'; subst finals'. clear Hf'.
  pose proof Hens as (_ & Hn & _).
  destruct (double_of_int_positive (Z.of_nat (length paths)) Hn) as (mN & eN & HN).
  assert (Hne : finals <> []) by (intros ->; simpl in Hlen; lia).
  eexists. split; [exact Heq|]. cbn [std_dev mean]. rewrite HN.
  set (m := fdiv (fold_left fadd finals d_0_0) (S754_finite false mN eN)).
  split.
  - intros Hex.
    assert (Hm : is_nan m = true).
    { apply fdiv_nan, (fold_sum_class is_nan fadd_nan_l fadd_nan_r finals d_0_0).
      right. exact Hex. }
    split; [exact Hm|].
    apply fsqrt_nan, fdiv_nan.
    apply (fold_squares_class is_nan fadd_nan_r fsub_nan_r fmul_nan m finals Hm).
    right. exact Hne.
  - intros Hex.
    assert (Hex' : Exists (fun x => negb (is_finite x) = true) finals).
    { eapply Exists_impl; [exact Hex|]. intros x Hx. cbv beta in Hx.
      rewrite Hx. reflexivity. }
    set (Q := fun x => negb (is_finite x)).
    assert (Ql : forall a b, Q a = true -> Q (fadd a b) = true).
    { intros a b Ha. apply negb_true_false, fadd_not_finite_l, negb_true_false, Ha. }
    assert (Qr : forall a b, Q b = true -> Q (fadd a b) = true).
    { intros a b Ha. apply negb_true_false, fadd_not_finite_r, negb_true_false, Ha. }
    assert (Qs : forall a b, Q b = true -> Q (fsub a b) = true).
    { intros a b Ha. apply negb_true_false, fsub_not_finite_r, negb_true_false, Ha. }
    assert (Qm : forall a, Q a = true -> Q (fmul a a) = true).
    { intros a Ha. apply negb_true_false, fmul_not_finite, negb_true_false, Ha. }
    assert (Hm : is_finite m = false).
    { apply fdiv_not_finite, negb_true_false.
      apply (fold_sum_class Q Ql Qr finals d_0_0). right. exact Hex'. }
    split; [exact Hm|].
    apply fsqrt_not_finite, fdiv_not_finite, negb_true_false.
    apply (fold_squares_class Q Qr Qs Qm m finals); [|right; exact Hne].
    apply negb_true_false, Hm.
Qed.

End NotFinite.

Lemma calculateStatistics_not_finite_witness :
  exists st,
    calculateStatistics_ref [[S754_nan]; [d_100]] p_terminal = Some st /\
    (Exists (fun x => is_nan x = true) [S754_nan; d_100] ->
     is_nan (mean st) = true /\ is_nan (std_dev st) = true) /\
    (Exists (fun x => is_finite x = false) [S754_nan; d_100] ->
     is_finite (mean st) = false /\ is_finite (std_dev st) = false).
Proof.
  apply (@calculateStatistics_not_finite ref_lib sort_ref_length p_terminal
           [[S754_nan]; [d_100]] [S754_nan; d_100]).
  - split; [cbn; lia|]. split; [cbn; unfold INT_MAX; lia|]. repeat constructor.
  - reflexivity.
Defined.

(* ================================================================== *)
(** * The reported minimum and maximum *)
(* ================================================================== *)

Lemma flt_not_nan x y : flt x y = true -> is_nan x = false /\ is_nan y = false.
Proof.
  intros H. destruct x, y; try discriminate H; split; reflexivity.
Qed.

(** A scan that keeps its candidate or replaces it by the element met
    returns an element of the range. *)
Lemma scan_in (c : double -> double -> bool) l : forall x,
  fold_left (fun a y => if c a y then y else a) l x ∈ x :: l.
Proof.
  induction l as [|y l IH]; intros x; cbn [fold_left].
  - apply list_elem_of_here.
  - specialize (IH (if c x y then y else x)).
    apply elem_of_cons in IH as [->|IH].
    + destruct (c x y); [apply list_elem_of_further, list_elem_of_here
                        |apply list_elem_of_here].
    + do 2 apply list_elem_of_further. exact IH.
Qed.

(** When the candidate is only replaced after a comparison with [<] that
    holds, the result is a NaN exactly when the first element is. *)
Lemma scan_nan (c : double -> double -> bool) l :
  (forall a y, c a y = true -> is_nan a = false /\ is_nan y = false) ->
  forall x, is_nan (fold_left (fun a y => if c a y then y else a) l x) = is_nan x.
Proof.
  intros Hc. induction l as [|y l IH]; intros x; cbn [fold_left]; [reflexivity|].
  rewrite IH. destruct (c x y) eqn:E; [|reflexivity].
  destruct (Hc x y E) as [-> ->]. reflexivity.
Qed.

Lemma min_element_in l m : min_element l = Some m -> m ∈ l.
Proof.
  destruct l as [|x l]; cbn [min_element]; [discriminate|].
  intros H. inversion H. apply (scan_in (fun a y => flt y a)).
Qed.

Lemma max_element_in l m : max_element l = Some m -> m ∈ l.
Proof.
  destruct l as [|x l]; cbn [max_element]; [discriminate|].
  intros H. inversion H. apply (scan_in (fun a y => flt a y)).
Qed.

Lemma min_element_nan x l m :
  min_element (x :: l) = Some m -> is_nan m = is_nan x.
Proof.
  cbn [min_element]. intros H. inversion H.
  apply (scan_nan (fun a y => flt y a)). intros a y E.
  destruct (flt_not_nan y a E). auto.
Qed.

Lemma max_element_nan x l m :
  max_element (x :: l) = Some m -> is_nan m = is_nan x.
Proof.
  cbn [max_element]. intros H. inversion H.
  apply (scan_nan (fun a y => flt a y)). intros a y E.
  destruct (flt_not_nan a y E). auto.
Qed.

Section MinMax.
Context {L : StdLib}.
Hypothesis std_sort_length : forall l, length (std_sort l) = length l.

(** X11.  The reported minimum and maximum are terminal values of the
    ensemble, and each is a NaN exactly when the terminal value of the
    first path is one: a NaN met later is passed over. *)
Theorem calculateStatistics_min_max p paths finals :
  ensemble_for p paths ->
  terminal_values p paths = Some finals ->
  exists st first,
    calculateStatistics paths p = Some st /\
    head finals = Some first /\
    min_price st ∈ finals /\ max_price st ∈ finals /\
    is_nan (min_price st) = is_nan first /\
    is_nan (max_price st) = is_nan first.
Proof.
  intros Hens Hf.
  destruct (calculateStatistics_eq std_sort_length p paths Hens)
    as (finals' & mn & mx & x5 & x95 & Hf' & Hlen & Hmin & Hmax & _ & _ & Heq).
  rewrite Hf in Hf'. inversion Hf'; subst finals'. clear Hf'.
  destruct finals as [|x0 rest]; [discriminate Hmin|].
  eexists _, x0. split; [exact Heq|]. cbn [min_price max_price head].
  split; [reflexivity|].
  split; [eapply min_element_in, Hmin|].
  split; [eapply max_element_in, Hmax|].
  split; [eapply min_element_nan, Hmin|eapply max_element_nan, Hmax].
Qed.

End MinMax.

Lemma calculateStatistics_min_max_witness :
  exists st first,
    calculateStatistics_ref [[d_100]; [S754_nan]; [d_0_1]] p_terminal = Some st /\
    head [d_100; S754_nan; d_0_1] = Some first /\
    min_price st ∈ [d_100; S754_nan; d_0_1] /\
    max_price st ∈ [d_100; S754_nan; d_0_1] /\
    is_nan (min_price st) = is_nan first /\
    is_nan (max_price st) = is_nan first.
Proof.
  apply (@calculateStatistics_min_max ref_lib sort_ref_length p_terminal
           [[d_100]; [S754_nan]; [d_0_1]] [d_100; S754_nan; d_0_1]).
  - split; [cbn; lia|]. split; [cbn; unfold INT_MAX; lia|]. repeat constructor.
  - reflexivity.
Defined.

(* ================================================================== *)
(** * Small ensembles *)
(* ================================================================== *)

Lemma fle_antisym x y : fle x y = true -> fle y x = true -> feq x y = true.
Proof.
  intros H1 H2. unfold feq, SFeqb.
  destruct x as [[|]|[|]| |[|] mx ex], y as [[|]|[|]| |[|] my ey];
    try discriminate H1; try discriminate H2; try reflexivity;
    order_cases.
Qed.

Section SmallEnsembles.
Context {L : StdLib}.
Hypothesis std_sort_length : forall l, length (std_sort l) = length l.
Hypothesis std_sort_perm : forall l, no_nan l -> std_sort l ≡ₚ l.
Hypothesis std_sort_ascending : forall l, no_nan l -> ascending (std_sort l).

(** X12.  With fewer than 20 paths the index of the 5th percentile is 0 and
    the index of the 95th is the last one: the percentiles are the first
    and the last of the sorted terminal values, and, with no NaN among
    them, compare equal to the reported minimum and maximum. *)
Theorem calculateStatistics_small_ensemble p paths finals :
  ensemble_for p paths ->
  Z.of_nat (length paths) < 20 ->
  terminal_values p paths = Some finals ->
  exists st,
    calculateStatistics paths p = Some st /\
    head (std_sort finals) = Some (percentile_5 st) /\
    last (std_sort finals) = Some (percentile_95 st) /\
    (no_nan finals ->
     feq (percentile_5 st) (min_price st) = true /\
     feq (percentile_95 st) (max_price st) = true).
Proof.
  intros Hens Hsmall Hf.
  destruct (calculateStatistics_eq std_sort_length p paths Hens)
    as (finals' & mn & mx & x5 & x95 & Hf' & Hlen & Hmin & Hmax & H5 & H95 & Heq).
  rewrite Hf in Hf'. inversion Hf'; subst finals'. clear Hf'.
  pose proof Hens as (_ & Hn & _).
  set (n := Z.of_nat (length paths)) in *.
  assert (E5 : 5 * n / 100 = 0) by (apply Z.div_small; lia).
  assert (E95 : 95 * n / 100 = n - 1)
    by (symmetry; apply (Z.div_unique (95 * n) 100 (n - 1) (100 - 5 * n)); lia).
  rewrite E5 in H5. rewrite E95 in H95.
  eexists. split; [exact Heq|]. cbn [percentile_5 percentile_95 min_price max_price].
  split; [rewrite head_lookup; exact H5|].
  split.
  { rewrite last_lookup, std_sort_length, Hlen.
    replace (pred (length paths)) with (Z.to_nat (n - 1)) by lia. exact H95. }
  intros Hnan.
  pose proof (std_sort_perm finals Hnan) as Hperm.
  pose proof (std_sort_ascending finals Hnan) as Hasc.
  assert (Hnan' : no_nan (std_sort finals)).
  { unfold no_nan. rewrite Hperm. exact Hnan. }
  destruct finals as [|x0 rest]; [discriminate Hmin|].
  destruct (min_element_spec _ _ _ Hnan Hmin) as [Hin_min Hle_min].
  destruct (max_element_spec _ _ _ Hnan Hmax) as [Hin_max Hle_max].
  split.
  - apply fle_antisym.
    + rewrite <- Hperm in Hin_min. apply list_elem_of_lookup in Hin_min as [i Hi].
      eapply (ascending_lookup _ 0 i); eauto. lia.
    + apply Hle_min. rewrite <- Hperm. eapply list_elem_of_lookup_2, H5.
  - apply fle_antisym.
    + apply Hle_max. rewrite <- Hperm. eapply list_elem_of_lookup_2, H95.
    + rewrite <- Hperm in Hin_max. apply list_elem_of_lookup in Hin_max as [i Hi].
      eapply (ascending_lookup _ i (Z.to_nat (n - 1))); eauto.
      apply lookup_lt_Some in Hi. rewrite std_sort_length, Hlen in Hi. lia.
Qed.

End SmallEnsembles.

Lemma calculateStatistics_small_ensemble_witness :
  exists st,
    calculateStatistics_ref ens_example p_example = Some st /\
    head (sort_ref [S754_finite false 6922000052252965 (-45);
                    S754_finite false 6922000052252965 (-45);
                    S754_finite false 5574476445503829 (-45);
                    S754_finite false 6258842808713754 (-46)])
    = Some (percentile_5 st) /\
    last (sort_ref [S754_finite false 6922000052252965 (-45);
                    S754_finite false 6922000052252965 (-45);
                    S754_finite false 5574476445503829 (-45);
                    S754_finite false 6258842808713754 (-46)])
    = Some (percentile_95 st) /\
    (no_nan [S754_finite false 6922000052252965 (-45);
             S754_finite false 6922000052252965 (-45);
             S754_finite false 5574476445503829 (-45);
             S754_finite false 6258842808713754 (-46)] ->
     feq (percentile_5 st) (min_price st) = true /\
     feq (percentile_95 st) (max_price st) = true).
Proof.
  apply (@calculateStatistics_small_ensemble ref_lib sort_ref_length
           (fun l _ => sort_ref_perm l) sort_ref_ascending
           p_example ens_example _ ensemble_for_example).
  - cbn. lia.
  - exact terminal_values_example.
Defined.

(* ================================================================== *)
(** * An ensemble of one path *)
(* ================================================================== *)

(** A mantissa and an exponent that are already in the format are
    rounded to themselves. *)
Lemma binary_round_aux_canonical s m e :
  bounded prec64 emax64 m e = true ->
  binary_round_aux prec64 emax64 s (Zpos m) e loc_Exact = S754_finite s m e.
Proof.
  unfold bounded, canonical_mantissa. intros H.
  apply andb_true_iff in H as [Hc Hb]. apply Z.eqb_eq in Hc.
  unfold binary_round_aux, shr_fexp. cbn [Zdigits2 shr_record_of_loc].
  rewrite Hc, Z.sub_diag.
  cbn [shr shr_m shr_r shr_s loc_of_shr_record round_nearest_even Zdigits2
       shr_record_of_loc].
  rewrite Hc, Z.sub_diag. cbn [shr shr_m]. rewrite Hb. reflexivity.
Qed.

(** Division by 1 is exact. *)
Lemma fdiv_one x : is_binary64 x = true -> fdiv x d_1_0 = x.
Proof.
  destruct x as [[|]|[|]| |s m e]; try reflexivity.
  unfold is_binary64, valid_binary. intros Hb.
  pose proof Hb as Hb'. unfold bounded, canonical_mantissa in Hb'.
  apply andb_true_iff in Hb' as [Hc He]. apply Z.eqb_eq in Hc. apply Z.leb_le in He.
  set (d := Zpos (digits2_pos m)) in *.
  assert (Hd : 1 <= d) by (unfold d; lia).
  unfold fdiv, d_1_0. cbn [SFdiv]. rewrite xorb_false_r.
  unfold SFdiv_core_binary. cbn [Zdigits2]. fold d.
  change (Zpos (digits2_pos 4503599627370496)) with 53.
  unfold fexp, emin, prec64, emax64 in Hc, He.
  destruct (Z_le_gt_dec e (-1074)) as [Hsub|Hnorm].
  - (* the smallest exponent: the quotient is the mantissa *)
    assert (Ee : Z.min (fexp prec64 emax64 (d + e - (53 + -52))) (e - -52) = e)
      by (unfold fexp, emin, prec64, emax64; lia).
    rewrite Ee. replace (e - -52 - e) with 52 by lia.
    rewrite Z.shiftl_mul_pow2 by lia. change (2 ^ 52) with 4503599627370496.
    pose proof (Z.div_mul (Zpos m) 4503599627370496 ltac:(lia)) as Hdiv.
    pose proof (Z.mod_mul (Zpos m) 4503599627370496 ltac:(lia)) as Hmod.
    unfold Z.div, Z.modulo in Hdiv, Hmod.
    destruct (Z.div_eucl (Zpos m * 4503599627370496) 4503599627370496) as [q r].
    cbn [fst snd] in Hdiv, Hmod. subst q r.
    change (new_location 4503599627370496 0) with loc_Exact.
    apply binary_round_aux_canonical, Hb.
  - (* a normal number: the quotient has one more bit, which is 0 *)
    assert (Hd53 : d = 53) by lia.
    assert (Ee : Z.min (fexp prec64 emax64 (d + e - (53 + -52))) (e - -52) = e - 1)
      by (unfold fexp, emin, prec64, emax64; lia).
    rewrite Ee. replace (e - -52 - (e - 1)) with 53 by lia.
    rewrite Z.shiftl_mul_pow2 by lia.
    assert (Hq : Zpos m * 2 ^ 53 = Zpos m~0 * 4503599627370496) by lia.
    rewrite Hq.
    pose proof (Z.div_mul (Zpos m~0) 4503599627370496 ltac:(lia)) as Hdiv.
    pose proof (Z.mod_mul (Zpos m~0) 4503599627370496 ltac:(lia)) as Hmod.
    unfold Z.div, Z.modulo in Hdiv, Hmod.
    destruct (Z.div_eucl (Zpos m~0 * 4503599627370496) 4503599627370496) as [q r].
    cbn [fst snd] in Hdiv, Hmod. subst q r.
    change (new_location 4503599627370496 0) with loc_Exact.
    rewrite binary_round_aux_even by (fold d; lia).
    f_equal. lia.
Qed.

Lemma fadd_zero_l x : is_zero x = false -> fadd d_0_0 x = x.
Proof. destruct x; try discriminate; reflexivity. Qed.

Section SinglePath.
Context {L : StdLib}.
Hypothesis std_sort_perm : forall l, no_nan l -> std_sort l ≡ₚ l.

(** X13.  An ensemble of a single path with a finite terminal value [x]: the
    minimum, the maximum and both percentiles are [x], the mean compares
    equal to [x] (and is [x] itself unless [x] is the negative zero), and
    the standard deviation is 0. *)
Theorem calculateStatistics_single_path p path x :
  vector_get path (steps p) = Some x ->
  is_binary64 x = true -> is_finite x = true ->
  exists st,
    calculateStatistics [path] p = Some st /\
    feq (mean st) x = true /\
    (is_zero x = false -> mean st = x) /\
    std_dev st = d_0_0 /\
    min_price st = x /\ max_price st = x /\
    percentile_5 st = x /\ percentile_95 st = x.
Proof.
  intros Hget Hval Hfin.
  assert (Hsort : std_sort [x] = [x]).
  { apply Permutation_singleton_r, std_sort_perm. constructor; [|constructor].
    destruct x; try discriminate Hfin; reflexivity. }
  unfold calculateStatistics. cbn [mapM mbind option_bind]. rewrite Hget.
  cbn [mbind option_bind mret option_ret fmap option_fmap option_map length].
  change (int_of_size 1) with 1. change (double_of_int 1) with d_1_0.
  cbn [fold_left min_element max_element mbind option_bind].
  change (percentile_index d_0_05 1) with (Some 0).
  change (percentile_index d_0_95 1) with (Some 0).
  cbn [mbind option_bind]. rewrite Hsort.
  change (vector_get [x] 0) with (Some x). cbn [mbind option_bind].
  eexists. split; [reflexivity|].
  cbn [mean std_dev min_price max_price percentile_5 percentile_95].
  destruct (is_zero x) eqn:Ez.
  - destruct x as [s| | |]; try discriminate Ez.
    split; [destruct s; reflexivity|]. split; [discriminate|].
    split; [destruct s; reflexivity|]. repeat split.
  - rewrite (fadd_zero_l x Ez), (fdiv_one x Hval).
    split; [destruct x as [| | |s m e]; try discriminate; try discriminate Hfin;
            unfold feq, SFeqb, SFcompare; destruct s;
            rewrite ?Z.compare_refl, ?Pos.compare_cont_refl; reflexivity|].
    split; [reflexivity|].
    rewrite (fsub_diag x Hfin). split; [reflexivity|]. repeat split.
Qed.

End SinglePath.

Lemma calculateStatistics_single_path_witness :
  exists st,
    calculateStatistics_ref [[d_100; d_0_1]] p_scenario = Some st /\
    feq (mean st) d_0_1 = true /\
    (is_zero d_0_1 = false -> mean st = d_0_1) /\
    std_dev st = d_0_0 /\
    min_price st = d_0_1 /\ max_price st = d_0_1 /\
    percentile_5 st = d_0_1 /\ percentile_95 st = d_0_1.
Proof.
  apply (@calculateStatistics_single_path ref_lib
           (fun l _ => sort_ref_perm l) p_scenario [d_100; d_0_1] d_0_1);
    reflexivity.
Defined.

(* ================================================================== *)
(** * Statistics of prices that are not negative *)
(* ================================================================== *)

Lemma fadd_not_negative a b :
  not_negative a -> not_negative b -> not_negative (fadd a b).
Proof.
  rewrite !not_negative_iff. intros Ha Hb.
  destruct a as [sa|sa| |sa ma ea], b as [sb|sb| |sb mb eb];
    try destruct sa; try destruct sb; cbn in *; try easy.
  pose proof (fadd_sign (S754_finite false ma ea) (S754_finite false mb eb)
                eq_refl eq_refl) as Hs.
  apply has_sign_not_negative in Hs. apply not_negative_iff in Hs. exact Hs.
Qed.

Lemma fdiv_not_negative a m e :
  not_negative a -> not_negative (fdiv a (S754_finite false m e)).
Proof.
  rewrite !not_negative_iff. intros Ha.
  destruct a as [sa|sa| |sa ma ea]; try destruct sa; cbn in *; try easy.
  pose proof (fdiv_sign (S754_finite false ma ea) m e eq_refl) as Hs.
  apply has_sign_not_negative in Hs. apply not_negative_iff in Hs. exact Hs.
Qed.

Lemma fold_sum_not_negative l : forall acc,
  not_negative acc -> Forall not_negative l -> not_negative (fold_left fadd l acc).
Proof.
  induction l as [|x l IH]; intros acc Hacc Hall; cbn [fold_left]; [exact Hacc|].
  inversion Hall; subst. apply IH; [apply fadd_not_negative|]; assumption.
Qed.

Section NotNegative.
Context {L : StdLib}.
Hypothesis std_sort_length : forall l, length (std_sort l) = length l.
Hypothesis std_sort_perm : forall l, no_nan l -> std_sort l ≡ₚ l.

(** X14.  When no terminal value is negative, neither is the mean, the
    minimum or the maximum reported, nor, with no NaN among the terminal
    values, either percentile. *)
Theorem calculateStatistics_not_negative p paths finals :
  ensemble_for p paths ->
  terminal_values p paths = Some finals ->
  Forall not_negative finals ->
  exists st,
    calculateStatistics paths p = Some st /\
    not_negative (mean st) /\
    not_negative (min_price st) /\ not_negative (max_price st) /\
    (no_nan finals ->
     not_negative (percentile_5 st) /\ not_negative (percentile_95 st)).
Proof.
  intros Hens Hf Hall.
  destruct (calculateStatistics_eq std_sort_length p paths Hens)
    as (finals' & mn & mx & x5 & x95 & Hf' & Hlen & Hmin & Hmax & H5 & H95 & Heq).
  rewrite Hf in Hf'. inversion Hf'; subst finals'. clear Hf'.
  pose proof Hens as (_ & Hn & _).
  destruct (double_of_int_positive (Z.of_nat (length paths)) Hn) as (mN & eN & HN).
  eexists. split; [exact Heq|].
  cbn [mean min_price max_price percentile_5 percentile_95]. rewrite HN.
  rewrite Forall_forall in Hall.
  split; [apply fdiv_not_negative, fold_sum_not_negative;
          [reflexivity|apply Forall_forall; exact Hall]|].
  split; [apply Hall; eapply min_element_in, Hmin|].
  split; [apply Hall; eapply max_element_in, Hmax|].
  intros Hnan. pose proof (std_sort_perm finals Hnan) as Hperm.
  split; apply Hall; rewrite <- Hperm; eapply list_elem_of_lookup_2; eassumption.
Qed.

(** X15.  When every path ends at the same value, not a NaN, that value is
    the minimum, the maximum and both percentiles. *)
Theorem calculateStatistics_constant p paths finals x :
  ensemble_for p paths ->
  terminal_values p paths = Some finals ->
  Forall (fun v => v = x) finals -> is_nan x = false ->
  exists st,
    calculateStatistics paths p = Some st /\
    min_price st = x /\ max_price st = x /\
    percentile_5 st = x /\ percentile_95 st = x.
Proof.
  intros Hens Hf Hall Hx.
  destruct (calculateStatistics_eq std_sort_length p paths Hens)
    as (finals' & mn & mx & x5 & x95 & Hf' & Hlen & Hmin & Hmax & H5 & H95 & Heq).
  rewrite Hf in Hf'. inversion Hf'; subst finals'. clear Hf'.
  eexists. split; [exact Heq|].
  cbn [min_price max_price percentile_5 percentile_95].
  assert (Hnan : no_nan finals).
  { eapply Forall_impl; [exact Hall|]. intros v ->. exact Hx. }
  pose proof (std_sort_perm finals Hnan) as Hperm.
  rewrite Forall_forall in Hall.
  split; [apply Hall; eapply min_element_in, Hmin|].
  split; [apply Hall; eapply max_element_in, Hmax|].
  split; apply Hall; rewrite <- Hperm; eapply list_elem_of_lookup_2; eassumption.
Qed.

End NotNegative.

Lemma calculateStatistics_not_negative_witness :
  exists st,
    calculateStatistics_ref ens_example p_example = Some st /\
    not_negative (mean st) /\
    not_negative (min_price st) /\ not_negative (max_price st) /\
    (no_nan [S754_finite false 6922000052252965 (-45);
             S754_finite false 6922000052252965 (-45);
             S754_finite false 5574476445503829 (-45);
             S754_finite false 6258842808713754 (-46)] ->
     not_negative (percentile_5 st) /\ not_negative (percentile_95 st)).
Proof.
  apply (@calculateStatistics_not_negative ref_lib sort_ref_length
           (fun l _ => sort_ref_perm l) p_example ens_example _
           ensemble_for_example terminal_values_example).
  repeat constructor.
Defined.

Lemma calculateStatistics_constant_witness :
  exists st,
    calculateStatistics_ref [[d_0_1; d_0_1]; [d_0_1; d_0_1]; [d_0_1; d_0_1]] p_flat
    = Some st /\
    min_price st = d_0_1 /\ max_price st = d_0_1 /\
    percentile_5 st = d_0_1 /\ percentile_95 st = d_0_1.
Proof.
  apply (@calculateStatistics_constant ref_lib sort_ref_length
           (fun l _ => sort_ref_perm l) p_flat
           [[d_0_1; d_0_1]; [d_0_1; d_0_1]; [d_0_1; d_0_1]] [d_0_1; d_0_1; d_0_1]).
  - split; [cbn; lia|]. split; [cbn; unfold INT_MAX; lia|]. repeat constructor.
  - reflexivity.
  - repeat constructor.
  - reflexivity.
Defined.

(* ================================================================== *)
(** * The paths file *)
(* ================================================================== *)

Lemma not_elem_of_concat {A} (x : A) (ls : list (list A)) :
  Forall (fun l => x ∉ l) ls -> x ∉ concat ls.
Proof.
  induction ls as [|l ls IH]; intros Hall; cbn [concat]; [apply not_elem_of_nil|].
  inversion Hall; subst. apply not_elem_of_app. split; [assumption|apply IH; assumption].
Qed.

Lemma price_cells_no_endl p l : TEndl ∉ concat (imap (price_cell p) l).
Proof.
  apply not_elem_of_concat, Forall_forall. intros cell Hcell.
  apply list_elem_of_lookup in Hcell as [j Hj].
  rewrite list_lookup_imap in Hj.
  destruct (l !! j) as [x|]; [|discriminate]. cbn in Hj. inversion Hj; subst cell.
  unfold price_cell. destruct (Z.of_nat j <? steps p);
    repeat (apply not_elem_of_cons; split; [discriminate|]); apply not_elem_of_nil.
Qed.

Lemma csv_row_no_endl p i path : TEndl ∉ csv_row p i path.
Proof.
  unfold csv_row. repeat (apply not_elem_of_cons; split; [discriminate|]).
  apply price_cells_no_endl.
Qed.

Lemma line_doubles_app l1 l2 :
  line_doubles (l1 ++ l2) = line_doubles l1 ++ line_doubles l2.
Proof. unfold line_doubles. apply omap_app. Qed.

Lemma line_doubles_price_cells p l : forall off,
  line_doubles (concat (imap (fun j => price_cell p (off + j)) l)) = l.
Proof.
  induction l as [|x l IH]; intros off; [reflexivity|].
  cbn [imap concat]. rewrite line_doubles_app.
  assert (E : line_doubles (price_cell p (off + 0) x) = [x]).
  { unfold price_cell. destruct (Z.of_nat (off + 0) <? steps p); reflexivity. }
  rewrite E. cbn [app]. f_equal.
  rewrite (imap_ext _ (fun j => price_cell p (S off + j)));
    [apply IH|]. intros j y _. cbn. f_equal. lia.
Qed.

Lemma line_doubles_csv_row p i path :
  line_doubles (csv_row p i path) = take (Z.to_nat (steps p + 1)) path.
Proof.
  unfold csv_row. change (line_doubles (?a :: ?b :: ?l)) with (line_doubles l).
  apply (line_doubles_price_cells p _ 0).
Qed.

Lemma token_lines_rows (rows : list (list Token)) :
  Forall (fun row => TEndl ∉ row) rows ->
  token_lines_aux [] (concat ((fun row => row ++ [TEndl]) <$> rows)) = rows.
Proof.
  induction rows as [|row rows IH]; intros Hall; [reflexivity|].
  inversion Hall as [|? ? Hrow Hrest]; subst.
  cbn [fmap list_fmap concat]. rewrite <- app_assoc. cbn [app].
  rewrite token_lines_aux_endl by exact Hrow. cbn [rev app].
  rewrite IH by exact Hrest. reflexivity.
Qed.

Lemma csv_rows_no_endl p paths : Forall (fun row => TEndl ∉ row) (csv_rows p paths).
Proof.
  unfold csv_rows. apply Forall_forall. intros row Hin.
  apply list_elem_of_lookup in Hin as [i Hi]. rewrite list_lookup_imap in Hi.
  destruct (take _ paths !! i) as [path|]; [|discriminate].
  inversion Hi. apply csv_row_no_endl.
Qed.

(** The lines of the paths file are its header and its rows. *)
Lemma token_lines_paths_file p ks paths :
  token_lines ((TStr "Path," :: flat_map (header_cell p) ks)
                 ++ TEndl :: concat ((fun row => row ++ [TEndl]) <$> csv_rows p paths))
  = (TStr "Path," :: flat_map (header_cell p) ks) :: csv_rows p paths.
Proof.
  unfold token_lines. rewrite token_lines_aux_endl.
  - cbn [rev app]. f_equal. apply token_lines_rows, csv_rows_no_endl.
  - apply not_elem_of_cons. split; [discriminate|]. apply header_cells_no_endl.
Qed.

(** The numbers of the rows are the prices written. *)
Lemma line_doubles_csv_rows p paths :
  line_doubles <$> csv_rows p paths
  = take (Z.to_nat (steps p + 1)) <$> take (Z.to_nat (num_paths p)) paths.
Proof.
  unfold csv_rows. apply list_eq. intros i.
  rewrite !list_lookup_fmap, list_lookup_imap.
  destruct (take (Z.to_nat (num_paths p)) paths !! i) as [path|]; [|reflexivity].
  cbn [fmap option_fmap option_map]. rewrite line_doubles_csv_row. reflexivity.
Qed.

(** The inner loop of [saveResultsToCSV] appends the cells of the path
    to the row. *)
Lemma save_row_loop_eq p (paths : list (list double)) (i : Z) path (out : list Token) :
  0 <= steps p < INT_MAX ->
  vector_get paths i = Some path ->
  steps p < Z.of_nat (length path) ->
  for_loop (Z.to_nat (steps p + 1)) (fun j => j <=? steps p) 0
    (fun j out =>
       path ← vector_get paths i;
       price ← vector_get path j;
       Some (if j <? steps p
             then (out ++ [TDouble price]) ++ [TStr ","]
             else out ++ [TDouble price]))
    out
  = Some (out ++ concat (imap (price_cell p) (take (Z.to_nat (steps p + 1)) path))).
Proof.
  intros Hs Hpath Hlen.
  destruct (for_loop_invariant
              (fun j out' =>
                 0 <= j /\
                 out' = out ++ concat (imap (price_cell p) (take (Z.to_nat j) path)))
              (fun j => j <=? steps p)
              (fun j out =>
                 path ← vector_get paths i;
                 price ← vector_get path j;
                 Some (if j <? steps p
                       then (out ++ [TDouble price]) ++ [TStr ","]
                       else out ++ [TDouble price]))
              (Z.to_nat (steps p + 1)) 0 (steps p + 1) out)
    as (out' & Hout & _ & Heq); try (unfold INT_MIN, INT_MAX in *; lia).
  - split; [lia|]. cbn. rewrite app_nil_r. reflexivity.
  - intros j s Hj [Hj0 ->]. rewrite Hpath. cbn [mbind option_bind].
    destruct (lookup_lt_is_Some_2 path (Z.to_nat j) ltac:(lia)) as [price Hprice].
    rewrite vector_get_Some by lia. rewrite Hprice. cbn [mbind option_bind].
    eexists. split; [reflexivity|]. split; [lia|].
    replace (Z.to_nat (j + 1)) with (S (Z.to_nat j)) by lia.
    rewrite (take_S_r _ _ _ Hprice), imap_app, concat_app.
    rewrite length_take, Nat.min_l by lia.
    cbn [imap concat]. rewrite app_nil_r.
    replace (price_cell p (Z.to_nat j + 0) price)
      with (TDouble price :: (if j <? steps p then [TStr ","] else []))
      by (unfold price_cell; rewrite Nat.add_0_r, Z2Nat.id by lia; reflexivity).
    destruct (j <? steps p); rewrite <- ?app_assoc; reflexivity.
  - rewrite Hout, Heq. reflexivity.
Qed.

(** The two files [saveResultsToCSV] writes, insertion by insertion. *)
Lemma saveResultsToCSV_eq p paths :
  0 <= steps p < INT_MAX -> 0 <= num_paths p <= INT_MAX ->
  exportable p paths ->
  saveResultsToCSV paths p
  = Some ((TStr "Path," :: flat_map (header_cell p) (seqZ 0 (steps p + 1)))
            ++ TEndl :: concat ((fun row => row ++ [TEndl]) <$> csv_rows p paths),
          flat_map (time_line p) (seqZ 0 (steps p + 1))).
Proof.
  intros Hs Hn Hexp.
  unfold saveResultsToCSV. cbv zeta. rewrite save_header_loop by lia.
  cbn [mbind option_bind].
  set (hdr := TStr "Path," :: flat_map (header_cell p) (seqZ 0 (steps p + 1))).
  destruct (for_loop_invariant
              (fun i out =>
                 0 <= i /\
                 out = hdr ++ TEndl
                         :: concat ((fun row => row ++ [TEndl])
                                      <$> imap (csv_row p) (take (Z.to_nat i) paths)))
              (fun i => i <? num_paths p)
              (fun i out =>
                 i1 ← int_add i 1;
                 out ← for_loop (Z.to_nat (steps p + 1)) (fun j => j <=? steps p) 0
                         (fun j out =>
                            path ← vector_get paths i;
                            price ← vector_get path j;
                            Some (if j <? steps p
                                  then (out ++ [TDouble price]) ++ [TStr ","]
                                  else out ++ [TDouble price]))
                         (out ++ [TInt i1; TStr ","]);
                 Some (out ++ [TEndl]))
              (Z.to_nat (num_paths p)) 0 (num_paths p) (hdr ++ [TEndl]))
    as (paths_file & Hfile & _ & Heq); try (unfold INT_MIN, INT_MAX in *; lia).
  - split; [lia|]. reflexivity.
  - intros i s Hi [Hi0 ->].
    rewrite int_add_Some by (unfold INT_MIN, INT_MAX in *; lia).
    cbn [mbind option_bind].
    destruct (Hexp (Z.to_nat i) ltac:(lia)) as (path & Hpath & Hlen).
    rewrite (save_row_loop_eq p paths i path) by (try rewrite vector_get_Some; auto; lia).
    cbn [mbind option_bind]. eexists. split; [reflexivity|]. split; [lia|].
    replace (Z.to_nat (i + 1)) with (S (Z.to_nat i)) by lia.
    rewrite (take_S_r _ _ _ Hpath), imap_app, fmap_app, concat_app.
    assert (Hk : length (take (Z.to_nat i) paths) = Z.to_nat i).
    { rewrite length_take, Nat.min_l; [reflexivity|].
      apply lookup_lt_Some in Hpath. lia. }
    rewrite Hk. cbn [imap fmap list_fmap concat]. rewrite app_nil_r.
    replace (csv_row p (Z.to_nat i + 0) path)
      with (TInt (i + 1) :: TStr ","
              :: concat (imap (price_cell p) (take (Z.to_nat (steps p + 1)) path)))
      by (unfold csv_row; rewrite Nat.add_0_r, Z2Nat.id by lia; reflexivity).
    rewrite <- !app_assoc. cbn [app]. reflexivity.
  - rewrite Hfile. cbn [mbind option_bind].
    rewrite save_time_loop by lia. cbn [mbind option_bind].
    rewrite Heq. unfold csv_rows. reflexivity.
Qed.

(** X16.  The paths file has one header line and one row for each of the first
    [num_paths] paths, in order: the row of the path of index [i] is the
    insertion of the number [i + 1], a comma, and the first [steps + 1]
    prices of the path with a comma between two of them and none after
    the last.  Paths and prices beyond these are not written. *)
Theorem saveResultsToCSV_paths_file (p : SimulationParams)
    (paths : list (list double)) :
  0 <= steps p < INT_MAX -> 0 <= num_paths p <= INT_MAX ->
  exportable p paths ->
  exists paths_file time_file header rows,
    saveResultsToCSV paths p = Some (paths_file, time_file) /\
    token_lines paths_file = header :: rows /\
    rows = csv_rows p paths /\
    Z.of_nat (length rows) = num_paths p /\
    line_doubles <$> rows
    = take (Z.to_nat (steps p + 1)) <$> take (Z.to_nat (num_paths p)) paths /\
    forall (i : nat) row, rows !! i = Some row ->
      exists cells x,
        row = TInt (Z.of_nat i + 1) :: TStr "," :: cells /\
        last row = Some (TDouble x).
Proof.
  intros Hs Hn Hexp. rewrite saveResultsToCSV_eq by assumption.
  assert (Hlen : (Z.to_nat (num_paths p) <= length paths)%nat).
  { destruct (Z.to_nat (num_paths p)) as [|k] eqn:Ek; [lia|].
    destruct (Hexp k ltac:(lia)) as (path & Hpath & _).
    apply lookup_lt_Some in Hpath. lia. }
  eexists _, _, (TStr "Path," :: flat_map (header_cell p) (seqZ 0 (steps p + 1))),
    (csv_rows p paths).
  split; [reflexivity|].
  split; [apply token_lines_paths_file|].
  split; [reflexivity|].
  split; [unfold csv_rows; rewrite length_imap, length_take; lia|].
  split; [apply line_doubles_csv_rows|].
  intros i row Hrow. unfold csv_rows in Hrow. rewrite list_lookup_imap in Hrow.
  destruct (take (Z.to_nat (num_paths p)) paths !! i) as [path|] eqn:Hpath;
    [|discriminate].
  cbn in Hrow. inversion Hrow as [Hr]. clear Hrow.
  assert (Hi : (i < Z.to_nat (num_paths p))%nat).
  { apply lookup_lt_Some in Hpath. rewrite length_take in Hpath. lia. }
  rewrite lookup_take_lt in Hpath by exact Hi.
  destruct (Hexp i ltac:(lia)) as (path' & Hpath' & Hlong).
  rewrite Hpath in Hpath'. inversion Hpath'; subst path'.
  destruct (lookup_lt_is_Some_2 path (Z.to_nat (steps p)) ltac:(lia)) as [x Hx].
  exists (concat (imap (price_cell p) (take (Z.to_nat (steps p + 1)) path))), x.
  split; [reflexivity|].
  unfold csv_row.
  replace (Z.to_nat (steps p + 1)) with (S (Z.to_nat (steps p))) by lia.
  rewrite (take_S_r _ _ _ Hx), imap_app, concat_app.
  cbn [imap concat]. rewrite app_nil_r.
  replace (price_cell p (length (take (Z.to_nat (steps p)) path) + 0) x)
    with [TDouble x]
    by (unfold price_cell;
        rewrite length_take, Nat.min_l, Nat.add_0_r, Z2Nat.id, Z.ltb_irrefl by lia;
        reflexivity).
  rewrite !app_comm_cons. apply last_snoc.
Qed.

Lemma saveResultsToCSV_paths_file_witness :
  exists paths_file time_file header rows,
    saveResultsToCSV ens_example p_example = Some (paths_file, time_file) /\
    token_lines paths_file = header :: rows /\
    rows = csv_rows p_example ens_example /\
    Z.of_nat (length rows) = num_paths p_example /\
    line_doubles <$> rows
    = take (Z.to_nat (steps p_example + 1))
        <$> take (Z.to_nat (num_paths p_example)) ens_example /\
    forall (i : nat) row, rows !! i = Some row ->
      exists cells x,
        row = TInt (Z.of_nat i + 1) :: TStr "," :: cells /\
        last row = Some (TDouble x).
Proof.
  apply (saveResultsToCSV_paths_file p_example ens_example).
  - cbn. unfold INT_MAX. lia.
  - cbn. unfold INT_MAX. lia.
  - intros i Hi. cbn in Hi.
    destruct i as [|[|[|[|i]]]]; try lia; eexists; (split; [reflexivity|cbn; lia]).
Defined.

(** A counted loop that completes ran its body, with success, at every
    index of its range. *)
Lemma for_loop_Some_body {St : Type} (cond : Z -> bool)
    (body : Z -> St -> option St) (k : nat) : forall (lo hi : Z) (s s' : St),
  hi = lo + Z.of_nat k ->
  (forall i, lo <= i < hi -> cond i = true) ->
  for_loop k cond lo body s = Some s' ->
  forall i, lo <= i < hi -> exists si si', body i si = Some si'.
Proof.
  induction k as [|k IH]; intros lo hi s s' Hhi Hc Hloop i Hi; [lia|].
  cbn [for_loop] in Hloop. rewrite Hc in Hloop by lia.
  destruct (body lo s) as [s1|] eqn:Hb; [|discriminate].
  cbn [mbind option_bind] in Hloop. unfold int_add in Hloop.
  destruct (in_int_range (lo + 1)); [|discriminate].
  cbn [mbind option_bind] in Hloop.
  destruct (Z.eq_dec i lo) as [->|Hne]; [eauto|].
  apply (IH (lo + 1) hi s1 s'); try assumption; try lia.
  intros j Hj. apply Hc. lia.
Qed.

Lemma saveResultsToCSV_Some_inv p paths r :
  0 <= steps p < INT_MAX -> 0 <= num_paths p ->
  saveResultsToCSV paths p = Some r -> exportable p paths.
Proof.
  intros Hs Hn. unfold saveResultsToCSV. cbv zeta.
  rewrite save_header_loop by lia. cbn [mbind option_bind].
  match goal with
  | |- context [for_loop ?k ?c 0 ?b ?s ≫= _] =>
      destruct (for_loop k c 0 b s) as [file|] eqn:Hloop; [|discriminate]
  end.
  intros _ i Hi.
  pose proof (fun H1 H2 => for_loop_Some_body _ _ _ 0 (num_paths p) _ _ H1 H2 Hloop)
    as Hrun.
  destruct (Hrun ltac:(lia) ltac:(intros; apply Z.ltb_lt; lia) (Z.of_nat i) ltac:(lia))
    as (si & si' & Hbody).
  clear Hrun.
  cbv beta in Hbody.
  destruct (int_add (Z.of_nat i) 1) as [i1|]; [|discriminate].
  cbn [mbind option_bind] in Hbody.
  match type of Hbody with
  | context [for_loop ?k ?c 0 ?b ?s ≫= _] =>
      destruct (for_loop k c 0 b s) as [row|] eqn:Hrow; [|discriminate]
  end.
  pose proof (fun H1 H2 => for_loop_Some_body _ _ _ 0 (steps p + 1) _ _ H1 H2 Hrow)
    as Hrun.
  destruct (Hrun ltac:(lia) ltac:(intros; apply Z.leb_le; lia) (steps p) ltac:(lia))
    as (sj & sj' & Hcell).
  clear Hrun.
  cbv beta in Hcell. rewrite vector_get_nat in Hcell.
  destruct (paths !! i) as [path|]; [|discriminate].
  cbn [mbind option_bind] in Hcell. rewrite vector_get_Some in Hcell by lia.
  destruct (path !! Z.to_nat (steps p)) as [x|] eqn:Hx; [|discriminate].
  exists path. split; [reflexivity|]. apply lookup_lt_Some in Hx. lia.
Qed.

(** X17.  With [0 <= steps < INT_MAX], [saveResultsToCSV] has a defined result
    exactly when the ensemble holds, for every index below [num_paths],
    a path with an element at every index up to [steps]. *)
Theorem saveResultsToCSV_defined_iff (p : SimulationParams)
    (paths : list (list double)) :
  0 <= steps p < INT_MAX -> 0 <= num_paths p <= INT_MAX ->
  is_Some (saveResultsToCSV paths p) <->
  forall i : nat, Z.of_nat i < num_paths p ->
    exists path, paths !! i = Some path /\ steps p < Z.of_nat (length path).
Proof.
  intros Hs Hn. split.
  - intros [r Hr]. eapply saveResultsToCSV_Some_inv; [exact Hs|lia|exact Hr].
  - intros Hexp. rewrite saveResultsToCSV_eq by assumption. eauto.
Qed.

Lemma saveResultsToCSV_defined_iff_witness :
  is_Some (saveResultsToCSV ens_example p_example) <->
  forall i : nat, Z.of_nat i < num_paths p_example ->
    exists path, ens_example !! i = Some path /\
                 steps p_example < Z.of_nat (length path).
Proof.
  apply (saveResultsToCSV_defined_iff p_example ens_example);
    cbn; unfold INT_MAX; lia.
Defined.

(* ================================================================== *)
(** * The time axis *)
(* ================================================================== *)

Lemma time_point_no_steps p : steps p = 0 -> time_point p 0 = S754_nan.
Proof.
  intros H. unfold time_point. rewrite H.
  change (double_of_int 0) with d_0_0.
  destruct (T p) as [[|]|[|]| |[|] m e]; reflexivity.
Qed.

(** X18.  With [steps = 0] the time step is [T / 0] and the only time point is
    [0 * (T / 0)], a NaN whatever [T]: the time-points file is one line
    holding a NaN, and so is the time value of the header row. *)
Theorem saveResultsToCSV_no_steps (p : SimulationParams)
    (paths : list (list double)) :
  steps p = 0 -> 0 <= num_paths p <= INT_MAX ->
  exportable p paths ->
  exists paths_file time_file header rows,
    saveResultsToCSV paths p = Some (paths_file, time_file) /\
    token_lines time_file = [[TDouble S754_nan]] /\
    token_lines paths_file = header :: rows /\
    header = [TStr "Path,"; TDouble S754_nan].
Proof.
  intros Hs Hn Hexp.
  rewrite saveResultsToCSV_eq by (try assumption; rewrite Hs; unfold INT_MAX; lia).
  rewrite Hs. change (seqZ 0 (0 + 1)) with [0]. cbn [flat_map app].
  unfold time_line, header_cell. rewrite Hs, (time_point_no_steps p Hs).
  cbn [Z.ltb Z.compare app].
  eexists _, _, _, (csv_rows p paths). split; [reflexivity|].
  split; [reflexivity|]. split; [|reflexivity].
  unfold token_lines. cbn [token_lines_aux rev app]. f_equal.
  apply token_lines_rows, csv_rows_no_endl.
Qed.

Lemma saveResultsToCSV_no_steps_witness :
  exists paths_file time_file header rows,
    saveResultsToCSV [[d_100]; [d_100]] p_no_steps = Some (paths_file, time_file) /\
    token_lines time_file = [[TDouble S754_nan]] /\
    token_lines paths_file = header :: rows /\
    header = [TStr "Path,"; TDouble S754_nan].
Proof.
  apply (saveResultsToCSV_no_steps p_no_steps [[d_100]; [d_100]]).
  - reflexivity.
  - cbn. unfold INT_MAX. lia.
  - intros i Hi. cbn in Hi.
    destruct i as [|[|i]]; try lia; eexists; (split; [reflexivity|cbn; lia]).
Defined.

Lemma fmul_sign a b :
  has_sign false a -> has_sign false b ->
  is_finite a = true -> is_finite b = true ->
  has_sign false (fmul a b).
Proof.
  destruct a as [sa|sa| |sa ma ea], b as [sb|sb| |sb mb eb]; cbn [has_sign];
    intros Ha Hb Hfa Hfb; subst; try contradiction; try discriminate;
    try reflexivity.
  apply (binary_round_aux_sign false (Zpos (ma * mb)) (ea + eb) loc_Exact). lia.
Qed.

(** X19.  For a finite horizon [T > 0] and at least one step, every time
    point [i * (T / steps)] with [i >= 0] is a number [>= 0], never a
    NaN, and the first one is [+0]. *)
Theorem time_point_not_negative (p : SimulationParams) (i : Z) :
  is_binary64 (T p) = true -> is_finite (T p) = true -> flt d_0_0 (T p) = true ->
  1 <= steps p <= INT_MAX -> 0 <= i <= INT_MAX ->
  fle d_0_0 (time_point p i) = true /\
  (i = 0 -> time_point p i = d_0_0).
Proof.
  intros Hval Hfin Hpos Hs Hi.
  pose proof (fdiv_int_finite (T p) (steps p) Hval Hfin
                (flt_zero_not_negative _ Hpos) Hs) as Hdt.
  destruct (double_of_int_positive (steps p) Hs) as (mN & eN & HN).
  assert (Hsign : has_sign false (time_step p)).
  { unfold time_step. rewrite HN. apply fdiv_sign.
    destruct (T p) as [[|]|[|]| |[|] m e]; try discriminate Hpos; reflexivity. }
  fold (time_step p) in Hdt.
  assert (Hdtf : is_finite (time_step p) = true).
  { destruct (time_step p) as [s|s| |[|] m e]; try contradiction; reflexivity. }
  unfold time_point. fold (time_step p). split.
  - apply has_sign_fle_zero, fmul_sign; try assumption.
    + apply binary_normalize_sign. lia.
    + destruct (Z.eq_dec i 0) as [->|Hne]; [reflexivity|].
      destruct (double_of_int_positive i ltac:(lia)) as (m & e & ->). reflexivity.
  - intros ->. change (double_of_int 0) with d_0_0.
    destruct (time_step p) as [s|s| |s m e]; cbn in Hsign; try contradiction;
      try discriminate Hdtf; subst s; reflexivity.
Qed.

Lemma time_point_not_negative_witness :
  fle d_0_0 (time_point p_example 2) = true /\
  (2 = 0 -> time_point p_example 2 = d_0_0).
Proof.
  apply (time_point_not_negative p_example 2); try reflexivity;
    cbn; unfold INT_MAX; lia.
Defined.

(* ================================================================== *)
(** * A whole run *)
(* ================================================================== *)

Section Run.
Context {L : StdLib}.
Hypothesis std_sort_length : forall l, length (std_sort l) = length l.

Lemma ensemble_from_exportable p seed :
  0 <= steps p ->
  exportable p (ensemble_from p (Z.to_nat (num_paths p)) seed).
Proof.
  intros Hs i Hi. rewrite ensemble_from_lookup by lia.
  eexists. split; [reflexivity|]. rewrite path_from_length. lia.
Qed.

Lemma ensemble_from_take p n seed :
  0 <= steps p ->
  take (Z.to_nat (steps p + 1)) <$> take n (ensemble_from p n seed)
  = ensemble_from p n seed.
Proof.
  intros Hs. rewrite take_ge by (rewrite ensemble_from_length; lia).
  unfold ensemble_from. rewrite <- list_fmap_compose. apply list_fmap_ext.
  intros i k _. cbn. apply take_ge. rewrite path_from_length. lia.
Qed.

Lemma main_is_Some p seed :
  1 <= num_paths p <= INT_MAX -> 0 <= steps p < INT_MAX ->
  exists stats,
    calculateStatistics (ensemble_from p (Z.to_nat (num_paths p)) seed) p = Some stats /\
    main p seed
    = Some {| exit_code := 0;
              ensemble := ensemble_from p (Z.to_nat (num_paths p)) seed;
              report := stats;
              stock_price_paths_csv :=
                (TStr "Path," :: flat_map (header_cell p) (seqZ 0 (steps p + 1)))
                  ++ TEndl
                  :: concat ((fun row => row ++ [TEndl])
                               <$> csv_rows p (ensemble_from p (Z.to_nat (num_paths p)) seed));
              time_points_csv := flat_map (time_line p) (seqZ 0 (steps p + 1)) |}.
Proof.
  intros Hn Hs. set (ens := ensemble_from p (Z.to_nat (num_paths p)) seed).
  assert (Hexp : exportable p ens) by (apply ensemble_from_exportable; lia).
  assert (Hlen : length ens = Z.to_nat (num_paths p)) by apply ensemble_from_length.
  destruct (terminal_values_is_Some p ens) as [finals Hf].
  { apply Forall_forall. intros path Hin.
    apply list_elem_of_lookup in Hin as [i Hi].
    destruct (Hexp i) as (path' & Hpath' & Hlong).
    - apply lookup_lt_Some in Hi. lia.
    - rewrite Hi in Hpath'. inversion Hpath'; subst. lia. }
  destruct (calculateStatistics_is_Some std_sort_length p ens finals Hf ltac:(lia))
    as [stats Hstats].
  exists stats. split; [exact Hstats|].
  unfold main. rewrite runMonteCarloSimulation_eq by lia. fold ens.
  cbn [mbind option_bind]. rewrite Hstats. cbn [mbind option_bind].
  rewrite saveResultsToCSV_eq by (try assumption; lia). reflexivity.
Qed.

End Run.

(** X20.  A run of [main] completes exactly when at least one path is asked
    for and [0 <= steps < INT_MAX]; with no path the statistics read the
    minimum of an empty range, and with a negative count the ensemble
    cannot be built. *)
Theorem main_defined_iff {L : StdLib} (p : SimulationParams) (seed : Gen) :
  (forall l, length (std_sort l) = length l) ->
  num_paths p <= INT_MAX ->
  is_Some (main p seed) <-> 1 <= num_paths p /\ 0 <= steps p < INT_MAX.
Proof.
  intros Hsort Hmax. split.
  - intros [r Hr]. unfold main in Hr.
    destruct (runMonteCarloSimulation p seed) as [paths|] eqn:Hrun; [|discriminate].
    destruct (runMonteCarloSimulation_Some_inv p seed paths Hrun) as [Hn [H0|Hs]].
    + rewrite runMonteCarloSimulation_empty in Hrun by exact H0.
      inversion Hrun; subst paths. discriminate Hr.
    + split; [|exact Hs].
      destruct (Z.eq_dec (num_paths p) 0) as [H0|H0]; [|lia].
      rewrite runMonteCarloSimulation_empty in Hrun by exact H0.
      inversion Hrun; subst paths. discriminate Hr.
  - intros [Hn Hs].
    destruct (main_is_Some Hsort p seed ltac:(lia) Hs) as (stats & _ & ->). eauto.
Qed.

Lemma main_defined_iff_witness :
  is_Some (main_ref p_example 42) <->
  1 <= num_paths p_example /\ 0 <= steps p_example < INT_MAX.
Proof.
  apply (@main_defined_iff ref_lib p_example 42).
  - exact sort_ref_length.
  - cbn. unfold INT_MAX. lia.
Defined.

(** X21.  A run that completes returns 0 and leaves a paths file whose rows
    are, in order and price by price, the paths of the ensemble it
    simulated: [num_paths] rows of [steps + 1] prices, each row starting
    at [S0]; the header row carries the time points. *)
Theorem main_exports_ensemble {L : StdLib} (p : SimulationParams) (seed : Gen) :
  (forall l, length (std_sort l) = length l) ->
  1 <= num_paths p <= INT_MAX -> 0 <= steps p < INT_MAX ->
  exists r header rows,
    main p seed = Some r /\
    exit_code r = 0 /\
    runMonteCarloSimulation p seed = Some (ensemble r) /\
    token_lines (stock_price_paths_csv r) = header :: rows /\
    line_doubles header = time_points p /\
    line_doubles <$> rows = ensemble r /\
    Z.of_nat (length rows) = num_paths p /\
    Forall (fun row => Z.of_nat (length (line_doubles row)) = steps p + 1 /\
                       head (line_doubles row) = Some (S0 p)) rows.
Proof.
  intros Hsort Hn Hs.
  destruct (main_is_Some Hsort p seed Hn Hs) as (stats & _ & Hmain).
  set (ens := ensemble_from p (Z.to_nat (num_paths p)) seed) in *.
  assert (Hrows : line_doubles <$> csv_rows p ens = ens).
  { rewrite line_doubles_csv_rows. apply ensemble_from_take. lia. }
  eexists _, _, (csv_rows p ens). split; [exact Hmain|].
  cbn [exit_code ensemble stock_price_paths_csv].
  split; [reflexivity|].
  split; [apply runMonteCarloSimulation_eq; lia|].
  split; [apply token_lines_paths_file|].
  split; [rewrite line_doubles_header; reflexivity|].
  split; [exact Hrows|].
  split.
  { unfold csv_rows. rewrite length_imap, length_take.
    unfold ens. rewrite ensemble_from_length. lia. }
  apply Forall_forall. intros row Hin.
  apply list_elem_of_lookup in Hin as [i Hi].
  assert (Hpath : ens !! i = Some (line_doubles row)).
  { rewrite <- Hrows, list_lookup_fmap, Hi. reflexivity. }
  assert (Hlt : (i < Z.to_nat (num_paths p))%nat).
  { apply lookup_lt_Some in Hpath. unfold ens in Hpath.
    rewrite ensemble_from_length in Hpath. exact Hpath. }
  unfold ens in Hpath. rewrite ensemble_from_lookup in Hpath by exact Hlt.
  inversion Hpath as [Hrow]. rewrite path_from_length, head_lookup, path_from_head.
  split; [lia|reflexivity].
Qed.

Lemma main_exports_ensemble_witness :
  exists r header rows,
    main_ref p_example 42 = Some r /\
    exit_code r = 0 /\
    runMonteCarloSimulation_ref p_example 42 = Some (ensemble r) /\
    token_lines (stock_price_paths_csv r) = header :: rows /\
    line_doubles header = time_points p_example /\
    line_doubles <$> rows = ensemble r /\
    Z.of_nat (length rows) = num_paths p_example /\
    Forall (fun row => Z.of_nat (length (line_doubles row)) = steps p_example + 1 /\
                       head (line_doubles row) = Some (S0 p_example)) rows.
Proof.
  apply (@main_exports_ensemble ref_lib p_example 42).
  - exact sort_ref_length.
  - cbn. unfold INT_MAX. lia.
  - cbn. unfold INT_MAX. lia.
Defined.
